(** * Rotated surface code: plaquette layout and result decoding

    A shallow embedding of [qiskit_qec/circuits/surface_code.py]
    (class [SurfaceCodeCircuit]).  Python integers are [Z], Python
    strings are lists of characters, Python lists are lists, [None] in a
    plaquette slot is [None] of [option Z].  Code that can raise
    ([IndexError] on subscripts, [ValueError] on [int(...)], [KeyError]
    on a dictionary, [CircuitError] of the circuit library on a gate
    whose register is empty) lives in a small exception monad. *)

From Stdlib Require Import String Ascii ZArith List Bool Lia Arith DecimalString FinFun.
Import ListNotations.
Local Open Scope Z_scope.

(** ** A few Python primitives *)

Module Py.

Inductive exn : Type := IndexError | ValueError | KeyError | CircuitError.

Definition result (A : Type) : Type := (A + exn)%type.

Definition ret {A} (a : A) : result A := inl a.
Definition raise {A} (e : exn) : result A := inr e.
Definition bind {A B} (m : result A) (k : A -> result B) : result B :=
    match m with
    | inl a => k a
    | inr e => inr e
    end.

  (** A [for] loop whose body may raise: the accumulator is threaded
      until the first exception. *)
Fixpoint for_each {A S} (l : list A) (body : S -> A -> result S) (s : S)
    : result S :=
    match l with
    | [] => ret s
    | a :: l' => bind (body s a) (for_each l' body)
    end.

Definition str : Type := list ascii.

Definition lit (s : string) : str := list_ascii_of_string s.

Definition str_eqb (a b : str) : bool :=
    if list_eq_dec ascii_dec a b then true else false.

  (** [range(lo, hi)] and [range(n)]. *)
Definition range2 (lo hi : Z) : list Z :=
    map (fun i => lo + Z.of_nat i) (seq 0 (Z.to_nat (hi - lo))).
Definition range (n : Z) : list Z := range2 0 n.

  (** [v in range(n)]. *)
Definition in_range (v n : Z) : bool := (0 <=? v) && (v <? n).

  (** [l[i]] for a list or a string: negative subscripts count from the
      end, anything outside raises [IndexError]. *)
Definition getitem {A} (l : list A) (i : Z) : result A :=
    let n := Z.of_nat (length l) in
    let k := if i <? 0 then n + i else i in
    if (0 <=? k) && (k <? n)
    then match nth_error l (Z.to_nat k) with
         | Some a => ret a
         | None => raise IndexError
         end
    else raise IndexError.

  (** [s.split(" ")]. *)
Definition space : ascii := " "%char.

Fixpoint split (s : str) : list str :=
    match s with
    | [] => [[]]
    | c :: s' =>
        if Ascii.eqb c space then [] :: split s'
        else match split s' with
             | w :: ws => (c :: w) :: ws
             | [] => [[c]]
             end
    end.

  (** [" ".join(l)]. *)
Fixpoint join (l : list str) : str :=
    match l with
    | [] => []
    | [w] => w
    | w :: ws => w ++ space :: join ws
    end.

  (** [l[k::2]] is [stride2 (skipn k l)]. *)
Fixpoint stride2 {A} (l : list A) : list A :=
    match l with
    | [] => []
    | a :: l' => a :: match l' with
                      | [] => []
                      | _ :: l'' => stride2 l''
                      end
    end.

  (** [int(c)] on a one-character string. *)
Definition int_of_char (c : ascii) : result Z :=
    let n := Z.of_nat (nat_of_ascii c) in
    if (48 <=? n) && (n <=? 57) then ret (n - 48) else raise ValueError.

  (** ["0" * (not change) + "1" * change]. *)
Definition bit_of_bool (change : bool) : str :=
    (if negb change then lit "0" else []) ++ (if change then lit "1" else []).

  (** [s.count("1")]. *)
Definition count_ones (s : str) : Z :=
    Z.of_nat (length (filter (fun c => Ascii.eqb c "1"%char) s)).

End Py.

Import Py.

Notation "x <- m ;; k" := (bind m (fun x => k))
  (at level 61, m at next level, right associativity).

(** ** Lattice layout: [_get_plaquettes] and the logical supports *)

Definition plaquette : Type := list (option Z).

(** [plaq[i]] on the four-slot list built by the inner loops. *)
Definition slot (plaq : plaquette) (i : nat) : option Z := nth i plaq None.

Definition bulk (d x y : Z) : bool := in_range x (d - 1) && in_range y (d - 1).

Definition ztab (d x y : Z) : bool :=
  ((x =? -1) && (y mod 2 =? 0)) || ((x =? d - 1) && (y mod 2 =? 1)).

Definition xtab (d x y : Z) : bool :=
  ((y =? -1) && (x mod 2 =? 1)) || ((y =? d - 1) && (x mod 2 =? 0)).

(** The guard of line 131: the coordinate seeds a plaquette. *)
Definition seeds (d x y : Z) : bool :=
  (in_range x (d - 1) || in_range y (d - 1))
  && (bulk d x y || ztab d x y || xtab d x y).

Definition corner (d x y dx dy : Z) : option Z :=
  if in_range (x + dx) d && in_range (y + dy) d
  then Some (x + dx + d * (y + dy))
  else None.

(** Lines 132-138: the 2x2 block, [dy] outer and [dx] inner. *)
Definition block (d x y : Z) : plaquette :=
  fold_left
    (fun plaq dy =>
       fold_left (fun plaq dx => plaq ++ [corner d x y dx dy]) (range 2) plaq)
    (range 2) [].

Definition xstore (d y x : Z) : plaquette :=
  let plaq := block d x y in
  [slot plaq 0; slot plaq 1; slot plaq 2; slot plaq 3].

Definition zstore (d y x : Z) : plaquette :=
  let plaq := block d x y in
  [slot plaq 0; slot plaq 2; slot plaq 1; slot plaq 3].

(** Body of the [x] loop; the accumulator is [(zplaqs, xplaqs)]. *)
Definition plaq_body (d y : Z) (acc : list plaquette * list plaquette) (x : Z)
  : list plaquette * list plaquette :=
  let '(zplaqs, xplaqs) := acc in
  if seeds d x y then
    if (x + y) mod 2 =? 0
    then (zplaqs, xplaqs ++ [xstore d y x])
    else (zplaqs ++ [zstore d y x], xplaqs)
  else acc.

(** Returns [(zplaqs, xplaqs)]. *)
Definition _get_plaquettes (d : Z) : list plaquette * list plaquette :=
  fold_left
    (fun acc y => fold_left (plaq_body d y) (range2 (-1) d) acc)
    (range2 (-1) d) ([], []).

(** Lines 63-69: [_logicals["x"]] and [_logicals["z"]]. *)
Definition logicals_x (d : Z) : list (list Z) :=
  [ map (fun j => j * d) (range d);
    map (fun j => (j + 1) * d - 1) (range d) ].

Definition logicals_z (d : Z) : list (list Z) :=
  [ map (fun j => j) (range d);
    map (fun j => d ^ 2 - 1 - j) (range d) ].

(** Line 84: [int((d**2 - 1) / 2)]; [int] truncates towards zero.  The
    quotient is taken exactly, as the float division does for every
    distance whose square is below 2^53. *)
Definition _num_xy (d : Z) : Z := Z.quot (d ^ 2 - 1) 2.

(** ** The circuit object *)

(** The two circuits of [self.circuit], keyed ["0"] and ["1"]. *)
Inductive logical : Type := Log0 | Log1.

(** Registers of the circuit builder, seen through what the class uses:
    a size, a name, and subscripting. *)
Record register : Type := Register { reg_size : Z; reg_name : str }.

Inductive bitref : Type := Bit (r : register) (i : Z).

Inductive instr : Type :=
| AddRegister (r : register)
| GateH (q : bitref)
| GateX (q : bitref)
| GateZ (q : bitref)
| GateCX (c t : bitref)
| Measure (q b : bitref)
| Reset (q : bitref)
| Barrier.

(** [str(n)] for an integer. *)
Definition str_of_int (n : Z) : str :=
  lit (DecimalString.NilZero.string_of_int (Z.to_int n)).

(** [r[i]]: the register keeps its bits in a list. *)
Definition reg_getitem (r : register) (i : Z) : result bitref :=
  let n := reg_size r in
  let k := if i <? 0 then n + i else i in
  if (0 <=? k) && (k <? n) then ret (Bit r k) else raise IndexError.

Definition reg_bits (r : register) : list bitref :=
  map (Bit r) (range (reg_size r)).

(** [circuit.h(register)]: one H gate per qubit of the register.  The
    circuit library refuses a gate whose register is empty and raises
    [CircuitError]. *)
Definition h_all (r : register) : result (list instr) :=
  match reg_bits r with
  | [] => raise CircuitError
  | q :: qs => ret (map GateH (q :: qs))
  end.

Module SCC.

  (** The attributes of [SurfaceCodeCircuit] that the modelled methods
      read or write.  [circuit0] and [circuit1] are the instruction
      sequences of [self.circuit["0"]] and [self.circuit["1"]]. *)
Record t : Type := Make {
    d : Z;
    T : Z;
    basis : str;
    _resets : bool;
    zplaqs : list plaquette;
    xplaqs : list plaquette;
    _logicals_x : list (list Z);
    _logicals_z : list (list Z);
    _num_xy : Z;
    code_qubit : register;
    zplaq_qubit : register;
    xplaq_qubit : register;
    xplaq_bits : list register;
    zplaq_bits : list register;
    code_bit : register;
    circuit0 : list instr;
    circuit1 : list instr
  }.

Definition set_T (v : Z) (s : t) : t :=
    Make (d s) v (basis s) (_resets s) (zplaqs s) (xplaqs s)
         (_logicals_x s) (_logicals_z s) (_num_xy s)
         (code_qubit s) (zplaq_qubit s) (xplaq_qubit s)
         (xplaq_bits s) (zplaq_bits s) (code_bit s)
         (circuit0 s) (circuit1 s).

Definition set_bits (xb zb : list register) (s : t) : t :=
    Make (d s) (T s) (basis s) (_resets s) (zplaqs s) (xplaqs s)
         (_logicals_x s) (_logicals_z s) (_num_xy s)
         (code_qubit s) (zplaq_qubit s) (xplaq_qubit s)
         xb zb (code_bit s)
         (circuit0 s) (circuit1 s).

Definition set_circuits (c0 c1 : list instr) (s : t) : t :=
    Make (d s) (T s) (basis s) (_resets s) (zplaqs s) (xplaqs s)
         (_logicals_x s) (_logicals_z s) (_num_xy s)
         (code_qubit s) (zplaq_qubit s) (xplaq_qubit s)
         (xplaq_bits s) (zplaq_bits s) (code_bit s)
         c0 c1.

  (** Appending instructions to [self.circuit[log]]. *)
Definition emit (log : logical) (ins : list instr) (s : t) : t :=
    match log with
    | Log0 => set_circuits (circuit0 s ++ ins) (circuit1 s) s
    | Log1 => set_circuits (circuit0 s) (circuit1 s ++ ins) s
    end.

End SCC.

(** ** Circuit emission *)

(** [x(logs, barrier)]: logical X along the left column. *)
Definition x (logs : list logical) (barrier : bool) (self : SCC.t)
  : result SCC.t :=
  for_each logs
    (fun self log =>
       self <- for_each (range (SCC.d self))
                 (fun self j =>
                    q <- reg_getitem (SCC.code_qubit self) (j * SCC.d self) ;;
                    ret (SCC.emit log [GateX q] self))
                 self ;;
       ret (if barrier then SCC.emit log [Barrier] self else self))
    self.

(** [z(logs, barrier)]: logical Z along the top row. *)
Definition z (logs : list logical) (barrier : bool) (self : SCC.t)
  : result SCC.t :=
  for_each logs
    (fun self log =>
       self <- for_each (range (SCC.d self))
                 (fun self j =>
                    q <- reg_getitem (SCC.code_qubit self) j ;;
                    ret (SCC.emit log [GateZ q] self))
                 self ;;
       ret (if barrier then SCC.emit log [Barrier] self else self))
    self.

(** [_preparation]: every basis other than ["z"] takes the [else] branch,
    whose loop over [self.circuit] visits ["0"] and then ["1"]. *)
Definition _preparation (self : SCC.t) : result SCC.t :=
  if str_eqb (SCC.basis self) (lit "z") then x [Log1] false self
  else
    self <- for_each [Log0; Log1]
              (fun self log =>
                 h <- h_all (SCC.code_qubit self) ;;
                 ret (SCC.emit log h self))
              self ;;
    z [Log1] false self.

(** The entangling loop of one plaquette list (lines 230-233 and
    234-237); [mk c p] builds the gate from the code-qubit subscript and
    the plaquette position. *)
Definition entangle (log : logical) (plaqs : list plaquette) (j : Z)
    (mk : SCC.t -> Z -> Z -> result instr) (self : SCC.t) : result SCC.t :=
  for_each (combine (range (Z.of_nat (length plaqs))) plaqs)
    (fun self pp =>
       c <- getitem (snd pp) j ;;
       match c with
       | Some c => g <- mk self c (fst pp) ;; ret (SCC.emit log [g] self)
       | None => ret self
       end)
    self.

Definition syndrome_measurement (final barrier : bool) (self : SCC.t)
  : result SCC.t :=
  let zreg := Register (SCC._num_xy self)
                (lit "round_" ++ str_of_int (SCC.T self) ++ lit "_zplaq_bit") in
  let xreg := Register (SCC._num_xy self)
                (lit "round_" ++ str_of_int (SCC.T self) ++ lit "_xplaq_bit") in
  let self := SCC.set_bits (SCC.xplaq_bits self ++ [xreg])
                           (SCC.zplaq_bits self ++ [zreg]) self in
  self <- for_each [Log0; Log1]
    (fun self log =>
       zlast <- getitem (SCC.zplaq_bits self) (-1) ;;
       xlast <- getitem (SCC.xplaq_bits self) (-1) ;;
       let self := SCC.emit log [AddRegister zlast; AddRegister xlast] self in
       h <- h_all (SCC.xplaq_qubit self) ;;
       let self := SCC.emit log h self in
       self <- for_each (range 4)
         (fun self j =>
            self <- entangle log (SCC.zplaqs self) j
                      (fun self c p =>
                         cq <- reg_getitem (SCC.code_qubit self) c ;;
                         aq <- reg_getitem (SCC.zplaq_qubit self) p ;;
                         ret (GateCX cq aq)) self ;;
            entangle log (SCC.xplaqs self) j
              (fun self c p =>
                 aq <- reg_getitem (SCC.xplaq_qubit self) p ;;
                 cq <- reg_getitem (SCC.code_qubit self) c ;;
                 ret (GateCX aq cq)) self)
         self ;;
       h <- h_all (SCC.xplaq_qubit self) ;;
       let self := SCC.emit log h self in
       self <- for_each (range (SCC._num_xy self))
         (fun self j =>
            xq <- reg_getitem (SCC.xplaq_qubit self) j ;;
            xr <- getitem (SCC.xplaq_bits self) (SCC.T self) ;;
            xb <- reg_getitem xr j ;;
            let self := SCC.emit log [Measure xq xb] self in
            zq <- reg_getitem (SCC.zplaq_qubit self) j ;;
            zr <- getitem (SCC.zplaq_bits self) (SCC.T self) ;;
            zb <- reg_getitem zr j ;;
            let self := SCC.emit log [Measure zq zb] self in
            if SCC._resets self && negb final then
              xq' <- reg_getitem (SCC.xplaq_qubit self) j ;;
              let self := SCC.emit log [Reset xq'] self in
              zq' <- reg_getitem (SCC.zplaq_qubit self) j ;;
              ret (SCC.emit log [Reset zq'] self)
            else ret self)
         self ;;
       ret (if barrier then SCC.emit log [Barrier] self else self))
    self ;;
  ret (SCC.set_T (SCC.T self + 1) self).

Definition readout (self : SCC.t) : result SCC.t :=
  for_each [Log0; Log1]
    (fun self log =>
       self <- (if str_eqb (SCC.basis self) (lit "x")
                then h <- h_all (SCC.code_qubit self) ;;
                     ret (SCC.emit log h self)
                else ret self) ;;
       let self := SCC.emit log [AddRegister (SCC.code_bit self)] self in
       ret (SCC.emit log
              (map (fun qb => Measure (fst qb) (snd qb))
                   (combine (reg_bits (SCC.code_qubit self))
                            (reg_bits (SCC.code_bit self))))
              self))
    self.

(** The attributes as they stand after line 100, before any gate is
    emitted: [self.T = 0] and both circuits empty. *)
Definition attributes (d : Z) (basis : str) (resets : bool) : SCC.t :=
  let plaqs := _get_plaquettes d in
  SCC.Make d 0 basis resets (fst plaqs) (snd plaqs)
    (logicals_x d) (logicals_z d) (_num_xy d)
    (Register (d ^ 2) (lit "code_qubit"))
    (Register (_num_xy d) (lit "zplaq_qubit"))
    (Register (_num_xy d) (lit "xplaq_qubit"))
    [] []
    (Register (d ^ 2) (lit "code_bit"))
    [] [].

Definition __init__ (d T : Z) (basis : str) (resets : bool) : result SCC.t :=
  let self := attributes d basis resets in
  self <- _preparation self ;;
  self <- for_each (range (T - 1))
            (fun self _ => syndrome_measurement false false self) self ;;
  if negb (T =? 0) then
    self <- syndrome_measurement true false self ;;
    readout self
  else ret self.

(** ** Result decoding *)

(** Lines 271-274: the plaquettes whose syndrome is read.  The local
    variable [basis] was bound to [self.basis] on line 267. *)
Definition inspected (self : SCC.t) : list plaquette :=
  let basis := SCC.basis self in
  if str_eqb basis (lit "z") then SCC.zplaqs self else SCC.xplaqs self.

(** Lines 277-280: the parity of one plaquette in the final readout. *)
Definition plaq_parity (final_readout : str) (plaq : plaquette) : result Z :=
  for_each plaq
    (fun parity q =>
       match q with
       | Some q =>
           c <- getitem final_readout q ;;
           v <- int_of_char c ;;
           ret (parity + v)
       | None => ret parity
       end)
    0.

(** Lines 275-281: each new bit is put in front. *)
Definition final_syndrome (final_readout : str) (plaqs : list plaquette)
  : result str :=
  for_each plaqs
    (fun full_syndrome plaq =>
       parity <- plaq_parity final_readout plaq ;;
       ret (str_of_int (parity mod 2) ++ full_syndrome))
    [].

(** Lines 270-290: the list [syndrome_list]. *)
Definition syndrome_list_of (self : SCC.t) (string : str) : result (list str) :=
  let basis := SCC.basis self in
  field0 <- getitem (split string) 0 ;;
  let final_readout := rev field0 in
  full_syndrome <- final_syndrome final_readout (inspected self) ;;
  let full_syndrome :=
    if str_eqb basis (lit "z")
    then full_syndrome ++ lit " " ++ join (stride2 (skipn 2 (split string)))
    else full_syndrome ++ lit " " ++ join (stride2 (skipn 1 (split string))) in
  ret (split full_syndrome).

(** [syndrome_list[i][j]]. *)
Definition cell (syndrome_list : list str) (i j : Z) : result ascii :=
  row <- getitem syndrome_list i ;;
  getitem row j.

Definition neq_char (a b : ascii) : bool := negb (Ascii.eqb a b).

(** Lines 296-314: the value of [change] for round [t] and stabilizer [j]. *)
Definition change_at (self : SCC.t) (syndrome_list : list str) (t j : Z)
  : result bool :=
  if SCC._resets self then
    if t =? 0 then
      a <- cell syndrome_list (-1) j ;;
      ret (neq_char a "0")
    else
      a <- cell syndrome_list (- t) j ;;
      b <- cell syndrome_list (- t - 1) j ;;
      ret (neq_char a b)
  else
    if t <=? 1 then
      if negb (t =? SCC.T self) then
        a <- cell syndrome_list (- t - 1) j ;;
        ret (neq_char a "0")
      else
        a <- cell syndrome_list (- t - 1) j ;;
        b <- cell syndrome_list (- t) j ;;
        ret (neq_char a b)
    else if t =? SCC.T self then
      last3 <- for_each (range 3)
                 (fun last3 dt =>
                    c <- cell syndrome_list (- t - 1 + dt) j ;;
                    ret (last3 ++ [c]))
                 [] ;;
      ret (count_ones last3 mod 2 =? 1)
    else
      a <- cell syndrome_list (- t - 1) j ;;
      b <- cell syndrome_list (- t + 1) j ;;
      ret (neq_char a b).

(** Lines 293-317: the double loop, then [syndrome_changes[0:-1]]. *)
Definition changes_loop (self : SCC.t) (syndrome_list : list str)
    (height width : Z) : result str :=
  sc <- for_each (range height)
          (fun sc t =>
             sc <- for_each (range width)
                     (fun sc j =>
                        change <- change_at self syndrome_list t j ;;
                        ret (sc ++ bit_of_bool change))
                     sc ;;
             ret (sc ++ lit " "))
          [] ;;
  ret (removelast sc).

(** The guard of line 319, [basis != self.basis], with the local [basis]
    of line 267. *)
Definition trims (self : SCC.t) : bool :=
  let basis := SCC.basis self in
  negb (str_eqb basis (SCC.basis self)).

Definition _string2changes (self : SCC.t) (string : str) : result str :=
  syndrome_list <- syndrome_list_of self string ;;
  let height := Z.of_nat (length syndrome_list) in
  row0 <- getitem syndrome_list 0 ;;
  let width := Z.of_nat (length row0) in
  syndrome_changes <- changes_loop self syndrome_list height width ;;
  let syndrome_changes :=
    if trims self
    then join (removelast (tl (split syndrome_changes)))
    else syndrome_changes in
  ret syndrome_changes.

(** The statements of [_string2changes] that follow line 267, lines
    269-323, as a function of the local variable [basis] that they read:
    the plaquettes of lines 271-274, the fields of lines 284-287 and the
    guard of line 319 compare this variable, the loop of lines 296-314
    reads [self._resets] and [self.T] only.  Line 267 binds the variable
    to [self.basis], which gives [_string2changes] above. *)
Definition inspected_by (basis : str) (self : SCC.t) : list plaquette :=
  if str_eqb basis (lit "z") then SCC.zplaqs self else SCC.xplaqs self.

Definition syndrome_list_by (basis : str) (self : SCC.t) (string : str)
  : result (list str) :=
  field0 <- getitem (split string) 0 ;;
  let final_readout := rev field0 in
  full_syndrome <- final_syndrome final_readout (inspected_by basis self) ;;
  let full_syndrome :=
    if str_eqb basis (lit "z")
    then full_syndrome ++ lit " " ++ join (stride2 (skipn 2 (split string)))
    else full_syndrome ++ lit " " ++ join (stride2 (skipn 1 (split string))) in
  ret (split full_syndrome).

Definition string2changes_by (basis : str) (self : SCC.t) (string : str)
  : result str :=
  syndrome_list <- syndrome_list_by basis self string ;;
  let height := Z.of_nat (length syndrome_list) in
  row0 <- getitem syndrome_list 0 ;;
  let width := Z.of_nat (length row0) in
  syndrome_changes <- changes_loop self syndrome_list height width ;;
  let syndrome_changes :=
    if negb (str_eqb basis (SCC.basis self))
    then join (removelast (tl (split syndrome_changes)))
    else syndrome_changes in
  ret syndrome_changes.

(** [string2raw_logicals]; the two-element list [Z] is a pair. *)
Definition string2raw_logicals (self : SCC.t) (string : str) : result str :=
  field0 <- getitem (split string) 0 ;;
  let final_readout := rev field0 in
  let d := SCC.d self in
  Zs <- for_each (range d)
          (fun (Zs : Z * Z) j =>
             if str_eqb (SCC.basis self) (lit "z") then
               c0 <- getitem final_readout j ;;
               v0 <- int_of_char c0 ;;
               let Z0 := (fst Zs + v0) mod 2 in
               c1 <- getitem final_readout (d ^ 2 - 1 - j) ;;
               v1 <- int_of_char c1 ;;
               ret (Z0, (snd Zs + v1) mod 2)
             else
               c0 <- getitem final_readout (j * d) ;;
               v0 <- int_of_char c0 ;;
               let Z0 := (fst Zs + v0) mod 2 in
               c1 <- getitem final_readout ((j + 1) * d - 1) ;;
               v1 <- int_of_char c1 ;;
               ret (Z0, (snd Zs + v1) mod 2))
          (0, 0) ;;
  ret (str_of_int (fst Zs) ++ lit " " ++ str_of_int (snd Zs)).

(** ** Vocabulary of the statements *)

Definition is_bit (c : ascii) : Prop := c = "0"%char \/ c = "1"%char.

(** A string of [n] binary digits. *)
Definition bits (n : Z) (w : str) : Prop :=
  Z.of_nat (length w) = n /\ Forall is_bit w.

(** The object carries the layout that the constructor computes. *)
Definition layout (self : SCC.t) : Prop :=
  (SCC.zplaqs self, SCC.xplaqs self) = _get_plaquettes (SCC.d self).

(** The first field of the shot is the transversal readout of the
    [d^2] code qubits. *)
Definition readout_ok (self : SCC.t) (string : str) : Prop :=
  exists f rest, split string = f :: rest /\ bits (SCC.d self ^ 2) f.

(** A well-formed shot of a circuit with [T] rounds: the final readout,
    then [2T] ancilla fields of [_num_xy] bits each (the size of the
    per-round classical registers). *)
Definition well_formed (self : SCC.t) (string : str) : Prop :=
  exists f rest,
    split string = f :: rest
    /\ bits (SCC.d self ^ 2) f
    /\ Z.of_nat (length rest) = 2 * SCC.T self
    /\ Forall (bits (_num_xy (SCC.d self))) rest.

(** The ancilla register of the inspected basis has one qubit per
    inspected plaquette; this holds for every
    odd [d]. *)
Definition fits (self : SCC.t) : Prop :=
  Z.of_nat (length (inspected self)) = _num_xy (SCC.d self).

(** The integer value of the readout bit at position [i]. *)
Definition bit_at (final_readout : str) (i : Z) : Z :=
  match getitem final_readout i with
  | inl c => match int_of_char c with inl v => v | inr _ => 0 end
  | inr _ => 0
  end.

(** Mod-2 sum of the readout along a support. *)
Definition parity_on (final_readout : str) (support : list Z) : Z :=
  fold_right Z.add 0 (map (bit_at final_readout) support) mod 2.

(** Round [t] of a detection record and its bit [j]. *)
Definition rounds_of (record : str) : list str := split record.

Definition record_bit (record : str) (t j : Z) : result ascii :=
  cell (rounds_of record) t j.

(** ** Auxiliary selections used to describe the loops *)

(** Seeds of row [y] that go to [xplaqs], resp. [zplaqs]. *)
Definition xsel (d y x : Z) : bool := seeds d x y && ((x + y) mod 2 =? 0).
Definition zsel (d y x : Z) : bool := seeds d x y && negb ((x + y) mod 2 =? 0).

(** The coordinates visited by the double loop, in visiting order. *)
Definition coords (d : Z) : list (Z * Z) :=
  flat_map (fun y => map (fun x => (x, y)) (range2 (-1) d)) (range2 (-1) d).

(** Seeds of the lattice, in visiting order, and the type of a seed. *)
Definition seed_coords (d : Z) : list (Z * Z) :=
  filter (fun c => seeds d (fst c) (snd c)) (coords d).

Definition x_type (c : Z * Z) : bool := (fst c + snd c) mod 2 =? 0.

(** The block of seed [c] stored under the slot permutation [perm]. *)
Definition stored (d : Z) (perm : list nat) (c : Z * Z) : plaquette :=
  map (slot (block d (fst c) (snd c))) perm.

(** One of the two supports of a basis: [_logicals[basis][side]]. *)
Definition support (ls : list (list Z)) (side : nat) : list Z := nth side ls [].

Definition disjoint (a b : list Z) : Prop := forall q, In q a -> ~ In q b.

(** Each support has exactly [d] distinct qubit indices. *)
Definition supports_sized (d : Z) : Prop :=
  forall ls, ls = logicals_x d \/ ls = logicals_z d ->
  forall side, (side < 2)%nat ->
    Z.of_nat (length (support ls side)) = d /\ NoDup (support ls side).

(** The two supports of each basis share no qubit. *)
Definition supports_disjoint (d : Z) : Prop :=
  disjoint (support (logicals_x d) 0) (support (logicals_x d) 1)
  /\ disjoint (support (logicals_z d) 0) (support (logicals_z d) 1).

(** A word without the separator. *)
Definition nospace (w : str) : Prop := Forall (fun c => c <> space) w.

(** The character ["0"] or ["1"] of a bit value, and of a boolean. *)
Definition digit (v : Z) : ascii := if v =? 0 then "0"%char else "1"%char.
Definition flag (b : bool) : ascii := if b then "1"%char else "0"%char.

(** The value of [change] where [change_at] returns ([False] stands in
    where it raises). *)
Definition change_val (self : SCC.t) (syndrome_list : list str) (t j : Z)
  : bool :=
  match change_at self syndrome_list t j with
  | inl b => b
  | inr _ => false
  end.

(** The detection record as a list of rounds: round [t] holds the flag
    of [change] for each stabilizer [j]. *)
Definition change_rows (self : SCC.t) (syndrome_list : list str)
    (height width : Z) : list str :=
  map (fun t => map (fun j => flag (change_val self syndrome_list t j))
                 (range width))
      (range height).

(** The plaquettes of the basis opposite to the preparation basis. *)
Definition opposite (self : SCC.t) : list plaquette :=
  if str_eqb (SCC.basis self) (lit "z") then SCC.xplaqs self else SCC.zplaqs self.

(** The attributes of an object of distance [d] on which [T] rounds have
    been emitted, as far as the decoding methods read them (they never
    look at the circuits). *)
Definition configured (d T : Z) (basis : str) (resets : bool) : SCC.t :=
  SCC.set_T T (attributes d basis resets).

(** The attributes of [self] with [basis] in the place of [self.basis]. *)
Definition with_basis (basis : str) (self : SCC.t) : SCC.t :=
  SCC.Make (SCC.d self) (SCC.T self) basis (SCC._resets self)
    (SCC.zplaqs self) (SCC.xplaqs self)
    (SCC._logicals_x self) (SCC._logicals_z self) (SCC._num_xy self)
    (SCC.code_qubit self) (SCC.zplaq_qubit self) (SCC.xplaq_qubit self)
    (SCC.xplaq_bits self) (SCC.zplaq_bits self) (SCC.code_bit self)
    (SCC.circuit0 self) (SCC.circuit1 self).

(** Every round of a record has [n] characters. *)
Definition rounds_have_length (n : nat) (record : str) : Prop :=
  Forall (fun round => length round = n) (rounds_of record).

(** Concrete objects and shots used to exercise the statements. *)
Definition self_z3 : SCC.t := configured 3 3 (lit "z") false.
Definition shot_z3 : str := lit "000000001 0000 0100 0000 0010 0000 1001".

Definition self_r1 : SCC.t := configured 3 1 (lit "z") true.
Definition shot_r1 : str := lit "000000001 0000 0000".


Definition self_x2 : SCC.t := configured 2 1 (lit "x") true.
Definition shot_x2 : str := lit "0000 0 0".

(** A computation that, if it raises, raises the [IndexError] of a
    subscript or the [CircuitError] of a gate on an empty register. *)
Definition emission_error_only {A} (m : result A) : Prop :=
  match m with
  | inl _ => True
  | inr e => e = IndexError \/ e = CircuitError
  end.

(** A computation that returns in [P] or raises [IndexError]. *)
Definition index_or {A} (P : A -> Prop) (m : result A) : Prop :=
  match m with
  | inl a => P a
  | inr e => e = IndexError
  end.

(** The registers that take a gate as a whole hold a qubit. *)
Definition populated (s : SCC.t) : Prop :=
  0 < reg_size (SCC.code_qubit s) /\ 0 < reg_size (SCC.xplaq_qubit s).

(** What the emission methods leave untouched. *)
Definition same_attributes (a b : SCC.t) : Prop :=
  SCC.d b = SCC.d a /\ SCC.basis b = SCC.basis a
  /\ SCC._resets b = SCC._resets a
  /\ SCC.zplaqs b = SCC.zplaqs a /\ SCC.xplaqs b = SCC.xplaqs a
  /\ SCC.code_qubit b = SCC.code_qubit a /\ SCC.T b = SCC.T a.

(** A property of the state a computation returns, if it returns. *)
Definition post {A} (Q : A -> Prop) (m : result A) : Prop :=
  match m with
  | inl a => Q a
  | inr _ => True
  end.

(** The attributes that only [syndrome_measurement] changes, by counting
    the rounds. *)
Definition same_layout (a b : SCC.t) : Prop :=
  SCC.d b = SCC.d a /\ SCC.basis b = SCC.basis a
  /\ SCC._resets b = SCC._resets a
  /\ SCC.zplaqs b = SCC.zplaqs a /\ SCC.xplaqs b = SCC.xplaqs a.

(** The state of an object of distance [d] while circuits are emitted:
    the layout and registers of the constructor, and [k] more per-round
    classical registers than rounds counted ([k = 1] inside
    [syndrome_measurement], [k = 0] between calls). *)
Definition emitting (d k : Z) (s : SCC.t) : Prop :=
  SCC.d s = d
  /\ (SCC.zplaqs s, SCC.xplaqs s) = _get_plaquettes d
  /\ SCC._num_xy s = _num_xy d
  /\ reg_size (SCC.code_qubit s) = d ^ 2
  /\ reg_size (SCC.zplaq_qubit s) = _num_xy d
  /\ reg_size (SCC.xplaq_qubit s) = _num_xy d
  /\ Forall (fun r => reg_size r = _num_xy d) (SCC.xplaq_bits s)
  /\ Forall (fun r => reg_size r = _num_xy d) (SCC.zplaq_bits s)
  /\ Z.of_nat (length (SCC.xplaq_bits s)) = SCC.T s + k
  /\ Z.of_nat (length (SCC.zplaq_bits s)) = SCC.T s + k
  /\ 0 <= SCC.T s.

(** ** Stabilizer supports and graph nodes *)

(** [[q for q in plaq if q != None]]. *)
Definition present (plaq : plaquette) : list Z :=
  flat_map (fun q => match q with Some q => [q] | None => [] end) plaq.

(** Lines 72-79.  These attributes are computed once from [xplaqs],
    [zplaqs] and [_logicals] and never assigned again, so they are read
    off the object. *)
Definition css_x_gauge_ops (self : SCC.t) : list (list Z) :=
  map present (SCC.xplaqs self).
Definition css_x_stabilizer_ops (self : SCC.t) : list (list Z) :=
  css_x_gauge_ops self.
Definition css_z_gauge_ops (self : SCC.t) : list (list Z) :=
  map present (SCC.zplaqs self).
Definition css_z_stabilizer_ops (self : SCC.t) : list (list Z) :=
  css_z_gauge_ops self.

(** [self._logicals[key]]: the dictionary has the keys ["x"] and ["z"]. *)
Definition _logicals (self : SCC.t) (key : str) : result (list (list Z)) :=
  if str_eqb key (lit "x") then ret (SCC._logicals_x self)
  else if str_eqb key (lit "z") then ret (SCC._logicals_z self)
  else raise KeyError.

Definition css_x_logical (self : SCC.t) : result (list Z) :=
  ls <- _logicals self (lit "x") ;; getitem ls 0.
Definition css_x_boundary (self : SCC.t) : result (list Z) :=
  ls <- _logicals self (lit "x") ;;
  a <- getitem ls 0 ;; b <- getitem ls 1 ;; ret (a ++ b).
Definition css_z_logical (self : SCC.t) : result (list Z) :=
  ls <- _logicals self (lit "z") ;; getitem ls 0.
Definition css_z_boundary (self : SCC.t) : result (list Z) :=
  ls <- _logicals self (lit "z") ;;
  a <- getitem ls 0 ;; b <- getitem ls 1 ;; ret (a ++ b).

(** [get_circuit_list]. *)
Definition get_circuit_list (self : SCC.t) : list (list instr) :=
  [SCC.circuit0 self; SCC.circuit1 self].

(** [_process_string]. *)
Definition _process_string (self : SCC.t) (string : str) : result str :=
  measured_Z <- string2raw_logicals self string ;;
  syndrome_changes <- _string2changes self string ;;
  ret (measured_Z ++ lit "  " ++ syndrome_changes).

(** [s.split("  ")]: cut at each double space, scanning from the left. *)
Fixpoint split2 (s : str) : list str :=
  match s with
  | [] => [[]]
  | c :: s' =>
      match s' with
      | c' :: s'' =>
          if Ascii.eqb c space && Ascii.eqb c' space then [] :: split2 s''
          else match split2 s' with
               | w :: ws => (c :: w) :: ws
               | [] => [[c]]
               end
      | [] => [[c]]
      end
  end.

(** [_separate_string]. *)
Definition _separate_string (string : str) : list (list str) :=
  map split (split2 string).

(** A node of the decoding graph: the dictionary with the keys
    ["time"], ["qubits"], ["is_boundary"] and ["element"]. *)
Record node : Type := Node {
  time : Z;
  qubits : list Z;
  is_boundary : bool;
  element : Z
}.

(** [enumerate(l)]. *)
Definition enumerate {A} (l : list A) : list (Z * A) :=
  combine (range (Z.of_nat (length l))) l.

(** Lines 393-401: the boundary nodes. *)
Definition boundary_nodes (self : SCC.t) (boundary : list str)
    (logical : str) (all_logicals : bool) (nodes : list node)
  : result (list node) :=
  for_each (enumerate (rev boundary))
    (fun nodes ib =>
       let bqec_index := fst ib in
       let belement := snd ib in
       if all_logicals || negb (str_eqb belement logical) then
         ls <- _logicals self (SCC.basis self) ;;
         qs <- getitem ls (- bqec_index - 1) ;;
         ret (nodes ++ [Node 0 qs true bqec_index])
       else ret nodes)
    nodes.

(** Lines 407-417: the nodes of one round. *)
Definition round_nodes (self : SCC.t) (syn_round : Z) (elements : str)
    (nodes : list node) : result (list node) :=
  for_each (enumerate (rev elements))
    (fun nodes ie =>
       let qec_index := fst ie in
       let element := snd ie in
       if Ascii.eqb element "1" then
         qs <- (if str_eqb (SCC.basis self) (lit "x")
                then getitem (css_x_stabilizer_ops self) qec_index
                else getitem (css_z_stabilizer_ops self) qec_index) ;;
         ret (nodes ++ [Node syn_round qs false qec_index])
       else ret nodes)
    nodes.

(** Lines 403-417: the bulk nodes. *)
Definition bulk_nodes (self : SCC.t) (separated_string : list (list str))
    (nodes : list node) : result (list node) :=
  for_each (range2 1 (Z.of_nat (length separated_string)))
    (fun nodes syn_type =>
       group <- getitem separated_string syn_type ;;
       for_each (range (Z.of_nat (length group)))
         (fun nodes syn_round =>
            group <- getitem separated_string syn_type ;;
            elements <- getitem group syn_round ;;
            round_nodes self syn_round elements nodes)
         nodes)
    nodes.

Definition string2nodes (self : SCC.t) (string : str) (logical : str)
    (all_logicals : bool) : result (list node) :=
  string <- _process_string self string ;;
  let separated_string := _separate_string string in
  boundary <- getitem separated_string 0 ;;
  nodes <- boundary_nodes self boundary logical all_logicals [] ;;
  bulk_nodes self separated_string nodes.

(** What matters of an object of distance [d] for the Z-ancilla
    subscripts of [syndrome_measurement]. *)
Definition z_ancillas (d : Z) (s : SCC.t) : Prop :=
  SCC.zplaqs s = fst (_get_plaquettes d)
  /\ reg_size (SCC.zplaq_qubit s) = _num_xy d.

(** Such an object whose registers are not empty. *)
Definition z_short (d : Z) (s : SCC.t) : Prop :=
  z_ancillas d s /\ populated s.

(** No two spaces in a row. *)
Fixpoint nds (s : str) : bool :=
  match s with
  | [] => true
  | c :: s' =>
      match s' with
      | [] => true
      | c' :: _ => negb (Ascii.eqb c space && Ascii.eqb c' space) && nds s'
      end
  end.

(** The logical supports that the constructor stores. *)
Definition logicals_stored (self : SCC.t) : Prop :=
  SCC._logicals_x self = logicals_x (SCC.d self)
  /\ SCC._logicals_z self = logicals_z (SCC.d self).

(** The raw logical values of a shot, read on its first field [f]:
    [(v0, v1)] along the first and the second support of the basis. *)
Definition raw_values (self : SCC.t) (f : str) : Z * Z :=
  if str_eqb (SCC.basis self) (lit "z")
  then (parity_on (rev f) (support (logicals_z (SCC.d self)) 0),
        parity_on (rev f) (support (logicals_z (SCC.d self)) 1))
  else (parity_on (rev f) (support (logicals_x (SCC.d self)) 0),
        parity_on (rev f) (support (logicals_x (SCC.d self)) 1)).

(** The supports of the preparation basis, when it is ["x"] or ["z"]. *)
Definition basis_supports (self : SCC.t) : list (list Z) :=
  if str_eqb (SCC.basis self) (lit "z")
  then logicals_z (SCC.d self) else logicals_x (SCC.d self).

(** The boundary nodes of a shot with first field [f]: element 0 stands
    for the second support and the second raw bit, element 1 for the
    first ones. *)
Definition boundary_of (self : SCC.t) (f : str) (logical : str)
    (all_logicals : bool) : list node :=
  let v := raw_values self f in
  (if all_logicals || negb (str_eqb [digit (snd v)] logical)
   then [Node 0 (support (basis_supports self) 1) true 0] else [])
  ++ (if all_logicals || negb (str_eqb [digit (fst v)] logical)
      then [Node 0 (support (basis_supports self) 0) true 1] else []).

(** The bulk nodes of a syndrome list: one for every round [t] and
    plaquette [e] whose change flag, at position [width-1-e] of the
    round, is set. *)
Definition bulk_of (self : SCC.t) (sl : list str) : list node :=
  let w := Z.of_nat (length (inspected self)) in
  flat_map
    (fun t =>
       flat_map
         (fun e =>
            if change_val self sl t (w - 1 - e)
            then [Node t (present (nth (Z.to_nat e) (inspected self) [])) false e]
            else [])
         (range w))
    (range (SCC.T self + 1)).

(** An object prepared in a basis other than ["x"] and ["z"]. *)
Definition self_y1 : SCC.t := configured 3 1 (lit "y") true.

(** A word of zeros only, and the shot of [self_r1] without any flip. *)
Definition zeros (w : str) : Prop := Forall (fun c => c = "0"%char) w.

Definition shot_zero : str := lit "000000000 0000 0000".

(** Two runs of an emission step, one on circuit ["0"] and one on
    circuit ["1"], from objects with the attributes of [a]: both have
    appended the same gates [g]. *)
Definition twin (a : SCC.t) (c0 c1 c0' c1' : list instr) (u u' : SCC.t)
  : Prop :=
  exists g, u = SCC.set_circuits (c0 ++ g) c1 a
            /\ u' = SCC.set_circuits c0' (c1' ++ g) a.

(** Two computations end alike: both return, in related states, or both
    raise the same exception. *)
Definition sim {X} (R : X -> X -> Prop) (m m' : result X) : Prop :=
  match m, m' with
  | inl t, inl t' => R t t'
  | inr e, inr e' => e = e'
  | _, _ => False
  end.

(** Both circuits of [t] are those of [s] with the same gates appended. *)
Definition grown (s t : SCC.t) : Prop :=
  exists g, SCC.circuit0 t = SCC.circuit0 s ++ g
            /\ SCC.circuit1 t = SCC.circuit1 s ++ g.

(** A gate sequence without a reset, and an object built without resets
    whose circuits have none. *)
Definition is_reset (i : instr) : bool :=
  match i with Reset _ => true | _ => false end.

Definition no_reset (c : list instr) : Prop :=
  Forall (fun i => is_reset i = false) c.

Definition quiet (s : SCC.t) : Prop :=
  SCC._resets s = false
  /\ no_reset (SCC.circuit0 s) /\ no_reset (SCC.circuit1 s).

(** The number of measurements of a gate sequence. *)
Definition is_measure (i : instr) : bool :=
  match i with Measure _ _ => true | _ => false end.

Definition measures (c : list instr) : Z :=
  Z.of_nat (length (filter is_measure c)).

(** The object without its circuits. *)
Definition erase (s : SCC.t) : SCC.t := SCC.set_circuits [] [] s.

(** [k] for the circuit that [log] names, and nothing for the other. *)
Definition on0 (log : logical) (k : Z) : Z :=
  match log with Log0 => k | Log1 => 0 end.
Definition on1 (log : logical) (k : Z) : Z :=
  match log with Log0 => 0 | Log1 => k end.

(** From [s] to [t] only the circuits changed, by [k0] and [k1]
    measurements. *)
Definition adds (k0 k1 : Z) (s t : SCC.t) : Prop :=
  erase t = erase s
  /\ measures (SCC.circuit0 t) = measures (SCC.circuit0 s) + k0
  /\ measures (SCC.circuit1 t) = measures (SCC.circuit1 s) + k1.

(** Registers of [D] code qubits and bits and [N] ancillas of each
    type, and [n] measurements in either circuit. *)
Definition counted (N D n : Z) (s : SCC.t) : Prop :=
  SCC._num_xy s = N
  /\ reg_size (SCC.code_qubit s) = D /\ reg_size (SCC.code_bit s) = D
  /\ measures (SCC.circuit0 s) = n /\ measures (SCC.circuit1 s) = n.

(** The qubits of [a] that are also in [b]. *)
Definition shared (a b : list Z) : list Z :=
  filter (fun q => existsb (Z.eqb q) b) a.

(** One for a true guard, and the qubit of a slot, if any. *)
Definition cnt (b : bool) : nat := if b then 1%nat else 0%nat.

Definition cell_of (c : option Z) : list Z :=
  match c with Some q => [q] | None => [] end.

(** Two supports share no qubit or exactly two. *)
Definition evenly (a b : list Z) : Prop :=
  length (shared a b) = 0%nat \/ length (shared a b) = 2%nat.

(** The cell of column [X] and row [Y] lies on the first or second
    X-logical support (left or right column), resp. Z-logical support
    (top or bottom row). *)
Definition on_x_support (d : Z) (side : nat) (X Y : Z) : bool :=
  match side with O => X =? 0 | _ => X =? d - 1 end.

Definition on_z_support (d : Z) (side : nat) (X Y : Z) : bool :=
  match side with O => Y =? 0 | _ => Y =? d - 1 end.

(** The code qubits that the entangling step [j] touches on the
    plaquettes [plaqs]: their slots [j] that are not [None]. *)
Definition touched (j : nat) (plaqs : list plaquette) : list Z :=
  flat_map (fun plaq => cell_of (slot plaq j)) plaqs.

(** The corner of its block that a Z-plaquette, resp. an X-plaquette,
    keeps in slot [j]. *)
Definition zoff (j : nat) : Z * Z :=
  match j with
  | 0%nat => (0, 0) | 1%nat => (0, 1) | 2%nat => (1, 0) | _ => (1, 1)
  end.

Definition xoff (j : nat) : Z * Z :=
  match j with
  | 0%nat => (0, 0) | 1%nat => (1, 0) | 2%nat => (0, 1) | _ => (1, 1)
  end.

(** * Properties *)

(** ** Ranges *)

Section Ranges.

Lemma range2_length lo hi : length (range2 lo hi) = Z.to_nat (hi - lo).
  Proof. unfold range2. now rewrite length_map, length_seq. Qed.

Lemma In_range2 v lo hi : In v (range2 lo hi) <-> lo <= v < hi.
  Proof.
    unfold range2. rewrite in_map_iff. split.
    - intros (i & <- & Hi). apply in_seq in Hi. lia.
    - intros Hv. exists (Z.to_nat (v - lo)). split; [lia|].
      apply in_seq. lia.
  Qed.

Lemma range2_nil lo hi : hi <= lo -> range2 lo hi = [].
  Proof.
    intros H. unfold range2.
    replace (Z.to_nat (hi - lo)) with 0%nat by lia. reflexivity.
  Qed.

Lemma range2_cons lo hi : lo < hi -> range2 lo hi = lo :: range2 (lo + 1) hi.
  Proof.
    intros H. unfold range2.
    replace (Z.to_nat (hi - lo)) with (S (Z.to_nat (hi - (lo + 1)))) by lia.
    cbn [seq map]. f_equal; [lia|].
    rewrite <- seq_shift, map_map. apply map_ext. intros; lia.
  Qed.

Lemma range2_app lo mid hi :
    lo <= mid <= hi -> range2 lo hi = range2 lo mid ++ range2 mid hi.
  Proof.
    intros H. remember (Z.to_nat (mid - lo)) as n eqn:Hn.
    revert lo H Hn. induction n as [|n IH]; intros lo H Hn.
    - assert (mid = lo) by lia. subst mid. now rewrite (range2_nil lo lo) by lia.
    - rewrite (range2_cons lo hi), (range2_cons lo mid) by lia.
      cbn [app]. f_equal. apply IH; lia.
  Qed.

Lemma range2_single lo : range2 lo (lo + 1) = [lo].
  Proof. rewrite range2_cons by lia. now rewrite range2_nil by lia. Qed.

Lemma range2_snoc lo hi :
    lo < hi -> range2 lo hi = range2 lo (hi - 1) ++ [hi - 1].
  Proof.
    intros H. rewrite (range2_app lo (hi - 1) hi) by lia. f_equal.
    replace hi with (hi - 1 + 1) at 2 by lia. apply range2_single.
  Qed.

Lemma range2_NoDup lo hi : NoDup (range2 lo hi).
  Proof.
    unfold range2. apply Injective_map_NoDup; [|apply seq_NoDup].
    intros a b. lia.
  Qed.

End Ranges.

(** ** The double loop of [_get_plaquettes] *)

Section PlaquetteLoop.

Variable d : Z.

Lemma plaq_row_fold y l zs xs :
    fold_left (plaq_body d y) l (zs, xs)
    = (zs ++ map (zstore d y) (filter (zsel d y) l),
       xs ++ map (xstore d y) (filter (xsel d y) l)).
  Proof.
    revert zs xs. induction l as [|x l IH]; intros zs xs; cbn [fold_left filter map].
    - now rewrite !app_nil_r.
    - unfold plaq_body at 2, zsel, xsel.
      destruct (seeds d x y); cbn [andb].
      + destruct ((x + y) mod 2 =? 0); cbn [negb map];
          rewrite IH; cbn [map]; now rewrite <- ?app_assoc.
      + apply IH.
  Qed.

Lemma plaq_rows_fold xr ys zs xs :
    fold_left (fun acc y => fold_left (plaq_body d y) xr acc) ys (zs, xs)
    = (zs ++ flat_map (fun y => map (zstore d y) (filter (zsel d y) xr)) ys,
       xs ++ flat_map (fun y => map (xstore d y) (filter (xsel d y) xr)) ys).
  Proof.
    revert zs xs. induction ys as [|y ys IH]; intros zs xs; cbn [fold_left flat_map].
    - now rewrite !app_nil_r.
    - rewrite plaq_row_fold, IH. now rewrite <- !app_assoc.
  Qed.

Lemma get_plaquettes_rows :
    _get_plaquettes d
    = (flat_map (fun y => map (zstore d y) (filter (zsel d y) (range2 (-1) d)))
         (range2 (-1) d),
       flat_map (fun y => map (xstore d y) (filter (xsel d y) (range2 (-1) d)))
         (range2 (-1) d)).
  Proof. unfold _get_plaquettes. now rewrite plaq_rows_fold. Qed.

Lemma block_corners x y :
    block d x y
    = [corner d x y 0 0; corner d x y 1 0; corner d x y 0 1; corner d x y 1 1].
  Proof. reflexivity. Qed.

End PlaquetteLoop.

(** ** Counting *)

Section Counting.

Context {A : Type}.

Lemma filter_negb_length (p : A -> bool) l :
    (length (filter p l) + length (filter (fun a => negb (p a)) l) = length l)%nat.
  Proof.
    induction l as [|a l IH]; cbn [filter]; [reflexivity|].
    destruct (p a); cbn [negb length]; lia.
  Qed.

Lemma filter_all (p : A -> bool) l :
    (forall a, In a l -> p a = true) -> filter p l = l.
  Proof.
    induction l as [|a l IH]; intros H; cbn [filter]; [reflexivity|].
    rewrite (H a (or_introl eq_refl)). f_equal. apply IH.
    intros b Hb. apply H. now right.
  Qed.

Lemma filter_none (p : A -> bool) l :
    (forall a, In a l -> p a = false) -> filter p l = [].
  Proof.
    induction l as [|a l IH]; intros H; cbn [filter]; [reflexivity|].
    rewrite (H a (or_introl eq_refl)). apply IH.
    intros b Hb. apply H. now right.
  Qed.

Lemma flat_map_const_length {B} (f : A -> list B) l c :
    (forall a, In a l -> length (f a) = c) ->
    length (flat_map f l) = (length l * c)%nat.
  Proof.
    induction l as [|a l IH]; intros H; cbn [flat_map length]; [reflexivity|].
    rewrite length_app, (H a (or_introl eq_refl)), IH; [lia|].
    intros b Hb. apply H. now right.
  Qed.

End Counting.

Lemma mod2_cases v : v mod 2 = 0 \/ v mod 2 = 1.
Proof. pose proof (Z.mod_pos_bound v 2). lia. Qed.

(** Among [2k] consecutive integers exactly [k] have a given parity. *)
Lemma parity_count k lo c :
  length (filter (fun v => (v + c) mod 2 =? 0) (range2 lo (lo + 2 * Z.of_nat k)))
  = k.
Proof.
  revert lo. induction k as [|k IH]; intros lo.
  - now rewrite range2_nil by lia.
  - rewrite range2_cons by lia. rewrite (range2_cons (lo + 1)) by lia.
    replace (lo + 2 * Z.of_nat (S k)) with (lo + 1 + 1 + 2 * Z.of_nat k) by lia.
    cbn [filter].
    assert (Hp : ((lo + c) mod 2 =? 0) = negb ((lo + 1 + c) mod 2 =? 0)).
    { destruct (Z.eqb_spec ((lo + c) mod 2) 0), (Z.eqb_spec ((lo + 1 + c) mod 2) 0);
        cbn [negb]; try reflexivity; exfalso;
        Z.to_euclidean_division_equations; lia. }
    rewrite Hp. destruct ((lo + 1 + c) mod 2 =? 0); cbn [negb length];
      now rewrite IH.
Qed.

(** Tactic: settle a boolean combination of integer comparisons that
    comes from [seeds], [xsel] or [zsel], by reflecting it into linear
    arithmetic. *)
Ltac reflect_bools :=
  rewrite ?andb_true_iff, ?orb_true_iff, ?negb_true_iff,
    ?Z.eqb_eq, ?Z.eqb_neq, ?Z.leb_le, ?Z.ltb_lt.

Ltac seed_cases :=
  unfold xsel, zsel, seeds, bulk, ztab, xtab, in_range;
  match goal with
  | |- _ = true => idtac
  | |- _ = false => apply not_true_iff_false
  | |- _ = _ => apply eq_iff_eq_true
  end;
  repeat reflect_bools;
  Z.to_euclidean_division_equations; lia.

Section RowCounts.

Variable d : Z.
Hypothesis Hd : 1 <= d.

Lemma columns_split :
    range2 (-1) d = (-1) :: range2 0 (d - 1) ++ [d - 1].
  Proof.
    rewrite range2_cons by lia. f_equal.
    replace (-1 + 1) with 0 by lia.
    apply range2_snoc. lia.
  Qed.

  (** Every seed of a row, whatever its type. *)
Lemma row_split y :
    (length (filter (zsel d y) (range2 (-1) d))
     + length (filter (xsel d y) (range2 (-1) d))
     = length (filter (fun x => seeds d x y) (range2 (-1) d)))%nat.
  Proof.
    induction (range2 (-1) d) as [|x l IH]; cbn [filter]; [reflexivity|].
    unfold zsel at 1, xsel at 1.
    destruct (seeds d x y); cbn [andb]; [|exact IH].
    destruct ((x + y) mod 2 =? 0); cbn [negb length]; lia.
  Qed.

Lemma middle_row_total y :
    0 <= y < d - 1 ->
    length (filter (fun x => seeds d x y) (range2 (-1) d)) = Z.to_nat d.
  Proof.
    intros Hy. rewrite columns_split. cbn [filter].
    rewrite filter_app. cbn [filter].
    rewrite (filter_all (fun x => seeds d x y) (range2 0 (d - 1))).
    2:{ intros x Hx. apply In_range2 in Hx. seed_cases. }
    assert (H1 : seeds d (-1) y = (y mod 2 =? 0)) by seed_cases.
    assert (H2 : seeds d (d - 1) y = negb (y mod 2 =? 0)) by seed_cases.
    rewrite H1, H2.
    destruct (y mod 2 =? 0); cbn [negb length app];
      rewrite ?length_app, range2_length; cbn [length]; lia.
  Qed.

Lemma outer_rows_total :
    (length (filter (fun x => seeds d x (-1)) (range2 (-1) d))
     + length (filter (fun x => seeds d x (d - 1)) (range2 (-1) d))
     = Z.to_nat (d - 1))%nat.
  Proof.
    rewrite columns_split. cbn [filter]. rewrite !filter_app. cbn [filter].
    assert (H1 : seeds d (-1) (-1) = false) by seed_cases.
    assert (H2 : seeds d (d - 1) (-1) = false) by seed_cases.
    assert (H3 : seeds d (-1) (d - 1) = false) by seed_cases.
    assert (H4 : seeds d (d - 1) (d - 1) = false) by seed_cases.
    rewrite H1, H2, H3, H4, !app_nil_r.
    rewrite (filter_ext_in (fun x => seeds d x (-1))
               (fun x => negb (x mod 2 =? 0)) (range2 0 (d - 1))).
    2:{ intros x Hx. apply In_range2 in Hx. seed_cases. }
    rewrite (filter_ext_in (fun x => seeds d x (d - 1))
               (fun x => x mod 2 =? 0) (range2 0 (d - 1))).
    2:{ intros x Hx. apply In_range2 in Hx. seed_cases. }
    rewrite Nat.add_comm, filter_negb_length, range2_length. f_equal. lia.
  Qed.

Lemma rows_split :
    range2 (-1) d = (-1) :: range2 0 (d - 1) ++ [d - 1].
  Proof. exact columns_split. Qed.

  (** Total number of plaquettes. *)
Lemma plaquette_total :
    Z.of_nat (length (fst (_get_plaquettes d)))
    + Z.of_nat (length (snd (_get_plaquettes d))) = d ^ 2 - 1.
  Proof.
    rewrite get_plaquettes_rows. cbn [fst snd].
    rewrite <- Nat2Z.inj_add.
    assert (Hsum : forall ys,
      (length (flat_map (fun y => map (zstore d y)
                 (filter (zsel d y) (range2 (-1) d))) ys)
       + length (flat_map (fun y => map (xstore d y)
                 (filter (xsel d y) (range2 (-1) d))) ys)
       = length (flat_map (fun y =>
                 filter (fun x => seeds d x y) (range2 (-1) d)) ys))%nat).
    { induction ys as [|y ys IH]; cbn [flat_map]; [reflexivity|].
      rewrite !length_app, !length_map, <- (row_split y). lia. }
    rewrite Hsum.
    set (row := fun y => filter (fun x => seeds d x y) (range2 (-1) d)).
    rewrite rows_split. cbn [flat_map]. subst row. cbn beta.
    rewrite flat_map_app. cbn [flat_map]. rewrite app_nil_r.
    rewrite !length_app.
    rewrite (flat_map_const_length _ (range2 0 (d - 1)) (Z.to_nat d)).
    2:{ intros y Hy. apply In_range2 in Hy. now apply middle_row_total. }
    rewrite range2_length.
    pose proof outer_rows_total as Ho. nia.
  Qed.

End RowCounts.

Section OddDistance.

Variable d : Z.
Hypothesis Hd : 1 <= d.
Hypothesis Hodd : Z.odd d = true.

Let half : nat := Z.to_nat ((d - 1) / 2).

Lemma odd_mod2 : d mod 2 = 1.
  Proof. rewrite Zmod_odd, Hodd. reflexivity. Qed.

Lemma odd_half : d - 1 = 2 * Z.of_nat half.
  Proof.
    pose proof odd_mod2. unfold half.
    Z.to_euclidean_division_equations. lia.
  Qed.

Lemma num_xy_odd : _num_xy d = Z.of_nat (Z.to_nat (d + 1) * half).
  Proof.
    unfold _num_xy. pose proof odd_half as Hh.
    rewrite Nat2Z.inj_mul, Z2Nat.id by lia.
    replace (d ^ 2 - 1) with ((d + 1) * Z.of_nat half * 2) by nia.
    apply Z.quot_mul. lia.
  Qed.

Lemma x_row_count y :
    -1 <= y <= d - 1 ->
    length (filter (xsel d y) (range2 (-1) d)) = half.
  Proof.
    intros Hy. pose proof odd_mod2 as Hm.
    rewrite columns_split by assumption. cbn [filter]. rewrite filter_app.
    cbn [filter].
    assert (H1 : xsel d y (-1) = false) by seed_cases.
    assert (H2 : xsel d y (d - 1) = false) by seed_cases.
    rewrite H1, H2, app_nil_r.
    rewrite (filter_ext_in (xsel d y) (fun x => (x + y) mod 2 =? 0)
               (range2 0 (d - 1))).
    2:{ intros x Hx. apply In_range2 in Hx. seed_cases. }
    replace (d - 1) with (0 + 2 * Z.of_nat half) by (rewrite odd_half; lia).
    apply parity_count.
  Qed.

Lemma xplaqs_count_odd :
    Z.of_nat (length (snd (_get_plaquettes d))) = _num_xy d.
  Proof.
    rewrite get_plaquettes_rows. cbn [snd].
    rewrite (flat_map_const_length _ (range2 (-1) d) half).
    2:{ intros y Hy. apply In_range2 in Hy. rewrite length_map.
        apply x_row_count. lia. }
    rewrite range2_length, num_xy_odd.
    replace (d - -1) with (d + 1) by lia. reflexivity.
  Qed.

Lemma zplaqs_count_odd :
    Z.of_nat (length (fst (_get_plaquettes d))) = _num_xy d.
  Proof.
    pose proof (plaquette_total d Hd) as Ht.
    pose proof xplaqs_count_odd as Hx.
    rewrite Hx in Ht. rewrite num_xy_odd in *.
    pose proof odd_half as Hh.
    rewrite Nat2Z.inj_mul, Z2Nat.id in * by lia. nia.
  Qed.

End OddDistance.

(** ** Claims about the lattice *)

Lemma num_xy_div d : 1 <= d -> _num_xy d = (d ^ 2 - 1) / 2.
Proof. intros H. unfold _num_xy. apply Z.quot_div_nonneg; nia. Qed.

(** C2: for every [d >= 1] the X-plaquettes and the Z-plaquettes returned
    by [_get_plaquettes] number [d^2 - 1] together. *)
Theorem plaquettes_number_d2_minus_1 (d : Z) :
  1 <= d ->
  Z.of_nat (length (snd (_get_plaquettes d)))
  + Z.of_nat (length (fst (_get_plaquettes d))) = d ^ 2 - 1.
Proof. intros Hd. rewrite Z.add_comm. now apply plaquette_total. Qed.

Lemma plaquettes_number_d2_minus_1_witness :
  1 <= 5
  /\ Z.of_nat (length (snd (_get_plaquettes 5)))
     + Z.of_nat (length (fst (_get_plaquettes 5))) = 5 ^ 2 - 1.
Proof. split; [lia | apply (plaquettes_number_d2_minus_1 5); lia]. Defined.

(** C10: for every odd [d >= 1], [_get_plaquettes] returns exactly
    [(d^2-1)/2] Z-plaquettes and [(d^2-1)/2] X-plaquettes; this is the
    size [_num_xy] of the ancilla registers, so every plaquette position
    [p] that [syndrome_measurement] uses as a subscript is inside them. *)
Theorem plaquette_counts_odd (d : Z) (basis : str) (resets : bool) :
  1 <= d -> Z.odd d = true ->
  let self := attributes d basis resets in
  Z.of_nat (length (SCC.zplaqs self)) = (d ^ 2 - 1) / 2
  /\ Z.of_nat (length (SCC.xplaqs self)) = (d ^ 2 - 1) / 2
  /\ SCC._num_xy self = (d ^ 2 - 1) / 2
  /\ (forall p, In p (range (Z.of_nat (length (SCC.zplaqs self)))) ->
        reg_getitem (SCC.zplaq_qubit self) p = ret (Bit (SCC.zplaq_qubit self) p))
  /\ (forall p, In p (range (Z.of_nat (length (SCC.xplaqs self)))) ->
        reg_getitem (SCC.xplaq_qubit self) p = ret (Bit (SCC.xplaq_qubit self) p)).
Proof.
  intros Hd Hodd. cbn zeta. cbn [attributes SCC.zplaqs SCC.xplaqs SCC._num_xy
    SCC.zplaq_qubit SCC.xplaq_qubit].
  pose proof (zplaqs_count_odd d Hd Hodd) as Hz.
  pose proof (xplaqs_count_odd d Hd Hodd) as Hx.
  pose proof (num_xy_div d Hd) as Hn.
  repeat split; try congruence.
  - intros p Hp. apply In_range2 in Hp. unfold reg_getitem. cbn [reg_size].
    destruct (Z.ltb_spec p 0); [lia|].
    destruct (Z.leb_spec 0 p); [|lia].
    destruct (Z.ltb_spec p (_num_xy d)); [reflexivity|lia].
  - intros p Hp. apply In_range2 in Hp. unfold reg_getitem. cbn [reg_size].
    destruct (Z.ltb_spec p 0); [lia|].
    destruct (Z.leb_spec 0 p); [|lia].
    destruct (Z.ltb_spec p (_num_xy d)); [reflexivity|lia].
Qed.

Lemma plaquette_counts_odd_witness :
  1 <= 3 /\ Z.odd 3 = true
  /\ Z.of_nat (length (SCC.zplaqs (attributes 3 (lit "z") true))) = (3 ^ 2 - 1) / 2.
Proof.
  split; [lia|]. split; [reflexivity|].
  apply (plaquette_counts_odd 3 (lit "z") true); [lia | reflexivity].
Defined.

(** *** Classification of the seeds *)

Lemma row_selection d y (p : Z * Z -> bool) (st : Z * Z -> plaquette) xr :
  map st (filter p
            (filter (fun c => seeds d (fst c) (snd c))
               (map (fun x => (x, y)) xr)))
  = map (fun x => st (x, y))
      (filter (fun x => seeds d x y && p (x, y)) xr).
Proof.
  induction xr as [|x xr IH]; cbn [map filter fst snd]; [reflexivity|].
  destruct (seeds d x y); cbn [andb filter]; [|exact IH].
  destruct (p (x, y)); cbn [map]; now rewrite IH.
Qed.

(** C7: for every [d >= 1], the X-plaquettes are exactly the seeds with
    [(x+y) mod 2 = 0], the Z-plaquettes exactly the other seeds, both in
    visiting order; an X-plaquette stores the row-major 2x2 block of its
    seed under the slot permutation [0,1,2,3], a Z-plaquette under
    [0,2,1,3]. *)
Theorem plaquette_classification (d : Z) :
  1 <= d ->
  snd (_get_plaquettes d)
  = map (stored d [0; 1; 2; 3]%nat) (filter x_type (seed_coords d))
  /\ fst (_get_plaquettes d)
     = map (stored d [0; 2; 1; 3]%nat)
         (filter (fun c => negb (x_type c)) (seed_coords d))
  /\ (forall x y,
        block d x y
        = [corner d x y 0 0; corner d x y 1 0;
           corner d x y 0 1; corner d x y 1 1])
  /\ (forall x y, In (x, y) (seed_coords d) ->
        if (x + y) mod 2 =? 0
        then In (stored d [0; 1; 2; 3]%nat (x, y)) (snd (_get_plaquettes d))
        else In (stored d [0; 2; 1; 3]%nat (x, y)) (fst (_get_plaquettes d))).
Proof.
  intros _.
  assert (Hx : snd (_get_plaquettes d)
               = map (stored d [0; 1; 2; 3]%nat) (filter x_type (seed_coords d))).
  { rewrite get_plaquettes_rows. cbn [snd]. unfold seed_coords, coords.
    induction (range2 (-1) d) as [|y ys IH] at 2 4; cbn [flat_map]; [reflexivity|].
    rewrite !filter_app, map_app, <- IH. f_equal.
    rewrite row_selection. reflexivity. }
  assert (Hz : fst (_get_plaquettes d)
               = map (stored d [0; 2; 1; 3]%nat)
                   (filter (fun c => negb (x_type c)) (seed_coords d))).
  { rewrite get_plaquettes_rows. cbn [fst]. unfold seed_coords, coords.
    induction (range2 (-1) d) as [|y ys IH] at 2 4; cbn [flat_map]; [reflexivity|].
    rewrite !filter_app, map_app, <- IH. f_equal.
    rewrite row_selection. reflexivity. }
  split; [exact Hx|]. split; [exact Hz|]. split; [intros; reflexivity|].
  intros x y Hin.
  destruct ((x + y) mod 2 =? 0) eqn:Hp.
  - rewrite Hx. apply in_map. apply filter_In. split; [exact Hin|exact Hp].
  - rewrite Hz. apply in_map. apply filter_In. split; [exact Hin|].
    unfold x_type. cbn [fst snd]. now rewrite Hp.
Qed.

Lemma plaquette_classification_witness :
  1 <= 3
  /\ snd (_get_plaquettes 3)
     = map (stored 3 [0; 1; 2; 3]%nat) (filter x_type (seed_coords 3)).
Proof. split; [lia | apply (plaquette_classification 3); lia]. Defined.

(** *** Logical supports *)

Lemma range_length d : 0 <= d -> Z.of_nat (length (range d)) = d.
Proof. intros H. unfold range. rewrite range2_length. lia. Qed.

Lemma map_range_NoDup (f : Z -> Z) d :
  (forall a b, f a = f b -> a = b) -> NoDup (map f (range d)).
Proof.
  intros Hf. apply Injective_map_NoDup; [exact Hf | apply range2_NoDup].
Qed.

Lemma supports_sized_all d : 1 <= d -> supports_sized d.
Proof.
  intros Hd ls Hls side Hside.
  assert (Hs : side = 0%nat \/ side = 1%nat) by lia.
  destruct Hls as [-> | ->], Hs as [-> | ->];
    unfold logicals_x, logicals_z, support; cbn [nth];
    (split; [rewrite length_map; apply range_length; lia|]);
    apply map_range_NoDup; intros a b Hab; nia.
Qed.

Lemma supports_disjoint_from_2 d : 2 <= d -> supports_disjoint d.
Proof.
  intros Hd. unfold supports_disjoint, disjoint, logicals_x, logicals_z, support.
  cbn [nth]. split; intros q H1 H2;
    apply in_map_iff in H1; destruct H1 as (j & Hj & Hjr);
    apply in_map_iff in H2; destruct H2 as (k & Hk & Hkr);
    apply In_range2 in Hjr; apply In_range2 in Hkr; subst q.
  - assert (H : (k + 1 - j) * d = 1) by lia.
    assert (k + 1 - j <= 0 \/ 1 <= k + 1 - j) as [Hc | Hc] by lia; nia.
  - nia.
Qed.

(** C6, the claim as written: all four supports have [d] qubits and the
    two supports of each basis are disjoint.  It fails at [d = 1], where
    the left and right columns (and the top and bottom rows) are the
    single qubit 0. *)
Lemma supports_overlap_at_distance_1 :
  1 <= 1 /\ ~ (supports_sized 1 /\ supports_disjoint 1).
Proof.
  split; [lia|]. intros [_ [Hx _]].
  apply (Hx 0); cbn; left; reflexivity.
Qed.

(** C6, amended: for every [d >= 1] each of the four supports holds
    exactly [d] distinct qubit indices; for every [d >= 2] the two
    supports of each basis are disjoint. *)
Theorem logical_supports (d : Z) :
  1 <= d -> supports_sized d /\ (2 <= d -> supports_disjoint d).
Proof.
  intros Hd. split; [now apply supports_sized_all|].
  apply supports_disjoint_from_2.
Qed.

Lemma logical_supports_witness :
  1 <= 3 /\ supports_sized 3 /\ (2 <= 3 -> supports_disjoint 3).
Proof. split; [lia | apply (logical_supports 3); lia]. Defined.

(** ** Subscripts, [split] and [join] *)

Section Subscripts.

Context {A : Type}.

Lemma getitem_nonneg (l : list A) i :
  0 <= i < Z.of_nat (length l) ->
  exists a, getitem l i = ret a /\ nth_error l (Z.to_nat i) = Some a.
Proof.
  intros Hi. unfold getitem.
  destruct (Z.ltb_spec i 0); [lia|].
  destruct (Z.leb_spec 0 i); [|lia].
  destruct (Z.ltb_spec i (Z.of_nat (length l))); [|lia]. cbn [andb].
  destruct (nth_error l (Z.to_nat i)) as [a|] eqn:Hn; [now exists a|].
  apply nth_error_None in Hn. lia.
Qed.

Lemma getitem_neg (l : list A) i :
  - Z.of_nat (length l) <= i < 0 ->
  exists a, getitem l i = ret a
            /\ nth_error l (Z.to_nat (Z.of_nat (length l) + i)) = Some a.
Proof.
  intros Hi. unfold getitem.
  destruct (Z.ltb_spec i 0); [|lia].
  destruct (Z.leb_spec 0 (Z.of_nat (length l) + i)); [|lia].
  destruct (Z.ltb_spec (Z.of_nat (length l) + i) (Z.of_nat (length l))); [|lia].
  cbn [andb].
  destruct (nth_error l (Z.to_nat (Z.of_nat (length l) + i))) as [a|] eqn:Hn;
    [now exists a|].
  apply nth_error_None in Hn. lia.
Qed.

Lemma getitem_In (l : list A) i a : getitem l i = ret a -> In a l.
Proof.
  unfold getitem. destruct (_ && _); [|discriminate].
  destruct (nth_error l _) eqn:Hn; [|discriminate].
  intros [= <-]. eapply nth_error_In; eauto.
Qed.

Lemma getitem_any (l : list A) i :
  - Z.of_nat (length l) <= i < Z.of_nat (length l) ->
  exists a, getitem l i = ret a /\ In a l.
Proof.
  intros Hi. destruct (Z.lt_ge_cases i 0).
  - destruct (getitem_neg l i) as (a & Ha & _); [lia|].
    exists a. split; [exact Ha | eapply getitem_In; eauto].
  - destruct (getitem_nonneg l i) as (a & Ha & _); [lia|].
    exists a. split; [exact Ha | eapply getitem_In; eauto].
Qed.

Lemma stride2_length (l : list A) :
  length (stride2 l) = Nat.div2 (S (length l)).
Proof.
  induction l as [l IH] using (well_founded_induction
    (Wf_nat.well_founded_ltof _ (@length A))).
  destruct l as [|a [|b l]]; cbn [stride2 length Nat.div2]; try reflexivity.
  f_equal. apply IH. unfold Wf_nat.ltof. cbn [length]. lia.
Qed.

Lemma stride2_In (l : list A) a : In a (stride2 l) -> In a l.
Proof.
  induction l as [l IH] using (well_founded_induction
    (Wf_nat.well_founded_ltof _ (@length A))).
  destruct l as [|b [|c l]]; cbn [stride2]; try tauto.
  intros [-> | H]; [now left|]. right. right. apply IH; [|exact H].
  unfold Wf_nat.ltof. cbn [length]. lia.
Qed.

End Subscripts.

Section Words.

Lemma split_nonempty s : split s <> [].
Proof.
  destruct s as [|c s]; cbn [split]; [discriminate|].
  destruct (Ascii.eqb c space); [discriminate|].
  destruct (split s); discriminate.
Qed.

Lemma split_word w s :
  nospace w -> split (w ++ space :: s) = w :: split s.
Proof.
  intros Hw. induction Hw as [|c w Hc _ IH]; cbn [app split].
  - now rewrite Ascii.eqb_refl.
  - destruct (Ascii.eqb_spec c space); [contradiction|]. now rewrite IH.
Qed.

Lemma split_single w : nospace w -> split w = [w].
Proof.
  intros Hw. induction Hw as [|c w Hc _ IH]; cbn [split]; [reflexivity|].
  destruct (Ascii.eqb_spec c space); [contradiction|]. now rewrite IH.
Qed.

Lemma split_join l : l <> [] -> Forall nospace l -> split (join l) = l.
Proof.
  intros Hl Hall. induction Hall as [|w l Hw Hall IH]; [contradiction|].
  destruct l as [|w' l]; cbn [join].
  - now apply split_single.
  - rewrite split_word by assumption. f_equal. apply IH. discriminate.
Qed.

Lemma split_fields s : Forall nospace (split s).
Proof.
  induction s as [|c s IH]; cbn [split].
  - repeat constructor.
  - destruct (Ascii.eqb_spec c space).
    + constructor; [constructor | exact IH].
    + destruct (split s) as [|w ws]; [repeat constructor; assumption|].
      inversion IH; subst. constructor; [constructor|]; assumption.
Qed.

Lemma bit_nospace c : is_bit c -> c <> space.
Proof. intros [-> | ->]; discriminate. Qed.

Lemma bits_nospace n w : bits n w -> nospace w.
Proof.
  intros [_ H]. unfold nospace. eapply Forall_impl; [|exact H].
  intros c. apply bit_nospace.
Qed.

(** Rows, each followed by a space, with the last space dropped. *)
Lemma removelast_rows (rows : list str) :
  removelast (concat (map (fun r => r ++ [space]) rows)) = join rows.
Proof.
  induction rows as [|r rows IH]; [reflexivity|].
  cbn [map concat]. destruct rows as [|r' rows].
  - cbn [map concat join]. rewrite app_nil_r. apply removelast_last.
  - change (map (fun r => r ++ [space]) (r :: r' :: rows))
      with ((r ++ [space]) :: map (fun r => r ++ [space]) (r' :: rows)).
    cbn [concat]. rewrite removelast_app.
    2:{ cbn [map concat]. destruct r'; discriminate. }
    rewrite IH. change (join (r :: r' :: rows)) with (r ++ space :: join (r' :: rows)).
    now rewrite <- app_assoc.
Qed.

Lemma str_eqb_refl b : str_eqb b b = true.
Proof. unfold str_eqb. destruct (list_eq_dec ascii_dec b b); congruence. Qed.

End Words.

(** ** Loops in the exception monad *)

Section Loops.

Context {A S : Type}.

Lemma for_each_ext_in (l : list A) (f g : S -> A -> result S) s :
  (forall s a, In a l -> f s a = g s a) -> for_each l f s = for_each l g s.
Proof.
  revert s. induction l as [|a l IH]; intros s H; cbn [for_each]; [reflexivity|].
  rewrite (H s a (or_introl eq_refl)). destruct (g s a) as [s'|e]; cbn [bind];
    [|reflexivity].
  apply IH. intros s0 b Hb. apply H. now right.
Qed.

Lemma for_each_pure (l : list A) (f : S -> A -> S) s :
  for_each l (fun s a => ret (f s a)) s = ret (fold_left f l s).
Proof.
  revert s. induction l as [|a l IH]; intros s; cbn [for_each fold_left bind ret];
    [reflexivity | apply IH].
Qed.

Lemma for_each_app (l1 l2 : list A) (f : S -> A -> result S) s :
  for_each (l1 ++ l2) f s = bind (for_each l1 f s) (for_each l2 f).
Proof.
  revert s. induction l1 as [|a l1 IH]; intros s; cbn [app for_each bind ret];
    [reflexivity|].
  destruct (f s a) as [s'|e]; cbn [bind]; [apply IH | reflexivity].
Qed.

End Loops.

Lemma fold_left_append {A} (l : list A) (k : A -> str) (sc : str) :
  fold_left (fun sc a => sc ++ k a) l sc = sc ++ concat (map k l).
Proof.
  revert sc. induction l as [|a l IH]; intros sc; cbn [fold_left map concat].
  - now rewrite app_nil_r.
  - rewrite IH. now rewrite <- app_assoc.
Qed.

(** A loop that appends [h x] for the value [x] of a computation that
    succeeds on every element. *)
Lemma for_each_emit {A B} (l : list A) (f : A -> result B) (g : A -> B)
    (h : B -> str) (sc : str) :
  (forall a, In a l -> f a = ret (g a)) ->
  for_each l (fun sc a => x <- f a ;; ret (sc ++ h x)) sc
  = ret (sc ++ concat (map (fun a => h (g a)) l)).
Proof.
  intros H.
  rewrite (for_each_ext_in l _ (fun sc a => ret (sc ++ h (g a)))).
  - rewrite for_each_pure. now rewrite fold_left_append.
  - intros s a Ha. now rewrite (H a Ha).
Qed.

(** ** Plaquettes stay inside the lattice *)

Lemma corner_range d x y dx dy q :
  corner d x y dx dy = Some q -> 0 <= q < d ^ 2.
Proof.
  unfold corner, in_range.
  destruct (Z.leb_spec 0 (x + dx)), (Z.ltb_spec (x + dx) d),
    (Z.leb_spec 0 (y + dy)), (Z.ltb_spec (y + dy) d);
    cbn [andb]; try discriminate.
  intros [= <-]. nia.
Qed.

Lemma block_range d x y q : In (Some q) (block d x y) -> 0 <= q < d ^ 2.
Proof.
  rewrite block_corners. cbn [In].
  intros [H | [H | [H | [H | []]]]]; eapply corner_range; eauto.
Qed.

Lemma slot_block d x y i q : slot (block d x y) i = Some q -> 0 <= q < d ^ 2.
Proof.
  intros H. apply (block_range d x y). rewrite <- H.
  unfold slot. rewrite block_corners.
  destruct i as [|[|[|[|i]]]]; cbn [nth In]; try tauto.
  rewrite block_corners in H. unfold slot in H. cbn [nth] in H.
  destruct i; discriminate.
Qed.

Lemma plaquette_range d plaq q :
  In plaq (fst (_get_plaquettes d)) \/ In plaq (snd (_get_plaquettes d)) ->
  In (Some q) plaq -> 0 <= q < d ^ 2.
Proof.
  rewrite get_plaquettes_rows. cbn [fst snd].
  intros [H | H] Hq; apply in_flat_map in H; destruct H as (y & _ & H);
    apply in_map_iff in H; destruct H as (x & <- & _);
    unfold zstore, xstore in Hq; cbn [In] in Hq;
    destruct Hq as [H | [H | [H | [H | []]]]]; eapply slot_block; eauto.
Qed.

Lemma plaquette_length d plaq :
  In plaq (fst (_get_plaquettes d)) \/ In plaq (snd (_get_plaquettes d)) ->
  length plaq = 4%nat.
Proof.
  rewrite get_plaquettes_rows. cbn [fst snd].
  intros [H | H]; apply in_flat_map in H; destruct H as (y & _ & H);
    apply in_map_iff in H; destruct H as (x & <- & _); reflexivity.
Qed.

(** ** The virtual final round *)

Lemma bits_rev n w : bits n w -> bits n (rev w).
Proof.
  intros [Hl Hb]. split; [now rewrite length_rev|].
  apply Forall_forall. intros c Hc. apply in_rev in Hc.
  eapply Forall_forall; eauto.
Qed.

Lemma int_of_bit c : is_bit c -> int_of_char c = ret 0 \/ int_of_char c = ret 1.
Proof. intros [-> | ->]; [left | right]; reflexivity. Qed.

Lemma readout_bit n w q :
  bits n w -> 0 <= q < n ->
  exists c v, getitem w q = ret c /\ int_of_char c = ret v /\ (v = 0 \/ v = 1).
Proof.
  intros [Hl Hb] Hq.
  destruct (getitem_nonneg w q) as (c & Hc & _); [lia|].
  assert (Hin : In c w) by (eapply getitem_In; eauto).
  assert (Hbit : is_bit c) by (eapply Forall_forall; eauto).
  destruct (int_of_bit c Hbit) as [H | H]; exists c; eauto.
Qed.

Lemma plaq_parity_total n w plaq :
  bits n w -> (forall q, In (Some q) plaq -> 0 <= q < n) ->
  exists v, plaq_parity w plaq = ret v.
Proof.
  intros Hw Hq. unfold plaq_parity. generalize 0 as acc.
  induction plaq as [|[q|] plaq IH]; intros acc; cbn [for_each].
  - now exists acc.
  - destruct (readout_bit n w q Hw) as (c & v & Hc & Hv & _).
    { apply Hq. now left. }
    rewrite Hc. cbn [bind ret]. rewrite Hv. cbn [bind ret].
    apply IH. intros q' Hq'. apply Hq. now right.
  - cbn [bind ret]. apply IH. intros q' Hq'. apply Hq. now right.
Qed.

Lemma str_of_parity v : is_bit (digit (v mod 2)) /\ str_of_int (v mod 2) = [digit (v mod 2)].
Proof.
  destruct (mod2_cases v) as [-> | ->]; split; try reflexivity;
    [left | right]; reflexivity.
Qed.

Lemma final_syndrome_total n w plaqs :
  bits n w ->
  (forall plaq q, In plaq plaqs -> In (Some q) plaq -> 0 <= q < n) ->
  exists fs, final_syndrome w plaqs = ret fs
             /\ bits (Z.of_nat (length plaqs)) fs.
Proof.
  intros Hw. unfold final_syndrome.
  assert (G : forall acc k, bits k acc ->
    (forall plaq q, In plaq plaqs -> In (Some q) plaq -> 0 <= q < n) ->
    exists fs,
      for_each plaqs
        (fun full_syndrome plaq =>
           parity <- plaq_parity w plaq ;;
           ret (str_of_int (parity mod 2) ++ full_syndrome)) acc = ret fs
      /\ bits (k + Z.of_nat (length plaqs)) fs).
  { induction plaqs as [|plaq plaqs IH]; intros acc k Hacc Hq; cbn [for_each].
    - exists acc. split; [reflexivity|]. cbn [length]. now rewrite Z.add_0_r.
    - destruct (plaq_parity_total n w plaq Hw) as (v & Hv).
      { intros q. apply Hq. now left. }
      rewrite Hv. cbn [bind ret].
      destruct (str_of_parity v) as [Hb Hs]. rewrite Hs.
      destruct (IH ([digit (v mod 2)] ++ acc) (k + 1)) as (fs & Hfs & Hbits).
      + destruct Hacc as [Hl Hall]. split; [cbn [app length]; lia|].
        cbn [app]. now constructor.
      + intros p q Hp. apply Hq. now right.
      + exists fs. split; [exact Hfs|].
        replace (k + Z.of_nat (length (plaq :: plaqs)))
          with (k + 1 + Z.of_nat (length plaqs)) by (cbn [length]; lia).
        exact Hbits. }
  intros Hq. destruct (G [] 0) as (fs & Hfs & Hb); [split; [reflexivity|constructor] | exact Hq |].
  exists fs. split; [exact Hfs | exact Hb].
Qed.

(** ** The syndrome list of a well-formed shot *)

Lemma getitem_head {A} (a : A) l : getitem (a :: l) 0 = ret a.
Proof.
  unfold getitem. cbn [length]. change (0 <? 0) with false. cbv iota.
  destruct (Z.ltb_spec 0 (Z.of_nat (S (length l)))); [reflexivity | lia].
Qed.

Lemma inspected_layout self plaq :
  layout self -> In plaq (inspected self) ->
  In plaq (fst (_get_plaquettes (SCC.d self)))
  \/ In plaq (snd (_get_plaquettes (SCC.d self))).
Proof.
  unfold layout, inspected. intros <-. cbn [fst snd].
  destruct (str_eqb _ _); tauto.
Qed.

Lemma div2_odd n : Nat.div2 (S (2 * n)) = n.
Proof. rewrite Nat.div2_div. symmetry. apply (Nat.div_unique _ 2 n 1); lia. Qed.

Lemma div2_even n : Nat.div2 (2 * n) = n.
Proof. rewrite Nat.div2_div. symmetry. apply (Nat.div_unique _ 2 n 0); lia. Qed.

(** The fields picked by [[2::2]] and by [[1::2]]: one per round. *)
Lemma selected_fields (f : str) (rest : list str) k n (P : str -> Prop) :
  length rest = (2 * n)%nat -> Forall P rest -> (k = 1 \/ k = 2)%nat ->
  length (stride2 (skipn k (f :: rest))) = n
  /\ Forall P (stride2 (skipn k (f :: rest))).
Proof.
  intros Hl HP Hk. split.
  - rewrite stride2_length. destruct Hk as [-> | ->]; cbn [skipn].
    + rewrite Hl. apply div2_odd.
    + destruct rest as [|r rest]; cbn [skipn length] in *.
      * assert (n = 0%nat) by lia. now subst.
      * destruct n as [|n]; [lia|].
        replace (length rest) with (S (2 * n)) by lia.
        replace (S (S (2 * n))) with (2 * S n)%nat by lia. apply div2_even.
  - apply Forall_forall. intros w Hw. apply stride2_In in Hw.
    assert (Hin : In w rest).
    { destruct Hk as [-> | ->]; cbn [skipn] in Hw; [exact Hw|].
      destruct rest; [destruct Hw|]. cbn [skipn] in Hw. now right. }
    eapply Forall_forall; eauto.
Qed.

Lemma syndrome_list_shape self s :
  layout self -> fits self -> 1 <= SCC.T self -> well_formed self s ->
  exists fs sel,
    syndrome_list_of self s = ret (fs :: sel)
    /\ (exists f rest, split s = f :: rest
                       /\ final_syndrome (rev f) (inspected self) = ret fs)
    /\ bits (Z.of_nat (length (inspected self))) fs
    /\ Z.of_nat (length sel) = SCC.T self
    /\ Forall (bits (Z.of_nat (length (inspected self)))) sel.
Proof.
  intros Hlay Hfit HT (f & rest & Hsplit & Hf & Hlen & Hrest).
  unfold syndrome_list_of. rewrite Hsplit, getitem_head. cbn [bind ret].
  destruct (final_syndrome_total (SCC.d self ^ 2) (rev f) (inspected self))
    as (fs & Hfs & Hbits).
  { now apply bits_rev. }
  { intros plaq q Hp Hq. eapply plaquette_range; [|exact Hq].
    now apply inspected_layout. }
  rewrite Hfs. cbn [bind ret].
  set (k := if str_eqb (SCC.basis self) (lit "z") then 2%nat else 1%nat).
  assert (Hk : (k = 1 \/ k = 2)%nat) by (subst k; destruct (str_eqb _ _); auto).
  destruct (selected_fields f rest k (Z.to_nat (SCC.T self))
              (bits (_num_xy (SCC.d self)))) as [Hn Hall]; [lia | exact Hrest | exact Hk |].
  exists fs, (stride2 (skipn k (f :: rest))).
  assert (Hgoal : split (fs ++ lit " " ++ join (stride2 (skipn k (f :: rest))))
                  = fs :: stride2 (skipn k (f :: rest))).
  { change (lit " " ++ ?x) with (space :: x).
    rewrite split_word by (eapply bits_nospace; eauto).
    f_equal. apply split_join.
    - intros He. rewrite He in Hn. cbn [length] in Hn. lia.
    - eapply Forall_impl; [|exact Hall]. intros w. apply bits_nospace. }
  split.
  { subst k. destruct (str_eqb (SCC.basis self) (lit "z")); now rewrite Hgoal. }
  split; [now exists f, rest|].
  split; [exact Hbits|]. split; [lia|].
  unfold fits in Hfit. now rewrite Hfit.
Qed.

Lemma cell_total (sl : list str) w i j :
  Forall (bits w) sl ->
  - Z.of_nat (length sl) <= i < Z.of_nat (length sl) -> 0 <= j < w ->
  exists c, cell sl i j = ret c /\ is_bit c.
Proof.
  intros Hall Hi Hj. unfold cell.
  destruct (getitem_any sl i Hi) as (row & Hrow & Hin).
  rewrite Hrow. cbn [bind ret].
  assert (Hb : bits w row) by (eapply Forall_forall; eauto).
  destruct Hb as [Hl Hbits].
  destruct (getitem_nonneg row j) as (c & Hc & _); [lia|].
  exists c. split; [exact Hc|].
  eapply Forall_forall; [exact Hbits|]. eapply getitem_In; eauto.
Qed.

Lemma change_at_total self (sl : list str) w t j :
  Forall (bits w) sl ->
  Z.of_nat (length sl) = SCC.T self + 1 -> 1 <= SCC.T self ->
  0 <= t <= SCC.T self -> 0 <= j < w ->
  change_at self sl t j = ret (change_val self sl t j).
Proof.
  intros Hall Hlen HT Ht Hj.
  assert (Hok : exists b, change_at self sl t j = ret b).
  { unfold change_at.
    assert (Hc : forall i, - Z.of_nat (length sl) <= i < Z.of_nat (length sl) ->
                 exists c, cell sl i j = ret c).
    { intros i Hi. destruct (cell_total sl w i j Hall Hi Hj) as (c & H & _); eauto. }
    destruct (SCC._resets self).
    - destruct (Z.eqb_spec t 0).
      + destruct (Hc (-1)) as (a & ->); [lia|]. cbn [bind ret]. eauto.
      + destruct (Hc (- t)) as (a & ->); [lia|].
        destruct (Hc (- t - 1)) as (b & ->); [lia|]. cbn [bind ret]. eauto.
    - destruct (Z.leb_spec t 1).
      + destruct (Z.eqb_spec t (SCC.T self)); cbn [negb].
        * destruct (Hc (- t - 1)) as (a & ->); [lia|].
          destruct (Hc (- t)) as (b & ->); [lia|]. cbn [bind ret]. eauto.
        * destruct (Hc (- t - 1)) as (a & ->); [lia|]. cbn [bind ret]. eauto.
      + destruct (Z.eqb_spec t (SCC.T self)).
        * change (range 3) with [0; 1; 2]. cbn [for_each].
          destruct (Hc (- t - 1 + 0)) as (a & ->); [lia|]. cbn [bind ret].
          destruct (Hc (- t - 1 + 1)) as (b & ->); [lia|]. cbn [bind ret].
          destruct (Hc (- t - 1 + 2)) as (c & ->); [lia|]. cbn [bind ret]. eauto.
        * destruct (Hc (- t - 1)) as (a & ->); [lia|].
          destruct (Hc (- t + 1)) as (b & ->); [lia|]. cbn [bind ret]. eauto. }
  destruct Hok as (b & Hb). unfold change_val. now rewrite Hb.
Qed.

(** ** The detection record *)

Lemma bit_of_bool_flag b : bit_of_bool b = [flag b].
Proof. now destruct b. Qed.

Lemma concat_singletons {A B} (f : A -> B) l :
  concat (map (fun a => [f a]) l) = map f l.
Proof. induction l as [|a l IH]; cbn [map concat app]; now rewrite ?IH. Qed.

Lemma flag_bit b : is_bit (flag b).
Proof. destruct b; [right | left]; reflexivity. Qed.

Lemma range_nth n i :
  0 <= i < n -> nth_error (range n) (Z.to_nat i) = Some i.
Proof.
  intros Hi. unfold range, range2.
  rewrite nth_error_map, nth_error_seq.
  destruct (Nat.ltb_spec (Z.to_nat i) (Z.to_nat (n - 0))); [|lia].
  cbn [option_map]. f_equal. lia.
Qed.

Lemma changes_loop_rows self (sl : list str) height width :
  (forall t j, In t (range height) -> In j (range width) ->
     change_at self sl t j = ret (change_val self sl t j)) ->
  changes_loop self sl height width
  = ret (join (change_rows self sl height width)).
Proof.
  intros Hc. unfold changes_loop.
  rewrite (for_each_ext_in (range height) _
    (fun sc t => ret (sc ++ (map (fun j => flag (change_val self sl t j))
                              (range width) ++ [space])))).
  2:{ intros sc t Ht.
      rewrite (for_each_emit (range width) (change_at self sl t)
                 (change_val self sl t) bit_of_bool sc).
      2:{ intros j Hj. now apply Hc. }
      cbn [bind ret]. f_equal. rewrite <- app_assoc. f_equal. f_equal.
      rewrite (map_ext _ (fun a => [flag (change_val self sl t a)]))
        by (intros j; apply bit_of_bool_flag).
      apply concat_singletons. }
  rewrite for_each_pure. cbn [bind ret]. f_equal.
  rewrite fold_left_append. cbn [app].
  unfold change_rows. rewrite <- removelast_rows. f_equal. f_equal.
  rewrite map_map. reflexivity.
Qed.

Lemma change_rows_shape self sl height width :
  0 <= height -> 0 <= width ->
  Z.of_nat (length (change_rows self sl height width)) = height
  /\ Forall (bits width) (change_rows self sl height width).
Proof.
  intros Hh Hw. unfold change_rows. split.
  - rewrite length_map. now apply range_length.
  - apply Forall_forall. intros row Hrow. apply in_map_iff in Hrow.
    destruct Hrow as (t & <- & _). split.
    + rewrite length_map. now apply range_length.
    + apply Forall_forall. intros c Hc. apply in_map_iff in Hc.
      destruct Hc as (j & <- & _). apply flag_bit.
Qed.

Lemma change_rows_cell self sl height width t j :
  0 <= t < height -> 0 <= j < width ->
  cell (change_rows self sl height width) t j
  = ret (flag (change_val self sl t j)).
Proof.
  intros Ht Hj. unfold cell.
  destruct (getitem_nonneg (change_rows self sl height width) t)
    as (row & Hrow & Hnth).
  { unfold change_rows. rewrite length_map. rewrite range_length; lia. }
  rewrite Hrow. cbn [bind ret].
  unfold change_rows in Hnth.
  rewrite nth_error_map, (range_nth height t Ht) in Hnth. cbn [option_map] in Hnth.
  injection Hnth as <-.
  set (row := map (fun j => flag (change_val self sl t j)) (range width)).
  destruct (getitem_nonneg row j) as (c & Hc & Hn).
  { subst row. rewrite length_map. rewrite range_length; lia. }
  rewrite Hc. subst row. rewrite nth_error_map, (range_nth width j Hj) in Hn.
  cbn [option_map] in Hn. now injection Hn as <-.
Qed.

(** What [_string2changes] returns on a well-formed shot. *)
Lemma string2changes_rows self s :
  layout self -> fits self -> 1 <= SCC.T self -> well_formed self s ->
  let width := Z.of_nat (length (inspected self)) in
  exists sl,
    syndrome_list_of self s = ret sl
    /\ Z.of_nat (length sl) = SCC.T self + 1
    /\ Forall (bits width) sl
    /\ _string2changes self s
       = ret (join (change_rows self sl (SCC.T self + 1) width))
    /\ rounds_of (join (change_rows self sl (SCC.T self + 1) width))
       = change_rows self sl (SCC.T self + 1) width
    /\ (forall t j, 0 <= t <= SCC.T self -> 0 <= j < width ->
          change_at self sl t j = ret (change_val self sl t j)).
Proof.
  intros Hlay Hfit HT Hwf width.
  destruct (syndrome_list_shape self s Hlay Hfit HT Hwf)
    as (fs & sel & Hsl & _ & Hfs & Hlen & Hsel).
  fold width in Hfs, Hsel.
  assert (Hall : Forall (bits width) (fs :: sel)) by now constructor.
  assert (Hh : Z.of_nat (length (fs :: sel)) = SCC.T self + 1)
    by (cbn [length]; lia).
  assert (Hc : forall t j, 0 <= t <= SCC.T self -> 0 <= j < width ->
            change_at self (fs :: sel) t j = ret (change_val self (fs :: sel) t j)).
  { intros t j Ht Hj. eapply change_at_total; eauto. }
  destruct (change_rows_shape self (fs :: sel) (SCC.T self + 1) width)
    as [Hrl Hrb]; [lia | subst width; lia |].
  exists (fs :: sel). repeat split; try assumption.
  - unfold _string2changes. rewrite Hsl. cbn [bind ret].
    rewrite getitem_head. cbn [bind ret]. rewrite Hh.
    destruct Hfs as [Hfl _]. rewrite Hfl.
    rewrite changes_loop_rows.
    2:{ intros t j Ht Hj. apply In_range2 in Ht, Hj. apply Hc; lia. }
    cbn [bind ret]. unfold trims. cbn zeta. now rewrite str_eqb_refl.
  - unfold rounds_of. apply split_join.
    + intros He. rewrite He in Hrl. cbn [length] in Hrl. lia.
    + eapply Forall_impl; [|exact Hrb]. intros w. apply bits_nospace.
Qed.

(** ** Claims about [_string2changes] *)

Lemma flag_neq a b : flag (neq_char a b) = "1"%char <-> a <> b.
Proof.
  unfold neq_char. destruct (Ascii.eqb_spec a b); cbn [negb flag];
    split; intros H; try reflexivity; try discriminate; congruence.
Qed.

Lemma ret_inj {A} (a b : A) : ret a = ret b -> a = b.
Proof. now intros [= ->]. Qed.

Ltac by_computation := vm_compute; reflexivity.

Ltac bits_concrete :=
  split; [by_computation |
          repeat (constructor; [(left; reflexivity) || (right; reflexivity) |]);
          try constructor].

(** A concrete shot is well-formed: [f] and [rest] are its fields. *)
Ltac shot_concrete f rest :=
  exists (lit f), (map lit rest);
  split; [by_computation|];
  split; [bits_concrete|]; split; [by_computation|];
  cbn [map]; repeat (constructor; [bits_concrete|]); try constructor.

(** C1: on a well-formed shot (final readout, then [2T] ancilla fields,
    [T >= 1]) [_string2changes] returns a record whose bit for round [t]
    and stabilizer [j] is: with resets, at [t = 0], 1 iff
    [syndrome_list[-1][j] != "0"], and at [t > 0], 1 iff
    [syndrome_list[-t][j] != syndrome_list[-t-1][j]]; without resets, for
    [1 < t < T], 1 iff [syndrome_list[-t-1][j] != syndrome_list[-t+1][j]]. *)
Theorem detection_bit_regimes (self : SCC.t) (s : str) :
  layout self -> fits self -> 1 <= SCC.T self -> well_formed self s ->
  exists sl record,
    syndrome_list_of self s = ret sl
    /\ _string2changes self s = ret record
    /\ forall t j,
         0 <= t <= SCC.T self ->
         0 <= j < Z.of_nat (length (inspected self)) ->
         exists b,
           record_bit record t j = ret b /\ is_bit b
           /\ (SCC._resets self = true -> t = 0 ->
                 exists a, cell sl (-1) j = ret a
                           /\ (b = "1"%char <-> a <> "0"%char))
           /\ (SCC._resets self = true -> 0 < t ->
                 exists a a', cell sl (- t) j = ret a
                              /\ cell sl (- t - 1) j = ret a'
                              /\ (b = "1"%char <-> a <> a'))
           /\ (SCC._resets self = false -> 1 < t < SCC.T self ->
                 exists a a', cell sl (- t - 1) j = ret a
                              /\ cell sl (- t + 1) j = ret a'
                              /\ (b = "1"%char <-> a <> a')).
Proof.
  intros Hlay Hfit HT Hwf.
  destruct (string2changes_rows self s Hlay Hfit HT Hwf)
    as (sl & Hsl & Hlen & Hall & Hrec & Hrounds & Hch).
  exists sl, (join (change_rows self sl (SCC.T self + 1)
                      (Z.of_nat (length (inspected self))))).
  split; [exact Hsl|]. split; [exact Hrec|].
  intros t j Ht Hj.
  exists (flag (change_val self sl t j)).
  split.
  { unfold record_bit. rewrite Hrounds. apply change_rows_cell; lia. }
  split; [apply flag_bit|].
  assert (Hc : forall i, - Z.of_nat (length sl) <= i < Z.of_nat (length sl) ->
               exists c, cell sl i j = ret c).
  { intros i Hi. destruct (cell_total sl _ i j Hall Hi Hj) as (c & H & _); eauto. }
  pose proof (Hch t j Ht Hj) as Hval. unfold change_at in Hval.
  repeat split.
  - intros Hr ->. rewrite Hr in Hval. cbn [Z.eqb] in Hval.
    destruct (Hc (-1)) as (a & Ha); [lia|]. exists a. split; [exact Ha|].
    rewrite Ha in Hval. cbn [bind ret] in Hval.
    apply ret_inj in Hval. rewrite <- Hval. apply flag_neq.
  - intros Hr Hpos. rewrite Hr in Hval.
    destruct (Z.eqb_spec t 0); [lia|].
    destruct (Hc (- t)) as (a & Ha); [lia|].
    destruct (Hc (- t - 1)) as (a' & Ha'); [lia|].
    exists a, a'. split; [exact Ha|]. split; [exact Ha'|].
    rewrite Ha, Ha' in Hval. cbn [bind ret] in Hval.
    apply ret_inj in Hval. rewrite <- Hval. apply flag_neq.
  - intros Hr Hmid. rewrite Hr in Hval.
    destruct (Z.leb_spec t 1); [lia|].
    destruct (Z.eqb_spec t (SCC.T self)); [lia|].
    destruct (Hc (- t - 1)) as (a & Ha); [lia|].
    destruct (Hc (- t + 1)) as (a' & Ha'); [lia|].
    exists a, a'. split; [exact Ha|]. split; [exact Ha'|].
    rewrite Ha, Ha' in Hval. cbn [bind ret] in Hval.
    apply ret_inj in Hval. rewrite <- Hval. apply flag_neq.
Qed.

Lemma detection_bit_regimes_witness :
  layout self_z3 /\ fits self_z3 /\ 1 <= SCC.T self_z3
  /\ well_formed self_z3 shot_z3
  /\ exists sl record,
       syndrome_list_of self_z3 shot_z3 = ret sl
       /\ _string2changes self_z3 shot_z3 = ret record.
Proof.
  assert (H1 : layout self_z3) by by_computation.
  assert (H2 : fits self_z3) by by_computation.
  assert (H3 : 1 <= SCC.T self_z3) by (cbn; lia).
  assert (H4 : well_formed self_z3 shot_z3)
    by shot_concrete "000000001"%string
         ["0000"; "0100"; "0000"; "0010"; "0000"; "1001"]%string.
  repeat (split; [assumption|]).
  destruct (detection_bit_regimes self_z3 shot_z3 H1 H2 H3 H4)
    as (sl & record & Hsl & Hrec & _).
  exists sl, record. split; assumption.
Defined.



(** C3, the claim as written: every round of the record is as long as
    the plaquette list of the basis opposite to the preparation basis,
    those being the stabilizers inspected.  At [d = 2], basis ["x"], the
    rounds have one bit while there are two Z-plaquettes; and at [d = 3],
    basis ["z"], the list read by the decoder is [zplaqs], not the
    opposite one. *)
Lemma rounds_follow_preparation_basis :
  (layout self_x2 /\ fits self_x2 /\ 1 <= SCC.T self_x2
   /\ well_formed self_x2 shot_x2
   /\ _string2changes self_x2 shot_x2 = ret (lit "0 0")
   /\ ~ rounds_have_length (length (opposite self_x2)) (lit "0 0"))
  /\ (inspected self_r1 = SCC.zplaqs self_r1
      /\ inspected self_r1 <> opposite self_r1).
Proof.
  split.
  - split; [by_computation|]. split; [by_computation|]. split; [cbn; lia|].
    split; [shot_concrete "0000"%string ["0"; "0"]%string|].
    split; [by_computation|].
    intros H. inversion H as [|r l Hr _]. vm_compute in Hr. discriminate Hr.
  - split; [by_computation|]. vm_compute. discriminate.
Qed.

(** C3, amended: every round of the record is as long as the plaquette
    list of the preparation basis itself, which is the list the decoder
    reads ([zplaqs] for basis ["z"], [xplaqs] otherwise); for odd [d]
    the opposite list has the same length. *)
Theorem rounds_have_inspected_length (self : SCC.t) (s : str) :
  layout self -> fits self -> 1 <= SCC.T self -> well_formed self s ->
  exists record,
    _string2changes self s = ret record
    /\ rounds_have_length (length (inspected self)) record
    /\ inspected self
       = (if str_eqb (SCC.basis self) (lit "z")
          then SCC.zplaqs self else SCC.xplaqs self)
    /\ (1 <= SCC.d self -> Z.odd (SCC.d self) = true ->
        length (opposite self) = length (inspected self)).
Proof.
  intros Hlay Hfit HT Hwf.
  destruct (string2changes_rows self s Hlay Hfit HT Hwf)
    as (sl & Hsl & Hlen & Hall & Hrec & Hrounds & _).
  eexists. split; [exact Hrec|]. split; [|split; [reflexivity|]].
  - unfold rounds_have_length. rewrite Hrounds.
    destruct (change_rows_shape self sl (SCC.T self + 1)
                (Z.of_nat (length (inspected self)))) as [_ Hb]; [lia | lia |].
    eapply Forall_impl; [|exact Hb]. intros r [Hr _]. lia.
  - intros Hd Hodd.
    pose proof (zplaqs_count_odd (SCC.d self) Hd Hodd) as Hz.
    pose proof (xplaqs_count_odd (SCC.d self) Hd Hodd) as Hx.
    unfold layout in Hlay. rewrite <- Hlay in Hz, Hx. cbn [fst snd] in Hz, Hx.
    unfold opposite, inspected. destruct (str_eqb _ _); lia.
Qed.

Lemma rounds_have_inspected_length_witness :
  layout self_r1 /\ fits self_r1 /\ 1 <= SCC.T self_r1
  /\ well_formed self_r1 shot_r1
  /\ exists record,
       _string2changes self_r1 shot_r1 = ret record
       /\ rounds_have_length (length (inspected self_r1)) record.
Proof.
  assert (H1 : layout self_r1) by by_computation.
  assert (H2 : fits self_r1) by by_computation.
  assert (H3 : 1 <= SCC.T self_r1) by (cbn; lia).
  assert (H4 : well_formed self_r1 shot_r1)
    by shot_concrete "000000001"%string ["0000"; "0000"]%string.
  repeat (split; [assumption|]).
  destruct (rounds_have_inspected_length self_r1 shot_r1 H1 H2 H3 H4)
    as (record & Hrec & Hlen & _).
  exists record. split; assumption.
Defined.

(** Line 267 binds the local [basis] to [self.basis]. *)
Lemma string2changes_binds_basis (self : SCC.t) (s : str) :
  _string2changes self s = string2changes_by (SCC.basis self) self s.
Proof. reflexivity. Qed.

Lemma change_val_with_basis basis self sl t j :
  change_val (with_basis basis self) sl t j = change_val self sl t j.
Proof. reflexivity. Qed.







(** ** [string2raw_logicals] *)

Lemma bit_at_bit n w q : bits n w -> 0 <= q < n ->
  (exists c, getitem w q = ret c /\ int_of_char c = ret (bit_at w q))
  /\ (bit_at w q = 0 \/ bit_at w q = 1).
Proof.
  intros Hw Hq. destruct (readout_bit n w q Hw Hq) as (c & v & Hc & Hv & Hr).
  unfold ret in Hc, Hv.
  unfold bit_at. rewrite Hc. cbv beta iota. rewrite Hv. cbv beta iota.
  split; [now exists c | exact Hr].
Qed.

Lemma parity_fold (g : Z -> Z) l a :
  0 <= a < 2 ->
  fold_left (fun acc j => (acc + g j) mod 2) l a
  = (a + fold_right Z.add 0 (map g l)) mod 2.
Proof.
  revert a. induction l as [|j l IH]; intros a Ha; cbn [fold_left map fold_right].
  - rewrite Z.add_0_r. symmetry. apply Z.mod_small. lia.
  - rewrite IH by (apply Z.mod_pos_bound; lia).
    rewrite Z.add_mod_idemp_l by lia. f_equal. lia.
Qed.

(** The loop of lines 337-347 with subscripts [p0 j] and [p1 j]. *)
Lemma raw_loop n w (p0 p1 : Z -> Z) l :
  bits n w ->
  (forall j, In j l -> 0 <= p0 j < n /\ 0 <= p1 j < n) ->
  for_each l
    (fun (Zs : Z * Z) j =>
       c0 <- getitem w (p0 j) ;;
       v0 <- int_of_char c0 ;;
       let Z0 := (fst Zs + v0) mod 2 in
       c1 <- getitem w (p1 j) ;;
       v1 <- int_of_char c1 ;;
       ret (Z0, (snd Zs + v1) mod 2))
    (0, 0)
  = ret (parity_on w (map p0 l), parity_on w (map p1 l)).
Proof.
  intros Hw Hl.
  rewrite (for_each_ext_in l _
    (fun Zs j => ret ((fst Zs + bit_at w (p0 j)) mod 2,
                      (snd Zs + bit_at w (p1 j)) mod 2))).
  2:{ intros Zs j Hj. destruct (Hl j Hj) as [H0 H1].
      destruct (bit_at_bit n w (p0 j) Hw H0) as [(c0 & Hc0 & Hv0) _].
      destruct (bit_at_bit n w (p1 j) Hw H1) as [(c1 & Hc1 & Hv1) _].
      rewrite Hc0. cbn [bind ret]. rewrite Hv0. cbn [bind ret].
      rewrite Hc1. cbn [bind ret]. rewrite Hv1. reflexivity. }
  rewrite for_each_pure. f_equal.
  assert (G : forall a b,
    fold_left (fun (Zs : Z * Z) j =>
                 ((fst Zs + bit_at w (p0 j)) mod 2,
                  (snd Zs + bit_at w (p1 j)) mod 2)) l (a, b)
    = (fold_left (fun acc j => (acc + bit_at w (p0 j)) mod 2) l a,
       fold_left (fun acc j => (acc + bit_at w (p1 j)) mod 2) l b)).
  { induction l as [|j l IH]; intros a b; cbn [fold_left fst snd]; [reflexivity|].
    apply IH. intros k Hk. apply Hl. now right. }
  rewrite G, !parity_fold by lia. unfold parity_on.
  now rewrite !map_map.
Qed.

Lemma parity_on_bit w l : parity_on w l = 0 \/ parity_on w l = 1.
Proof. unfold parity_on. apply mod2_cases. Qed.

Lemma str_of_bit_value v : v = 0 \/ v = 1 -> str_of_int v = [digit v].
Proof. intros [-> | ->]; reflexivity. Qed.

(** C8: on a shot whose first field is the readout of the [d^2] code
    qubits, [string2raw_logicals] returns the three characters
    ["v0 v1"], where, on the reversed first field, for basis ["z"] [v0]
    is the mod-2 sum over the top row [0..d-1] and [v1] over the bottom
    row [d^2-1-j]; for any other basis, in particular ["x"], [v0] is the
    mod-2 sum over the left column [j*d] and [v1] over the right column
    [(j+1)*d-1]. *)
Theorem raw_logicals_are_boundary_parities (self : SCC.t) (s : str) :
  1 <= SCC.d self -> readout_ok self s ->
  exists f rest v0 v1,
    split s = f :: rest
    /\ string2raw_logicals self s = ret [digit v0; space; digit v1]
    /\ (v0 = 0 \/ v0 = 1) /\ (v1 = 0 \/ v1 = 1)
    /\ (SCC.basis self = lit "z" ->
          v0 = parity_on (rev f) (map (fun j => j) (range (SCC.d self)))
          /\ v1 = parity_on (rev f)
                    (map (fun j => SCC.d self ^ 2 - 1 - j) (range (SCC.d self)))
          /\ v0 = parity_on (rev f) (support (logicals_z (SCC.d self)) 0)
          /\ v1 = parity_on (rev f) (support (logicals_z (SCC.d self)) 1))
    /\ (SCC.basis self <> lit "z" ->
          v0 = parity_on (rev f) (map (fun j => j * SCC.d self) (range (SCC.d self)))
          /\ v1 = parity_on (rev f)
                    (map (fun j => (j + 1) * SCC.d self - 1) (range (SCC.d self)))
          /\ v0 = parity_on (rev f) (support (logicals_x (SCC.d self)) 0)
          /\ v1 = parity_on (rev f) (support (logicals_x (SCC.d self)) 1)).
Proof.
  intros Hd (f & rest & Hsplit & Hf).
  apply bits_rev in Hf.
  unfold string2raw_logicals. rewrite Hsplit, getitem_head. cbn [bind ret].
  unfold str_eqb.
  destruct (list_eq_dec ascii_dec (SCC.basis self) (lit "z")) as [Hz | Hz].
  - exists f, rest. eexists. eexists. split; [reflexivity|].
    rewrite (raw_loop _ _ (fun j => j) (fun j => SCC.d self ^ 2 - 1 - j) _ Hf).
    2:{ intros j Hj. apply In_range2 in Hj. nia. }
    cbn [bind ret fst snd].
    rewrite !str_of_bit_value by apply parity_on_bit.
    split; [reflexivity|].
    split; [apply parity_on_bit|]. split; [apply parity_on_bit|].
    split; [intros _; repeat split; reflexivity | intros H; contradiction].
  - exists f, rest. eexists. eexists. split; [reflexivity|].
    rewrite (raw_loop _ _ (fun j => j * SCC.d self)
               (fun j => (j + 1) * SCC.d self - 1) _ Hf).
    2:{ intros j Hj. apply In_range2 in Hj. nia. }
    cbn [bind ret fst snd].
    rewrite !str_of_bit_value by apply parity_on_bit.
    split; [reflexivity|].
    split; [apply parity_on_bit|]. split; [apply parity_on_bit|].
    split; [intros H; contradiction | intros _; repeat split; reflexivity].
Qed.

Lemma raw_logicals_are_boundary_parities_witness :
  1 <= SCC.d self_r1 /\ readout_ok self_r1 shot_r1
  /\ string2raw_logicals self_r1 shot_r1 = ret (lit "1 0").
Proof.
  assert (H1 : 1 <= SCC.d self_r1) by (cbn; lia).
  assert (H2 : readout_ok self_r1 shot_r1).
  { exists (lit "000000001"), (map lit ["0000"; "0000"]%string).
    split; [by_computation | bits_concrete]. }
  repeat (split; [assumption|]).
  destruct (raw_logicals_are_boundary_parities self_r1 shot_r1 H1 H2)
    as (f & rest & v0 & v1 & Hs & Hr & _).
  by_computation.
Defined.

(** ** Construction *)

Section Post.

Lemma post_ret {A} (Q : A -> Prop) a : Q a -> post Q (ret a).
Proof. exact (fun H => H). Qed.

Lemma post_bind {A B} (P : A -> Prop) (Q : B -> Prop) (m : result A)
    (k : A -> result B) :
  post P m -> (forall a, P a -> post Q (k a)) -> post Q (bind m k).
Proof. destruct m as [a|e]; cbn [post bind]; auto. Qed.

Lemma post_any {A} (m : result A) : post (fun _ => True) m.
Proof. now destruct m. Qed.

Lemma post_for_each {A S} (P : S -> Prop) (l : list A)
    (body : S -> A -> result S) s :
  P s -> (forall s a, P s -> post P (body s a)) -> post P (for_each l body s).
Proof.
  intros Hs Hbody. revert s Hs.
  induction l as [|a l IH]; intros s Hs; cbn [for_each]; [exact Hs|].
  eapply post_bind; [apply Hbody; exact Hs | exact IH].
Qed.

Lemma post_weaken {A} (P Q : A -> Prop) (m : result A) :
  post P m -> (forall a, P a -> Q a) -> post Q m.
Proof. destruct m; cbn [post]; auto. Qed.

Lemma post_elim {A} (Q : A -> Prop) m a : post Q m -> m = ret a -> Q a.
Proof. intros H ->. exact H. Qed.

End Post.

Section EmissionErrors.

Lemma emission_error_bind {A B} (m : result A) (k : A -> result B) :
  emission_error_only m -> (forall a, emission_error_only (k a)) ->
  emission_error_only (bind m k).
Proof. destruct m as [a|e]; cbn [bind emission_error_only]; auto. Qed.

Lemma emission_error_for_each {A S} (l : list A) (body : S -> A -> result S) s :
  (forall s a, emission_error_only (body s a)) ->
  emission_error_only (for_each l body s).
Proof.
  intros H. revert s. induction l as [|a l IH]; intros s; cbn [for_each].
  - exact I.
  - apply emission_error_bind; [apply H | exact IH].
Qed.

Lemma emission_error_getitem {A} (l : list A) i :
  emission_error_only (getitem l i).
Proof.
  unfold getitem. destruct (_ && _); [|now left].
  destruct (nth_error _ _); [exact I | now left].
Qed.

Lemma emission_error_reg_getitem r i : emission_error_only (reg_getitem r i).
Proof. unfold reg_getitem. destruct (_ && _); [exact I | now left]. Qed.

Lemma emission_error_h_all r : emission_error_only (h_all r).
Proof. unfold h_all. destruct (reg_bits r); [now right | exact I]. Qed.

End EmissionErrors.

Ltac emission_error_step :=
  lazymatch goal with
  | |- emission_error_only (bind _ _) => apply emission_error_bind; [|intro]
  | |- emission_error_only (for_each _ _ _) =>
      apply emission_error_for_each; intros ? ?
  | |- emission_error_only (getitem _ _) => apply emission_error_getitem
  | |- emission_error_only (reg_getitem _ _) => apply emission_error_reg_getitem
  | |- emission_error_only (h_all _) => apply emission_error_h_all
  | |- emission_error_only (ret _) => exact I
  | |- emission_error_only (if ?b then _ else _) => destruct b
  | |- emission_error_only (match ?o with Some _ => _ | None => _ end) =>
      destruct o
  end.

Lemma emission_error_x logs barrier self :
  emission_error_only (x logs barrier self).
Proof. unfold x. repeat emission_error_step. Qed.

Lemma emission_error_z logs barrier self :
  emission_error_only (z logs barrier self).
Proof. unfold z. repeat emission_error_step. Qed.

Lemma emission_error_preparation self : emission_error_only (_preparation self).
Proof.
  unfold _preparation. destruct (str_eqb _ _); [apply emission_error_x|].
  apply emission_error_bind; [repeat emission_error_step|].
  intros s. apply emission_error_z.
Qed.

Lemma emission_error_entangle log plaqs j mk self :
  (forall s c p, emission_error_only (mk s c p)) ->
  emission_error_only (entangle log plaqs j mk self).
Proof.
  intros Hmk. unfold entangle. emission_error_step.
  emission_error_step; [emission_error_step|].
  emission_error_step; [|exact I].
  emission_error_step; [apply Hmk | exact I].
Qed.

Lemma emission_error_syndrome_measurement final barrier self :
  emission_error_only (syndrome_measurement final barrier self).
Proof.
  unfold syndrome_measurement. cbv zeta.
  emission_error_step; [|exact I].
  emission_error_step. emission_error_step; [emission_error_step|].
  emission_error_step; [emission_error_step|].
  emission_error_step; [emission_error_step|].
  emission_error_step.
  { emission_error_step. emission_error_step.
    - apply emission_error_entangle. intros. repeat emission_error_step.
    - apply emission_error_entangle. intros. repeat emission_error_step. }
  emission_error_step; [emission_error_step|].
  emission_error_step; [|exact I].
  repeat emission_error_step.
Qed.

Lemma emission_error_readout self : emission_error_only (readout self).
Proof. unfold readout. repeat emission_error_step. Qed.

Lemma emission_error_init d T basis resets :
  emission_error_only (__init__ d T basis resets).
Proof.
  unfold __init__. cbv zeta.
  emission_error_step; [apply emission_error_preparation|].
  emission_error_step.
  { emission_error_step. apply emission_error_syndrome_measurement. }
  destruct (negb _); [|exact I].
  emission_error_step;
    [apply emission_error_syndrome_measurement | apply emission_error_readout].
Qed.

Lemma for_each_invariant {A S} (P : S -> Prop) (l : list A)
    (body : S -> A -> result S) s :
  P s ->
  (forall s a, In a l -> P s -> exists s', body s a = ret s' /\ P s') ->
  exists s', for_each l body s = ret s' /\ P s'.
Proof.
  revert s. induction l as [|a l IH]; intros s Hs Hbody; cbn [for_each].
  - now exists s.
  - destruct (Hbody s a (or_introl eq_refl) Hs) as (s1 & -> & Hs1).
    cbn [bind ret]. apply IH; [exact Hs1|].
    intros s2 b Hb. apply Hbody. now right.
Qed.

Lemma reg_getitem_inside r i :
  0 <= i < reg_size r -> reg_getitem r i = ret (Bit r i).
Proof.
  intros Hi. unfold reg_getitem.
  destruct (Z.ltb_spec i 0); [lia|].
  destruct (Z.leb_spec 0 i); [|lia].
  destruct (Z.ltb_spec i (reg_size r)); [reflexivity | lia].
Qed.

Lemma h_all_populated r :
  0 < reg_size r -> h_all r = ret (map GateH (reg_bits r)).
Proof.
  intros H. unfold h_all, reg_bits, range.
  rewrite (range2_cons 0 (reg_size r)) by lia. reflexivity.
Qed.

Lemma h_all_empty r : reg_size r <= 0 -> h_all r = raise CircuitError.
Proof.
  intros H. unfold h_all, reg_bits, range. now rewrite range2_nil by lia.
Qed.

Lemma h_all_gates r : post (fun h => h = map GateH (reg_bits r)) (h_all r).
Proof. unfold h_all. now destruct (reg_bits r). Qed.

Lemma same_attributes_refl a : same_attributes a a.
Proof. repeat split. Qed.

Lemma same_attributes_emit a s log ins :
  same_attributes a s -> same_attributes a (SCC.emit log ins s).
Proof. destruct log; intros H; exact H. Qed.

Lemma emitting_emit d k s log ins :
  emitting d k s -> emitting d k (SCC.emit log ins s).
Proof. destruct log; intros H; exact H. Qed.

Lemma emitting_attributes d basis resets :
  emitting d 0 (attributes d basis resets).
Proof.
  unfold emitting, attributes.
  cbn [SCC.d SCC.zplaqs SCC.xplaqs SCC._num_xy SCC.code_qubit SCC.zplaq_qubit
       SCC.xplaq_qubit SCC.xplaq_bits SCC.zplaq_bits SCC.T reg_size length].
  repeat split; try constructor; try lia.
  now destruct (_get_plaquettes d).
Qed.

Lemma preparation_emitting d basis resets :
  post (emitting d 0) (_preparation (attributes d basis resets)).
Proof.
  pose proof (emitting_attributes d basis resets) as H0.
  unfold _preparation. destruct (str_eqb _ _).
  - unfold x. apply post_for_each; [exact H0|]. intros s log Hs.
    apply (post_bind (emitting d 0)).
    + apply post_for_each; [exact Hs|]. intros s1 j Hs1.
      eapply post_bind; [apply post_any|]. intros q _. apply post_ret.
      now apply emitting_emit.
    + intros s1 Hs1. now apply post_ret.
  - apply (post_bind (emitting d 0)).
    { apply post_for_each; [exact H0|]. intros s log Hs.
      eapply post_bind; [apply post_any|]. intros h _. apply post_ret.
      now apply emitting_emit. }
    intros s0 Hs0. unfold z. apply post_for_each; [exact Hs0|].
    intros s log Hs. apply (post_bind (emitting d 0)).
    + apply post_for_each; [exact Hs|]. intros s1 j Hs1.
      eapply post_bind; [apply post_any|]. intros q _. apply post_ret.
      now apply emitting_emit.
    + intros s1 Hs1. now apply post_ret.
Qed.

(** The preparation returns unless it meets an empty code register on
    the branch that starts with H gates. *)
Lemma preparation_succeeds d basis resets :
  str_eqb basis (lit "z") = true \/ d <> 0 ->
  exists self,
    _preparation (attributes d basis resets) = ret self
    /\ same_attributes (attributes d basis resets) self.
Proof.
  intros Hok.
  set (self0 := attributes d basis resets).
  assert (Hloop : forall (start : SCC.t) (idx : SCC.t -> Z -> Z)
                         (gate : bitref -> instr),
    same_attributes self0 start ->
    (forall s j, same_attributes self0 s -> 0 <= j < d -> 0 <= idx s j < d ^ 2) ->
    exists self,
      for_each (range d)
        (fun self j =>
           q <- reg_getitem (SCC.code_qubit self) (idx self j) ;;
           ret (SCC.emit Log1 [gate q] self)) start = ret self
      /\ same_attributes self0 self).
  { intros start idx gate Hstart Hidx.
    apply (for_each_invariant (same_attributes self0)); [exact Hstart|].
    intros s j Hj Hs. apply In_range2 in Hj.
    assert (Hq : SCC.code_qubit s = SCC.code_qubit self0) by apply Hs.
    rewrite Hq. cbn [self0 attributes SCC.code_qubit].
    rewrite reg_getitem_inside by (cbn [reg_size]; apply Hidx; [exact Hs | lia]).
    cbn [bind ret]. eexists. split; [reflexivity|].
    now apply same_attributes_emit. }
  unfold _preparation. fold self0. change (SCC.basis self0) with basis.
  destruct (str_eqb basis (lit "z")).
  - unfold x. cbn [for_each]. change (SCC.d self0) with d.
    destruct (Hloop self0 (fun s j => j * SCC.d s) GateX)
      as (self & Hself & Hsame).
    { apply same_attributes_refl. }
    { intros s j Hs Hj. destruct Hs as (Hd & _). rewrite Hd.
      change (SCC.d self0) with d. nia. }
    rewrite Hself. cbn [bind ret]. now exists self.
  - assert (Hd : d <> 0) by (destruct Hok; [discriminate | assumption]).
    unfold z. cbn [for_each].
    change (SCC.code_qubit self0) with (Register (d ^ 2) (lit "code_qubit")).
    rewrite h_all_populated by (cbn [reg_size]; nia).
    cbn [bind ret].
    change (SCC.code_qubit (SCC.emit Log0 ?h self0))
      with (Register (d ^ 2) (lit "code_qubit")).
    rewrite h_all_populated by (cbn [reg_size]; nia).
    cbn [bind ret].
    set (start := SCC.emit Log1 _ (SCC.emit Log0 _ self0)).
    change (SCC.d start) with d.
    destruct (Hloop start (fun _ j => j) GateZ) as (self & Hself & Hsame).
    { repeat apply same_attributes_emit. apply same_attributes_refl. }
    { intros s j _ Hj. nia. }
    rewrite Hself. cbn [bind ret]. now exists self.
Qed.


(** ** Objects returned by the constructor *)


(** Emission leaves the attributes alone. *)
Ltac keeps_step a :=
  lazymatch goal with
  | |- post _ (ret _) => apply post_ret
  | |- post _ (bind (getitem _ _) _) =>
      eapply post_bind; [apply post_any | intros ? _]
  | |- post _ (bind (reg_getitem _ _) _) =>
      eapply post_bind; [apply post_any | intros ? _]
  | |- post _ (bind (h_all _) _) =>
      eapply post_bind; [apply post_any | intros ? _]
  | |- post _ (for_each _ _ _) => apply post_for_each; [|intros ? ? ?]
  | |- post _ (bind (for_each _ _ _) _) =>
      apply (post_bind (same_attributes a)); [|intros ? ?]
  | |- post _ (bind (if ?b then _ else _) _) =>
      apply (post_bind (same_attributes a)); [destruct b|intros ? ?]
  | |- post _ (if ?b then _ else _) => destruct b
  | |- post _ (match ?o with Some _ => _ | None => _ end) => destruct o
  | |- same_attributes _ (SCC.emit _ _ _) => apply same_attributes_emit
  | |- same_attributes _ (if ?b then _ else _) => destruct b
  | |- same_attributes _ _ => assumption
  end.

Lemma entangle_keeps a log plaqs j mk self :
  same_attributes a self ->
  post (same_attributes a) (entangle log plaqs j mk self).
Proof.
  intros H. unfold entangle. keeps_step a; [exact H|].
  keeps_step a. keeps_step a; [|keeps_step a; assumption].
  eapply post_bind; [apply post_any | intros ? _].
  repeat keeps_step a.
Qed.

Lemma syndrome_measurement_counts final barrier self :
  post (fun s => same_layout self s /\ SCC.T s = SCC.T self + 1)
       (syndrome_measurement final barrier self).
Proof.
  unfold syndrome_measurement. cbv zeta.
  set (start := SCC.set_bits _ _ self).
  assert (Hstart : same_attributes self start) by (repeat split).
  apply (post_bind (same_attributes self)).
  - keeps_step self; [exact Hstart|].
    do 3 keeps_step self.
    apply (post_bind (same_attributes self)).
    { keeps_step self; [repeat keeps_step self|].
      apply (post_bind (same_attributes self));
        [apply entangle_keeps; assumption | intros ? ?].
      apply entangle_keeps; assumption. }
    intros s1 Hs1. keeps_step self.
    apply (post_bind (same_attributes self)).
    { keeps_step self; [repeat keeps_step self|].
      repeat keeps_step self. }
    intros s2 Hs2. repeat keeps_step self.
  - intros s (Hd & Hb & Hr & Hz & Hx & _ & HT). apply post_ret.
    cbn [SCC.set_T SCC.d SCC.basis SCC._resets SCC.zplaqs SCC.xplaqs SCC.T].
    repeat split; try assumption. now rewrite HT.
Qed.

Lemma readout_keeps self : post (same_attributes self) (readout self).
Proof.
  unfold readout. keeps_step self; [apply same_attributes_refl|].
  cbv zeta. repeat keeps_step self.
Qed.

Lemma preparation_keeps self : post (same_attributes self) (_preparation self).
Proof.
  unfold _preparation. destruct (str_eqb _ _).
  - unfold x. keeps_step self; [apply same_attributes_refl|].
    repeat keeps_step self.
  - keeps_step self.
    + keeps_step self; [apply same_attributes_refl|]. repeat keeps_step self.
    + unfold z. repeat keeps_step self.
Qed.

Lemma same_layout_trans a b c :
  same_layout a b -> same_layout b c -> same_layout a c.
Proof.
  intros (H1 & H2 & H3 & H4 & H5) (G1 & G2 & G3 & G4 & G5).
  repeat split; congruence.
Qed.

Lemma rounds_loop_counts (l : list Z) self :
  post (fun s => same_layout self s
                 /\ SCC.T s = SCC.T self + Z.of_nat (length l))
       (for_each l (fun self _ => syndrome_measurement false false self) self).
Proof.
  revert self. induction l as [|a l IH]; intros self; cbn [for_each].
  - apply post_ret. split; [repeat split | cbn [length]; lia].
  - eapply post_bind; [apply syndrome_measurement_counts|].
    intros s1 (Hl1 & HT1). cbv beta.
    specialize (IH s1). destruct (for_each l _ s1) as [s2|e]; cbn [post] in *;
      [|exact I].
    destruct IH as (Hl2 & HT2). split; [eapply same_layout_trans; eauto|].
    rewrite HT2, HT1. cbn [length]. lia.
Qed.

(** An object that the constructor returns for [T >= 1] rounds carries
    the layout of its distance and has counted [T] rounds. *)
Lemma constructed_object d T basis resets self :
  1 <= T -> __init__ d T basis resets = ret self ->
  layout self /\ SCC.d self = d /\ SCC.T self = T
  /\ SCC.basis self = basis /\ SCC._resets self = resets.
Proof.
  intros HT Hinit.
  assert (Hpost : post (fun s => same_layout (attributes d basis resets) s
                                 /\ SCC.T s = T)
                       (__init__ d T basis resets)).
  { unfold __init__. cbv zeta.
    eapply post_bind; [apply preparation_keeps|]. intros s0 Hs0. cbv beta.
    eapply post_bind; [apply rounds_loop_counts|].
    intros s1 (Hl1 & HT1). cbv beta.
    destruct (Z.eqb_spec T 0); [lia|]. cbn [negb].
    eapply post_bind; [apply syndrome_measurement_counts|].
    intros s2 (Hl2 & HT2). cbv beta.
    pose proof (readout_keeps s2) as Hr.
    destruct (readout s2) as [s3|e]; cbn [post] in *; [|exact I].
    destruct Hs0 as (A1 & A2 & A3 & A4 & A5 & _ & A7).
    destruct Hl1 as (B1 & B2 & B3 & B4 & B5).
    destruct Hl2 as (C1 & C2 & C3 & C4 & C5).
    destruct Hr as (D1 & D2 & D3 & D4 & D5 & _ & D7).
    split; [repeat split; congruence|].
    rewrite D7, HT2, HT1, A7, range_length by lia. cbn [attributes SCC.T]. lia. }
  pose proof (post_elim _ _ _ Hpost Hinit) as ((Hd & Hb & Hr & Hz & Hx) & HTs).
  cbn [attributes SCC.d SCC.basis SCC._resets SCC.zplaqs SCC.xplaqs] in *.
  repeat split; try assumption.
  unfold layout. rewrite Hz, Hx, Hd. now destruct (_get_plaquettes d).
Qed.

(** At odd distance the constructed object also has one ancilla per
    inspected plaquette. *)
Lemma constructed_object_fits d T basis resets self :
  1 <= d -> Z.odd d = true -> 1 <= T ->
  __init__ d T basis resets = ret self ->
  layout self /\ fits self /\ SCC.T self = T.
Proof.
  intros Hd Hodd HT Hinit.
  destruct (constructed_object d T basis resets self HT Hinit)
    as (Hlay & Hds & HTs & _).
  split; [exact Hlay|]. split; [|exact HTs].
  unfold fits, inspected. unfold layout in Hlay. rewrite Hds in *.
  pose proof (zplaqs_count_odd d Hd Hodd) as Hz.
  pose proof (xplaqs_count_odd d Hd Hodd) as Hx.
  rewrite <- Hlay in Hz, Hx. cbn [fst snd] in Hz, Hx.
  destruct (str_eqb _ _); assumption.
Qed.

(** The decoding methods read the layout, the basis, the reset policy
    and the round count, and nothing else of the object. *)
Lemma decoding_reads_layout_only a b s :
  same_layout a b -> SCC.T b = SCC.T a ->
  _string2changes b s = _string2changes a s
  /\ string2raw_logicals b s = string2raw_logicals a s.
Proof.
  destruct a, b. unfold same_layout.
  cbn [SCC.d SCC.basis SCC._resets SCC.zplaqs SCC.xplaqs SCC.T].
  intros (-> & -> & -> & -> & ->) ->. split; reflexivity.
Qed.

(** So a constructed object decodes as [configured] says. *)
Lemma constructed_decodes_as_configured d T basis resets self s :
  1 <= T -> __init__ d T basis resets = ret self ->
  _string2changes self s = _string2changes (configured d T basis resets) s
  /\ string2raw_logicals self s
     = string2raw_logicals (configured d T basis resets) s.
Proof.
  intros HT Hinit.
  destruct (constructed_object d T basis resets self HT Hinit)
    as (Hlay & Hd & HTs & Hb & Hr).
  apply decoding_reads_layout_only.
  - unfold layout in Hlay. rewrite Hd in Hlay.
    unfold same_layout, configured.
    cbn [SCC.set_T attributes SCC.d SCC.basis SCC._resets SCC.zplaqs SCC.xplaqs].
    rewrite <- Hlay. cbn [fst snd]. repeat split; congruence.
  - unfold configured. cbn [SCC.set_T SCC.T]. exact HTs.
Qed.

(** The constructor stores the basis it was given. *)
Lemma init_keeps_basis d T basis resets :
  post (fun s => SCC.basis s = basis) (__init__ d T basis resets).
Proof.
  assert (H : post (same_layout (attributes d basis resets))
                   (__init__ d T basis resets)).
  { unfold __init__. cbv zeta.
    eapply post_bind; [apply preparation_keeps|]. intros s0 Hs0. cbv beta.
    eapply post_bind; [apply rounds_loop_counts|].
    intros s1 (Hl1 & _). cbv beta.
    assert (H01 : same_layout (attributes d basis resets) s1).
    { destruct Hs0 as (A1 & A2 & A3 & A4 & A5 & _).
      destruct Hl1 as (B1 & B2 & B3 & B4 & B5).
      repeat split; congruence. }
    destruct (negb _); [|now apply post_ret].
    eapply post_bind; [apply syndrome_measurement_counts|].
    intros s2 (Hl2 & _). cbv beta.
    eapply post_weaken; [apply readout_keeps|].
    intros s3 (D1 & D2 & D3 & D4 & D5 & _).
    destruct H01 as (B1 & B2 & B3 & B4 & B5).
    destruct Hl2 as (C1 & C2 & C3 & C4 & C5).
    repeat split; congruence. }
  eapply post_weaken; [exact H|]. intros s (_ & Hb & _). exact Hb.
Qed.

(** ** Construction succeeds at odd distance *)

Lemma emit_reads log ins s :
  SCC.zplaq_qubit (SCC.emit log ins s) = SCC.zplaq_qubit s
  /\ SCC.xplaq_qubit (SCC.emit log ins s) = SCC.xplaq_qubit s
  /\ SCC.zplaq_bits (SCC.emit log ins s) = SCC.zplaq_bits s
  /\ SCC.T (SCC.emit log ins s) = SCC.T s.
Proof. destruct log; repeat split. Qed.

Ltac emit_reads :=
  repeat match goal with
    | |- context [SCC.zplaq_qubit (SCC.emit ?l ?i ?s)] =>
        rewrite (proj1 (emit_reads l i s))
    | |- context [SCC.xplaq_qubit (SCC.emit ?l ?i ?s)] =>
        rewrite (proj1 (proj2 (emit_reads l i s)))
    | |- context [SCC.zplaq_bits (SCC.emit ?l ?i ?s)] =>
        rewrite (proj1 (proj2 (proj2 (emit_reads l i s))))
    | |- context [SCC.T (SCC.emit ?l ?i ?s)] =>
        rewrite (proj2 (proj2 (proj2 (emit_reads l i s))))
    end.

Lemma entangle_succeeds d k log plaqs j mk s :
  emitting d k s -> In j (range 4) ->
  (forall plaq, In plaq plaqs ->
     length plaq = 4%nat /\ forall c, In (Some c) plaq -> 0 <= c < d ^ 2) ->
  (forall s c p, emitting d k s -> 0 <= c < d ^ 2 ->
     0 <= p < Z.of_nat (length plaqs) -> exists g, mk s c p = ret g) ->
  exists s', entangle log plaqs j mk s = ret s' /\ emitting d k s'.
Proof.
  intros Hs Hj Hplaqs Hmk. unfold entangle. apply In_range2 in Hj.
  apply (for_each_invariant (emitting d k)); [exact Hs|].
  intros s0 [p plaq] Hin Hs0. cbn [fst snd].
  pose proof (in_combine_l _ _ _ _ Hin) as Hp. apply In_range2 in Hp.
  pose proof (in_combine_r _ _ _ _ Hin) as Hplaq.
  destruct (Hplaqs plaq Hplaq) as [Hlen Hrange].
  destruct (getitem_nonneg plaq j) as (c & Hc & _); [lia|].
  rewrite Hc. cbn [bind ret]. destruct c as [c|].
  - assert (Hcr : 0 <= c < d ^ 2)
      by (apply Hrange; eapply getitem_In; eauto).
    destruct (Hmk s0 c p Hs0 Hcr Hp) as (g & ->).
    cbn [bind ret]. eexists. split; [reflexivity|]. now apply emitting_emit.
  - now exists s0.
Qed.

(** From distance 3 on there are plaquettes of either type. *)
Lemma num_xy_positive d : 3 <= d -> 0 < _num_xy d.
Proof.
  intros Hd. unfold _num_xy.
  assert (8 <= d ^ 2 - 1) by nia.
  pose proof (Z.quot_le_mono 8 (d ^ 2 - 1) 2 ltac:(lia) ltac:(lia)) as H1.
  change (8 ÷ 2) with 4 in H1. lia.
Qed.

Section OddConstruction.

Variable d : Z.
Hypothesis Hd : 3 <= d.
Hypothesis Hodd : Z.odd d = true.

Lemma emitting_populated s k : emitting d k s -> populated s.
Proof.
  intros (_ & _ & _ & E4 & _ & E6 & _). unfold populated.
  rewrite E4, E6. pose proof (num_xy_positive d Hd). nia.
Qed.

Lemma plaquettes_fit s k :
  emitting d k s ->
  Z.of_nat (length (SCC.zplaqs s)) = _num_xy d
  /\ Z.of_nat (length (SCC.xplaqs s)) = _num_xy d
  /\ (forall plaq, In plaq (SCC.zplaqs s) \/ In plaq (SCC.xplaqs s) ->
        length plaq = 4%nat /\ forall c, In (Some c) plaq -> 0 <= c < d ^ 2).
Proof.
  intros (_ & Hlay & _).
  assert (Hd1 : 1 <= d) by lia.
  pose proof (zplaqs_count_odd d Hd1 Hodd) as Hz.
  pose proof (xplaqs_count_odd d Hd1 Hodd) as Hx.
  rewrite <- Hlay in Hz, Hx. cbn [fst snd] in Hz, Hx.
  split; [exact Hz|]. split; [exact Hx|].
  intros plaq Hin.
  assert (Hin' : In plaq (fst (_get_plaquettes d))
                 \/ In plaq (snd (_get_plaquettes d)))
    by (rewrite <- Hlay; exact Hin).
  split; [eapply plaquette_length; eauto|].
  intros c Hc. eapply plaquette_range; eauto.
Qed.

Lemma bits_register_found (regs : list register) T0 j :
  Forall (fun r => reg_size r = _num_xy d) regs ->
  Z.of_nat (length regs) = T0 + 1 -> 0 <= T0 -> 0 <= j < _num_xy d ->
  exists r, getitem regs T0 = ret r /\ reg_getitem r j = ret (Bit r j).
Proof.
  intros Hall Hlen HT Hj.
  destruct (getitem_nonneg regs T0) as (r & Hr & _); [lia|].
  exists r. split; [exact Hr|]. apply reg_getitem_inside.
  assert (Hsize : reg_size r = _num_xy d).
  { rewrite Forall_forall in Hall. apply Hall.
    eapply getitem_In; eauto. }
  lia.
Qed.

Lemma syndrome_measurement_succeeds final barrier s :
  emitting d 0 s ->
  exists s', syndrome_measurement final barrier s = ret s' /\ emitting d 0 s'.
Proof.
  intros Hs. unfold syndrome_measurement. cbv zeta.
  set (start := SCC.set_bits _ _ s).
  assert (Hstart : emitting d 1 start).
  { destruct Hs as (H1 & H2 & H3 & H4 & H5 & H6 & H7 & H8 & H9 & H10 & H11).
    unfold start. repeat split; try assumption;
      cbn [SCC.set_bits SCC.xplaq_bits SCC.zplaq_bits SCC.T].
    - apply Forall_app. split; [exact H7|]. repeat constructor. exact H3.
    - apply Forall_app. split; [exact H8|]. repeat constructor. exact H3.
    - rewrite length_app. cbn [length]. lia.
    - rewrite length_app. cbn [length]. lia. }
  destruct (for_each_invariant (emitting d 1) [Log0; Log1]
    (fun self log =>
       zlast <- getitem (SCC.zplaq_bits self) (-1) ;;
       xlast <- getitem (SCC.xplaq_bits self) (-1) ;;
       let self := SCC.emit log [AddRegister zlast; AddRegister xlast] self in
       h <- h_all (SCC.xplaq_qubit self) ;;
       let self := SCC.emit log h self in
       self <- for_each (range 4)
         (fun self j =>
            self <- entangle log (SCC.zplaqs self) j
                      (fun self c p =>
                         cq <- reg_getitem (SCC.code_qubit self) c ;;
                         aq <- reg_getitem (SCC.zplaq_qubit self) p ;;
                         ret (GateCX cq aq)) self ;;
            entangle log (SCC.xplaqs self) j
              (fun self c p =>
                 aq <- reg_getitem (SCC.xplaq_qubit self) p ;;
                 cq <- reg_getitem (SCC.code_qubit self) c ;;
                 ret (GateCX aq cq)) self)
         self ;;
       h <- h_all (SCC.xplaq_qubit self) ;;
       let self := SCC.emit log h self in
       self <- for_each (range (SCC._num_xy self))
         (fun self j =>
            xq <- reg_getitem (SCC.xplaq_qubit self) j ;;
            xr <- getitem (SCC.xplaq_bits self) (SCC.T self) ;;
            xb <- reg_getitem xr j ;;
            let self := SCC.emit log [Measure xq xb] self in
            zq <- reg_getitem (SCC.zplaq_qubit self) j ;;
            zr <- getitem (SCC.zplaq_bits self) (SCC.T self) ;;
            zb <- reg_getitem zr j ;;
            let self := SCC.emit log [Measure zq zb] self in
            if SCC._resets self && negb final then
              xq' <- reg_getitem (SCC.xplaq_qubit self) j ;;
              let self := SCC.emit log [Reset xq'] self in
              zq' <- reg_getitem (SCC.zplaq_qubit self) j ;;
              ret (SCC.emit log [Reset zq'] self)
            else ret self)
         self ;;
       ret (if barrier then SCC.emit log [Barrier] self else self))
    start Hstart) as (s1 & Hs1 & Hinv1).
  - intros s0 log _ Hs0.
    pose proof Hs0 as (E1 & E2 & E3 & E4 & E5 & E6 & E7 & E8 & E9 & E10 & E11).
    destruct (getitem_neg (SCC.zplaq_bits s0) (-1)) as (zl & -> & _); [lia|].
    destruct (getitem_neg (SCC.xplaq_bits s0) (-1)) as (xl & -> & _); [lia|].
    cbn [bind ret]. cbv zeta. emit_reads.
    rewrite h_all_populated by (apply (emitting_populated s0 1 Hs0)).
    cbn [bind ret].
    set (s2 := SCC.emit log (map GateH _) (SCC.emit log _ s0)).
    assert (Hs2 : emitting d 1 s2) by (unfold s2; now repeat apply emitting_emit).
    destruct (for_each_invariant (emitting d 1) (range 4)
      (fun self j =>
         self <- entangle log (SCC.zplaqs self) j
                   (fun self c p =>
                      cq <- reg_getitem (SCC.code_qubit self) c ;;
                      aq <- reg_getitem (SCC.zplaq_qubit self) p ;;
                      ret (GateCX cq aq)) self ;;
         entangle log (SCC.xplaqs self) j
           (fun self c p =>
              aq <- reg_getitem (SCC.xplaq_qubit self) p ;;
              cq <- reg_getitem (SCC.code_qubit self) c ;;
              ret (GateCX aq cq)) self)
      s2 Hs2) as (s3 & Hs3 & Hinv3).
    { intros s4 j Hj Hs4.
      destruct (plaquettes_fit s4 1 Hs4) as (Hzl & Hxl & Hpl).
      destruct (entangle_succeeds d 1 log (SCC.zplaqs s4) j
                  (fun self c p =>
                     cq <- reg_getitem (SCC.code_qubit self) c ;;
                     aq <- reg_getitem (SCC.zplaq_qubit self) p ;;
                     ret (GateCX cq aq)) s4 Hs4 Hj) as (s5 & -> & Hs5).
      { intros plaq Hp. apply Hpl. now left. }
      { intros s6 c p (_ & _ & _ & F4 & F5 & _) Hc Hp.
        unfold plaquette in *. rewrite Hzl in Hp.
        rewrite reg_getitem_inside by lia. cbn [bind ret].
        rewrite reg_getitem_inside by lia. cbn [bind ret]. eauto. }
      cbn [bind ret].
      destruct (plaquettes_fit s5 1 Hs5) as (Hzl5 & Hxl5 & Hpl5).
      apply (entangle_succeeds d 1); try assumption.
      { intros plaq Hp. apply Hpl5. now right. }
      { intros s6 c p (_ & _ & _ & F4 & F5 & F6 & _) Hc Hp.
        unfold plaquette in *. rewrite Hxl5 in Hp.
        rewrite reg_getitem_inside by lia. cbn [bind ret].
        rewrite reg_getitem_inside by lia. cbn [bind ret]. eauto. } }
    rewrite Hs3. cbn [bind ret].
    rewrite h_all_populated by (apply (emitting_populated s3 1 Hinv3)).
    cbn [bind ret].
    set (s7 := SCC.emit log (map GateH _) s3).
    assert (Hs7 : emitting d 1 s7) by (unfold s7; now apply emitting_emit).
    destruct (for_each_invariant (emitting d 1) (range (SCC._num_xy s7))
      (fun self j =>
         xq <- reg_getitem (SCC.xplaq_qubit self) j ;;
         xr <- getitem (SCC.xplaq_bits self) (SCC.T self) ;;
         xb <- reg_getitem xr j ;;
         let self := SCC.emit log [Measure xq xb] self in
         zq <- reg_getitem (SCC.zplaq_qubit self) j ;;
         zr <- getitem (SCC.zplaq_bits self) (SCC.T self) ;;
         zb <- reg_getitem zr j ;;
         let self := SCC.emit log [Measure zq zb] self in
         if SCC._resets self && negb final then
           xq' <- reg_getitem (SCC.xplaq_qubit self) j ;;
           let self := SCC.emit log [Reset xq'] self in
           zq' <- reg_getitem (SCC.zplaq_qubit self) j ;;
           ret (SCC.emit log [Reset zq'] self)
         else ret self)
      s7 Hs7) as (s8 & Hs8 & Hinv8).
    { intros s9 j Hj Hs9. apply In_range2 in Hj.
      assert (Hn7 : SCC._num_xy s7 = _num_xy d) by apply Hs7.
      rewrite Hn7 in Hj.
      pose proof Hs9 as (G1 & G2 & G3 & G4 & G5 & G6 & G7 & G8 & G9 & G10 & G11).
      rewrite reg_getitem_inside by lia. cbn [bind ret].
      destruct (bits_register_found (SCC.xplaq_bits s9) (SCC.T s9) j)
        as (xr & Hxr & Hxb); try assumption; try lia.
      rewrite Hxr. cbn [bind ret]. rewrite Hxb. cbn [bind ret]. cbv zeta.
      emit_reads.
      rewrite reg_getitem_inside by lia. cbn [bind ret].
      destruct (bits_register_found (SCC.zplaq_bits s9) (SCC.T s9) j)
        as (zr & Hzr & Hzb); try assumption; try lia.
      rewrite Hzr. cbn [bind ret]. rewrite Hzb. cbn [bind ret].
      match goal with |- context [if ?b then _ else _] => destruct b end.
      - emit_reads. rewrite reg_getitem_inside by lia. cbn [bind ret].
        emit_reads. rewrite reg_getitem_inside by lia. cbn [bind ret].
        eexists. split; [reflexivity|]. now repeat apply emitting_emit.
      - eexists. split; [reflexivity|]. now repeat apply emitting_emit. }
    cbv zeta in Hs8. rewrite Hs8. cbn [bind ret]. eexists. split; [reflexivity|].
    destruct barrier; [now apply emitting_emit | exact Hinv8].
  - cbv zeta in Hs1. rewrite Hs1. cbn [bind ret]. eexists. split; [reflexivity|].
    destruct Hinv1 as (H1 & H2 & H3 & H4 & H5 & H6 & H7 & H8 & H9 & H10 & H11).
    repeat split; try assumption;
      cbn [SCC.set_T SCC.xplaq_bits SCC.zplaq_bits SCC.T]; lia.
Qed.

Lemma readout_succeeds s k :
  emitting d k s -> exists s', readout s = ret s' /\ emitting d k s'.
Proof.
  intros Hs. unfold readout.
  apply (for_each_invariant (emitting d k)); [exact Hs|].
  intros s0 log _ Hs0. cbv zeta.
  destruct (str_eqb _ _).
  - rewrite h_all_populated by (apply (emitting_populated s0 k Hs0)).
    cbn [bind ret]. eexists. split; [reflexivity|].
    now repeat apply emitting_emit.
  - cbn [bind ret]. eexists. split; [reflexivity|].
    now repeat apply emitting_emit.
Qed.

Lemma construction_succeeds_odd T basis resets :
  exists self, __init__ d T basis resets = ret self.
Proof.
  unfold __init__. cbv zeta.
  destruct (preparation_succeeds d basis resets) as (s0 & Hs0 & _);
    [right; lia|].
  pose proof (preparation_emitting d basis resets) as He.
  rewrite Hs0 in He |- *. cbn [post bind ret] in He |- *.
  destruct (for_each_invariant (emitting d 0) (range (T - 1))
              (fun self _ => syndrome_measurement false false self) s0 He)
    as (s1 & -> & Hs1).
  { intros s a _ Hs. now apply syndrome_measurement_succeeds. }
  cbn [bind ret]. destruct (negb _); [|now exists s1].
  destruct (syndrome_measurement_succeeds true false s1 Hs1) as (s2 & -> & Hs2).
  cbn [bind ret].
  destruct (readout_succeeds s2 0 Hs2) as (s3 & -> & _). now exists s3.
Qed.

End OddConstruction.
(** ** Construction without validation *)

(** A round on an object whose X-ancilla register is empty stops at its
    first H gate. *)
Lemma syndrome_measurement_empty final barrier s :
  reg_size (SCC.xplaq_qubit s) <= 0 ->
  syndrome_measurement final barrier s = raise CircuitError.
Proof.
  intros Hx. unfold syndrome_measurement. cbv zeta. cbn [for_each].
  set (start := SCC.set_bits _ _ s).
  destruct (getitem_neg (SCC.zplaq_bits start) (-1)) as (zl & Hzl & _).
  { unfold start. cbn [SCC.set_bits SCC.zplaq_bits].
    rewrite length_app. cbn [length]. lia. }
  destruct (getitem_neg (SCC.xplaq_bits start) (-1)) as (xl & Hxl & _).
  { unfold start. cbn [SCC.set_bits SCC.xplaq_bits].
    rewrite length_app. cbn [length]. lia. }
  rewrite Hzl. cbn [bind ret]. rewrite Hxl. cbn [bind ret].
  change (SCC.xplaq_qubit (SCC.emit Log0 [AddRegister zl; AddRegister xl] start))
    with (SCC.xplaq_qubit s).
  now rewrite h_all_empty by exact Hx.
Qed.

(** The preparation returns, or stops at the H gate on an empty code
    register. *)
Lemma preparation_outcome d basis resets :
  (exists self, _preparation (attributes d basis resets) = ret self
                /\ same_attributes (attributes d basis resets) self)
  \/ (str_eqb basis (lit "z") = false /\ d = 0
      /\ _preparation (attributes d basis resets) = raise CircuitError).
Proof.
  destruct (str_eqb basis (lit "z")) eqn:Hb;
    [left; apply preparation_succeeds; now left|].
  destruct (Z.eq_dec d 0) as [-> | Hd];
    [|left; apply preparation_succeeds; now right].
  right. split; [reflexivity|]. split; [reflexivity|].
  unfold _preparation. cbn [attributes SCC.basis]. rewrite Hb.
  cbn [for_each]. now rewrite h_all_empty by (cbn; lia).
Qed.

(** C9, the claim as written: an invalid [d] or [basis] makes the
    constructor fail with a configuration error before any circuit is
    built.  Basis ["y"] at [d = 3] and the distance -3 are accepted and
    circuits with gates are returned; at [d = 2], [T = 1] the failure is
    an [IndexError] of a register subscript in [syndrome_measurement],
    raised after [_preparation] has emitted its gates. *)
Lemma unvalidated_construction :
  (exists self, __init__ 3 1 (lit "y") true = ret self
                /\ SCC.basis self = lit "y" /\ SCC.circuit0 self <> [])
  /\ (exists self, __init__ (-3) 1 (lit "z") true = ret self
                   /\ SCC.d self = -3 /\ SCC.circuit0 self <> [])
  /\ (exists self1, _preparation (attributes 2 (lit "z") true) = ret self1
                    /\ SCC.circuit1 self1 <> []
                    /\ syndrome_measurement true false self1 = raise IndexError
                    /\ __init__ 2 1 (lit "z") true = raise IndexError).
Proof.
  split; [|split].
  - let r := eval vm_compute in (__init__ 3 1 (lit "y") true) in
    lazymatch r with
    | inl ?s => exists s; split; [by_computation|];
                split; [by_computation | vm_compute; discriminate]
    end.
  - let r := eval vm_compute in (__init__ (-3) 1 (lit "z") true) in
    lazymatch r with
    | inl ?s => exists s; split; [by_computation|];
                split; [by_computation | vm_compute; discriminate]
    end.
  - let r := eval vm_compute in (_preparation (attributes 2 (lit "z") true)) in
    lazymatch r with
    | inl ?s => exists s; split; [by_computation|];
                split; [vm_compute; discriminate|]; split; by_computation
    end.
Qed.

(** C9, amended: the constructor validates neither [d] nor [basis] and
    raises no configuration error of its own.  Every basis string is
    accepted, and a basis other than ["z"] takes the branch written for
    ["x"].  At every odd [d >= 3] it returns for every [T] and every
    basis; with [T = 0] it returns for every [d], except [d = 0] with a
    basis other than ["z"].  What it raises comes from the emission of
    gates, after the circuits were created: the [IndexError] of a
    subscript, or the [CircuitError] of the circuit library for a gate
    on an empty register, which is what happens for [T <> 0] when there
    is no ancilla ([d] in -1, 0, 1) and for the H gates of the
    preparation at [d = 0]. *)
Theorem construction_is_unvalidated (d : Z) (basis : str) (resets : bool) :
  (str_eqb basis (lit "z") = true \/ d <> 0 ->
   exists self,
     __init__ d 0 basis resets = ret self
     /\ SCC.d self = d /\ SCC.basis self = basis /\ SCC.T self = 0)
  /\ (3 <= d -> Z.odd d = true ->
      forall T, exists self,
        __init__ d T basis resets = ret self /\ SCC.basis self = basis)
  /\ (forall T, emission_error_only (__init__ d T basis resets))
  /\ (forall T, _num_xy d = 0 -> T <> 0 ->
        __init__ d T basis resets = raise CircuitError)
  /\ (str_eqb basis (lit "z") = false ->
      let self := attributes d basis resets in
      let h := map GateH (reg_bits (SCC.code_qubit self)) in
      if d =? 0 then forall T, __init__ d T basis resets = raise CircuitError
      else _preparation self
           = z [Log1] false (SCC.emit Log1 h (SCC.emit Log0 h self))).
Proof.
  split; [|split; [|split; [|split]]].
  - intros Hok.
    destruct (preparation_succeeds d basis resets Hok) as (self & Hself & Hsame).
    exists self. unfold __init__. cbv zeta. rewrite Hself. cbn [bind ret].
    change (range (0 - 1)) with (@nil Z). cbn [for_each bind ret].
    change (negb (0 =? 0)) with false. cbv iota.
    split; [reflexivity|].
    destruct Hsame as (Hd & Hb & _ & _ & _ & _ & HT).
    repeat split; assumption.
  - intros Hd Hodd T.
    destruct (construction_succeeds_odd d Hd Hodd T basis resets) as (self & Hs).
    exists self. split; [exact Hs|].
    pose proof (init_keeps_basis d T basis resets) as Hk.
    rewrite Hs in Hk. exact Hk.
  - intros T. apply emission_error_init.
  - intros T HN HT. unfold __init__. cbv zeta.
    destruct (preparation_outcome d basis resets)
      as [(s0 & Hs0 & _) | (_ & _ & ->)]; [|reflexivity].
    pose proof (preparation_emitting d basis resets) as He.
    rewrite Hs0 in He |- *. cbn [post bind ret] in He |- *.
    assert (Hx : reg_size (SCC.xplaq_qubit s0) <= 0).
    { destruct He as (_ & _ & _ & _ & _ & E6 & _). rewrite E6, HN. lia. }
    destruct (range (T - 1)) as [|a l] eqn:E; cbn [for_each bind ret].
    + destruct (Z.eqb_spec T 0); [contradiction|]. cbn [negb].
      now rewrite syndrome_measurement_empty.
    + now rewrite syndrome_measurement_empty.
  - intros Hb. cbv zeta. destruct (Z.eqb_spec d 0) as [-> | Hd].
    + intros T. unfold __init__. cbv zeta.
      destruct (preparation_outcome 0 basis resets)
        as [(s0 & Hs0 & _) | (_ & _ & ->)]; [|reflexivity].
      exfalso. unfold _preparation in Hs0. cbn [attributes SCC.basis] in Hs0.
      rewrite Hb in Hs0. cbn [for_each] in Hs0.
      rewrite h_all_empty in Hs0 by (cbn; lia). discriminate.
    + unfold _preparation. cbn [attributes SCC.basis]. rewrite Hb.
      cbn [for_each].
      change (SCC.code_qubit (attributes d basis resets))
        with (Register (d ^ 2) (lit "code_qubit")).
      rewrite h_all_populated by (cbn [reg_size]; nia).
      cbn [bind ret].
      change (SCC.code_qubit (SCC.emit Log0 ?h (attributes d basis resets)))
        with (Register (d ^ 2) (lit "code_qubit")).
      rewrite h_all_populated by (cbn [reg_size]; nia).
      reflexivity.
Qed.

(** ** Further properties: the plaquettes *)

Ltac reflect_hyps :=
  repeat match goal with
    | H : (_ && _) = true |- _ => apply andb_true_iff in H; destruct H
    | H : (_ || _) = true |- _ => apply orb_true_iff in H
    | H : (_ && _) = false |- _ => apply andb_false_iff in H
    | H : (_ <=? _) = true |- _ => apply Z.leb_le in H
    | H : (_ <=? _) = false |- _ => apply Z.leb_gt in H
    | H : (_ <? _) = true |- _ => apply Z.ltb_lt in H
    | H : (_ <? _) = false |- _ => apply Z.ltb_ge in H
    | H : (_ =? _) = true |- _ => apply Z.eqb_eq in H
    | H : (_ =? _) = false |- _ => apply Z.eqb_neq in H
    end.

(** The corners of a seeded block: all four, or exactly two. *)
Lemma seeded_block_weight d x y :
  seeds d x y = true ->
  length (present (block d x y)) = 2%nat
  \/ length (present (block d x y)) = 4%nat.
Proof.
  intros Hs. rewrite block_corners. unfold corner, in_range.
  unfold seeds, bulk, ztab, xtab, in_range in Hs.
  destruct (0 <=? x + 0) eqn:A1, (x + 0 <? d) eqn:A2,
           (0 <=? x + 1) eqn:A3, (x + 1 <? d) eqn:A4,
           (0 <=? y + 0) eqn:B1, (y + 0 <? d) eqn:B2,
           (0 <=? y + 1) eqn:B3, (y + 1 <? d) eqn:B4;
    cbn [andb present flat_map app length];
    try (left; reflexivity); try (right; reflexivity);
    exfalso; reflect_hyps;
    repeat match goal with H : _ \/ _ |- _ => destruct H end;
    reflect_hyps; lia.
Qed.

Lemma present_permuted (a b c e : option Z) :
  length (present [a; c; b; e]) = length (present [a; b; c; e]).
Proof. destruct a, b, c, e; reflexivity. Qed.

Lemma present_In plaq q : In q (present plaq) <-> In (Some q) plaq.
Proof.
  unfold present. rewrite in_flat_map. split.
  - intros ([q'|] & Hin & Hq); cbn [In] in Hq; [|contradiction].
    destruct Hq as [-> | []]. exact Hin.
  - intros H. exists (Some q). split; [exact H | now left].
Qed.

(** A returned plaquette has four slots and two or four qubits. *)
Lemma plaquette_weight (d : Z) (plaq : plaquette) :
  In plaq (fst (_get_plaquettes d)) \/ In plaq (snd (_get_plaquettes d)) ->
  length plaq = 4%nat
  /\ (length (present plaq) = 2%nat \/ length (present plaq) = 4%nat).
Proof.
  intros Hin. split; [eapply plaquette_length; eauto|].
  rewrite get_plaquettes_rows in Hin. cbn [fst snd] in Hin.
  destruct Hin as [H | H]; apply in_flat_map in H; destruct H as (y & _ & H);
    apply in_map_iff in H; destruct H as (x & <- & Hx);
    apply filter_In in Hx; destruct Hx as [_ Hsel];
    unfold zsel, xsel in Hsel; apply andb_true_iff in Hsel;
    destruct Hsel as [Hseed _];
    pose proof (seeded_block_weight d x y Hseed) as Hw;
    rewrite block_corners in Hw; unfold zstore, xstore;
    rewrite block_corners; unfold slot; cbn [nth].
  - now rewrite present_permuted.
  - exact Hw.
Qed.

(** X1: every plaquette that [_get_plaquettes] returns has four slots,
    its present qubit indices lie in [0, d^2), and it has exactly two or
    exactly four of them. *)
Theorem plaquettes_are_weight_2_or_4 (d : Z) (plaq : plaquette) :
  In plaq (fst (_get_plaquettes d)) \/ In plaq (snd (_get_plaquettes d)) ->
  length plaq = 4%nat
  /\ (forall q, In q (present plaq) -> 0 <= q < d ^ 2)
  /\ (length (present plaq) = 2%nat \/ length (present plaq) = 4%nat).
Proof.
  intros Hin. destruct (plaquette_weight d plaq Hin) as [Hl Hw].
  split; [exact Hl|]. split; [|exact Hw].
  intros q Hq. apply present_In in Hq. eapply plaquette_range; eauto.
Qed.

Lemma plaquettes_are_weight_2_or_4_witness :
  (In [None; None; Some 0; Some 3] (fst (_get_plaquettes 3))
   \/ In [None; None; Some 0; Some 3] (snd (_get_plaquettes 3)))
  /\ length (present [None; None; Some 0; Some 3]) = 2%nat.
Proof.
  assert (H : In [None; None; Some 0; Some 3] (fst (_get_plaquettes 3))
              \/ In [None; None; Some 0; Some 3] (snd (_get_plaquettes 3))).
  { left. vm_compute. left. reflexivity. }
  split; [exact H|].
  destruct (plaquettes_are_weight_2_or_4 3 [None; None; Some 0; Some 3] H)
    as (_ & _ & [Hw | Hw]); [exact Hw | discriminate Hw].
Defined.

(** ** Further properties: the virtual final round *)

Lemma plaq_parity_sum n w plaq :
  bits n w -> (forall q, In (Some q) plaq -> 0 <= q < n) ->
  plaq_parity w plaq
  = ret (fold_right Z.add 0 (map (bit_at w) (present plaq))).
Proof.
  intros Hw Hq. unfold plaq_parity.
  assert (G : forall acc,
    for_each plaq
      (fun parity q =>
         match q with
         | Some q => c <- getitem w q ;; v <- int_of_char c ;; ret (parity + v)
         | None => ret parity
         end) acc
    = ret (acc + fold_right Z.add 0 (map (bit_at w) (present plaq)))).
  { induction plaq as [|[q|] plaq IH]; intros acc; cbn [for_each].
    - cbn. f_equal. lia.
    - destruct (bit_at_bit n w q Hw) as [(c & Hc & Hv) _].
      { apply Hq. now left. }
      rewrite Hc. cbn [bind ret]. rewrite Hv. cbn [bind ret].
      rewrite IH by (intros q' Hq'; apply Hq; now right).
      f_equal. cbn [present flat_map app map fold_right].
      change (flat_map _ plaq) with (present plaq). lia.
    - cbn [bind ret]. rewrite IH by (intros q' Hq'; apply Hq; now right).
      reflexivity. }
  rewrite G. f_equal.
Qed.

Lemma final_syndrome_parities n w plaqs :
  bits n w ->
  (forall plaq q, In plaq plaqs -> In (Some q) plaq -> 0 <= q < n) ->
  final_syndrome w plaqs
  = ret (rev (map (fun plaq => digit (parity_on w (present plaq))) plaqs)).
Proof.
  intros Hw Hq. unfold final_syndrome.
  assert (G : forall acc,
    for_each plaqs
      (fun full_syndrome plaq =>
         parity <- plaq_parity w plaq ;;
         ret (str_of_int (parity mod 2) ++ full_syndrome)) acc
    = ret (rev (map (fun plaq => digit (parity_on w (present plaq))) plaqs)
           ++ acc)).
  { induction plaqs as [|plaq plaqs IH]; intros acc; cbn [for_each];
      [reflexivity|].
    rewrite (plaq_parity_sum n w plaq Hw) by (intros q; apply Hq; now left).
    cbn [bind ret].
    destruct (str_of_parity (fold_right Z.add 0 (map (bit_at w) (present plaq))))
      as [_ ->].
    rewrite IH by (intros p q Hp; apply Hq; now right).
    cbn [map rev]. rewrite <- app_assoc. reflexivity. }
  rewrite G. now rewrite app_nil_r.
Qed.

(** X2: on a well-formed shot the first entry of the syndrome list, the
    virtual final round, holds for each inspected plaquette the mod-2 sum
    of the reversed readout over its present qubits, in reverse plaquette
    order; the supports are those of [css_z_stabilizer_ops] for basis
    ["z"] and of [css_x_stabilizer_ops] for basis ["x"]. *)
Theorem final_round_is_stabilizer_parity (self : SCC.t) (s : str) :
  layout self -> fits self -> 1 <= SCC.T self -> well_formed self s ->
  exists f rest sel,
    split s = f :: rest
    /\ syndrome_list_of self s
       = ret (rev (map (fun support => digit (parity_on (rev f) support))
                     (map present (inspected self))) :: sel)
    /\ (SCC.basis self = lit "z" ->
        map present (inspected self) = css_z_stabilizer_ops self)
    /\ (SCC.basis self = lit "x" ->
        map present (inspected self) = css_x_stabilizer_ops self).
Proof.
  intros Hlay Hfit HT Hwf.
  destruct (syndrome_list_shape self s Hlay Hfit HT Hwf)
    as (fs & sel & Hsl & (f & rest & Hsplit & Hfs) & _).
  exists f, rest, sel. split; [exact Hsplit|].
  destruct Hwf as (f' & rest' & Hsplit' & Hf & _).
  rewrite Hsplit in Hsplit'. injection Hsplit' as <- <-.
  rewrite (final_syndrome_parities (SCC.d self ^ 2)) in Hfs.
  - apply ret_inj in Hfs. rewrite map_map. rewrite Hfs. split; [exact Hsl|].
    unfold inspected, css_z_stabilizer_ops, css_z_gauge_ops,
      css_x_stabilizer_ops, css_x_gauge_ops.
    split; intros ->; reflexivity.
  - now apply bits_rev.
  - intros plaq q Hp Hq. eapply plaquette_range; [|exact Hq].
    now apply inspected_layout.
Qed.

Lemma final_round_is_stabilizer_parity_witness :
  layout self_r1 /\ fits self_r1 /\ 1 <= SCC.T self_r1
  /\ well_formed self_r1 shot_r1
  /\ exists sl, syndrome_list_of self_r1 shot_r1 = ret (lit "0001" :: sl).
Proof.
  assert (H1 : layout self_r1) by by_computation.
  assert (H2 : fits self_r1) by by_computation.
  assert (H3 : 1 <= SCC.T self_r1) by (cbn; lia).
  assert (H4 : well_formed self_r1 shot_r1)
    by shot_concrete "000000001"%string ["0000"; "0000"]%string.
  repeat (split; [assumption|]).
  destruct (final_round_is_stabilizer_parity self_r1 shot_r1 H1 H2 H3 H4)
    as (f & rest & sel & Hs & Hsl & _).
  exists sel. rewrite Hsl. f_equal. f_equal.
  assert (Hf : f = lit "000000001").
  { assert (E : split shot_r1 = lit "000000001" :: map lit ["0000"; "0000"]%string)
      by by_computation.
    rewrite E in Hs. now injection Hs as <- _. }
  rewrite Hf. by_computation.
Defined.

(** ** Further properties: rounds and registers of a constructed object *)

(** However many rounds are asked for, the constructor counts them as
    [range(T - 1)] and [T != 0] say. *)
Lemma constructed_round_count d T basis resets self :
  __init__ d T basis resets = ret self ->
  same_layout (attributes d basis resets) self
  /\ SCC.T self = (if T =? 0 then 0 else Z.max 1 T).
Proof.
  intros Hinit.
  assert (Hpost : post (fun s => same_layout (attributes d basis resets) s
                                 /\ SCC.T s = (if T =? 0 then 0 else Z.max 1 T))
                       (__init__ d T basis resets)).
  { unfold __init__. cbv zeta.
    eapply post_bind; [apply preparation_keeps|]. intros s0 Hs0. cbv beta.
    eapply post_bind; [apply rounds_loop_counts|].
    intros s1 (Hl1 & HT1). cbv beta.
    destruct Hs0 as (A1 & A2 & A3 & A4 & A5 & _ & A7).
    destruct Hl1 as (B1 & B2 & B3 & B4 & B5).
    unfold range in HT1. rewrite A7, range2_length in HT1.
    cbn [attributes SCC.T] in HT1.
    destruct (Z.eqb_spec T 0) as [-> | HT0]; cbn [negb].
    - apply post_ret. split; [repeat split; congruence|].
      rewrite HT1. reflexivity.
    - eapply post_bind; [apply syndrome_measurement_counts|].
      intros s2 ((C1 & C2 & C3 & C4 & C5) & HT2). cbv beta.
      pose proof (readout_keeps s2) as Hr.
      destruct (readout s2) as [s3|e]; cbn [post] in *; [|exact I].
      destruct Hr as (D1 & D2 & D3 & D4 & D5 & _ & D7).
      split; [repeat split; congruence|].
      rewrite D7, HT2, HT1. lia. }
  exact (post_elim _ _ _ Hpost Hinit).
Qed.

Lemma construction_emits_odd d T basis resets :
  3 <= d -> Z.odd d = true ->
  exists self, __init__ d T basis resets = ret self /\ emitting d 0 self.
Proof.
  intros Hd Hodd. unfold __init__. cbv zeta.
  destruct (preparation_succeeds d basis resets) as (s0 & Hs0 & _);
    [right; lia|].
  pose proof (preparation_emitting d basis resets) as He.
  rewrite Hs0 in He |- *. cbn [post bind ret] in He |- *.
  destruct (for_each_invariant (emitting d 0) (range (T - 1))
              (fun self _ => syndrome_measurement false false self) s0 He)
    as (s1 & -> & Hs1).
  { intros s a _ Hs. now apply syndrome_measurement_succeeds. }
  cbn [bind ret]. destruct (negb _); [|now exists s1].
  destruct (syndrome_measurement_succeeds d Hd Hodd true false s1 Hs1)
    as (s2 & -> & Hs2).
  cbn [bind ret].
  destruct (readout_succeeds d Hd s2 0 Hs2) as (s3 & -> & Hs3). now exists s3.
Qed.

(** X3: at every odd [d >= 3] the constructor returns, whatever [T]:
    the object has the layout of [d]; its round counter is 0 for
    [T = 0] and [max(1, T)] otherwise, so a negative [T] gives one
    round; and it holds exactly one classical register of [_num_xy] bits
    per round for each ancilla type.  (At [d = 1] there is no ancilla
    and the H gate of the first round fails.) *)
Theorem constructor_counts_rounds (d T : Z) (basis : str) (resets : bool) :
  3 <= d -> Z.odd d = true ->
  exists self,
    __init__ d T basis resets = ret self
    /\ SCC.d self = d /\ SCC.basis self = basis /\ SCC._resets self = resets
    /\ layout self
    /\ SCC.T self = (if T =? 0 then 0 else Z.max 1 T)
    /\ Z.of_nat (length (SCC.xplaq_bits self)) = SCC.T self
    /\ Z.of_nat (length (SCC.zplaq_bits self)) = SCC.T self
    /\ Forall (fun r => reg_size r = _num_xy d)
         (SCC.xplaq_bits self ++ SCC.zplaq_bits self).
Proof.
  intros Hd Hodd.
  destruct (construction_emits_odd d T basis resets Hd Hodd)
    as (self & Hinit & He).
  destruct (constructed_round_count d T basis resets self Hinit)
    as ((L1 & L2 & L3 & L4 & L5) & HT).
  destruct He as (E1 & E2 & E3 & E4 & E5 & E6 & E7 & E8 & E9 & E10 & E11).
  exists self. split; [exact Hinit|].
  cbn [attributes SCC.d SCC.basis SCC._resets] in L1, L2, L3.
  repeat split; try assumption; try lia.
  - unfold layout. now rewrite E1.
  - apply Forall_app. now split.
Qed.

Lemma constructor_counts_rounds_witness :
  3 <= 3 /\ Z.odd 3 = true
  /\ exists self, __init__ 3 (-2) (lit "z") true = ret self /\ SCC.T self = 1.
Proof.
  split; [lia|]. split; [reflexivity|].
  destruct (constructor_counts_rounds 3 (-2) (lit "z") true)
    as (self & Hinit & _ & _ & _ & _ & HT & _); [lia | reflexivity |].
  exists self. split; [exact Hinit | exact HT].
Defined.

(** X4: on an object that the constructor returned at odd [d >= 3],
    one more call of [syndrome_measurement] returns; it adds one to the
    round counter and one register to each of [xplaq_bits] and
    [zplaq_bits], and leaves distance, basis, reset policy and plaquettes
    as they were. *)
Theorem extra_round_extends_object (d T : Z) (basis : str) (resets : bool)
    (self : SCC.t) (final barrier : bool) :
  3 <= d -> Z.odd d = true -> __init__ d T basis resets = ret self ->
  exists self',
    syndrome_measurement final barrier self = ret self'
    /\ SCC.T self' = SCC.T self + 1
    /\ length (SCC.xplaq_bits self') = S (length (SCC.xplaq_bits self))
    /\ length (SCC.zplaq_bits self') = S (length (SCC.zplaq_bits self))
    /\ same_layout self self'.
Proof.
  intros Hd Hodd Hinit.
  destruct (construction_emits_odd d T basis resets Hd Hodd)
    as (self0 & Hinit0 & He).
  rewrite Hinit in Hinit0. apply ret_inj in Hinit0. subst self0.
  destruct (syndrome_measurement_succeeds d Hd Hodd final barrier self He)
    as (self' & Hsm & He').
  pose proof (syndrome_measurement_counts final barrier self) as Hc.
  rewrite Hsm in Hc. cbn [post] in Hc. destruct Hc as (Hlay & HT).
  exists self'. split; [exact Hsm|]. split; [exact HT|].
  destruct He as (_ & _ & _ & _ & _ & _ & _ & _ & E9 & E10 & _).
  destruct He' as (_ & _ & _ & _ & _ & _ & _ & _ & F9 & F10 & _).
  repeat split; try apply Hlay; lia.
Qed.

Lemma extra_round_extends_object_witness :
  3 <= 3 /\ Z.odd 3 = true
  /\ exists self self',
       __init__ 3 1 (lit "z") true = ret self
       /\ syndrome_measurement false false self = ret self'
       /\ SCC.T self' = 2.
Proof.
  split; [lia|]. split; [reflexivity|].
  destruct (construction_emits_odd 3 1 (lit "z") true)
    as (self & Hinit & _); [lia | reflexivity |].
  destruct (constructed_round_count 3 1 (lit "z") true self Hinit)
    as (_ & HT).
  destruct (extra_round_extends_object 3 1 (lit "z") true self false false)
    as (self' & Hsm & HT' & _); [lia | reflexivity | exact Hinit |].
  exists self, self'. split; [exact Hinit|]. split; [exact Hsm|].
  rewrite HT', HT. reflexivity.
Defined.

(** ** Further properties: even distance *)

Lemma parity_count_odd k lo c :
  length (filter (fun v => (v + c) mod 2 =? 0)
            (range2 lo (lo + 2 * Z.of_nat k + 1)))
  = if (lo + c) mod 2 =? 0 then S k else k.
Proof.
  rewrite range2_cons by lia. cbn [filter].
  replace (lo + 2 * Z.of_nat k + 1) with (lo + 1 + 2 * Z.of_nat k) by lia.
  pose proof (parity_count k (lo + 1) c) as Hk.
  destruct ((lo + c) mod 2 =? 0); cbn [length]; now rewrite Hk.
Qed.

Section EvenDistance.

Variable d : Z.
Hypothesis Hd : 2 <= d.
Hypothesis Heven : Z.even d = true.

Let half : nat := Z.to_nat (d / 2 - 1).

Lemma even_mod2 : d mod 2 = 0.
Proof. rewrite Zmod_even, Heven. reflexivity. Qed.

Lemma even_half : d - 1 = 2 * Z.of_nat half + 1.
Proof.
  pose proof even_mod2. unfold half.
  Z.to_euclidean_division_equations. lia.
Qed.

Lemma num_xy_even : _num_xy d = 2 * (Z.of_nat half + 1) * (Z.of_nat half + 1) - 1.
Proof.
  unfold _num_xy. pose proof even_half as Hh.
  replace (d ^ 2 - 1)
    with ((2 * (Z.of_nat half + 1) * (Z.of_nat half + 1) - 1) * 2 + 1) by nia.
  symmetry. apply (Z.quot_unique _ _ _ 1); nia.
Qed.

Lemma x_row_count_even y :
  -1 <= y <= d - 1 ->
  length (filter (xsel d y) (range2 (-1) d))
  = if y =? -1 then half
    else if y =? d - 1 then 0%nat
    else S half.
Proof.
  intros Hy. pose proof even_mod2 as Hm.
  rewrite columns_split by lia. cbn [filter]. rewrite filter_app.
  cbn [filter].
  assert (H1 : xsel d y (-1) = false) by seed_cases.
  rewrite H1.
  destruct (Z.eqb_spec y (-1)) as [-> | Hy1].
  { assert (H2 : xsel d (-1) (d - 1) = false) by seed_cases.
    rewrite H2, app_nil_r.
    rewrite (filter_ext_in (xsel d (-1)) (fun x => (x + -1) mod 2 =? 0)
               (range2 0 (d - 1))).
    2:{ intros x Hx. apply In_range2 in Hx. seed_cases. }
    replace (d - 1) with (0 + 2 * Z.of_nat half + 1) by (rewrite even_half; lia).
    rewrite parity_count_odd. reflexivity. }
  destruct (Z.eqb_spec y (d - 1)) as [-> | Hy2].
  { assert (H2 : xsel d (d - 1) (d - 1) = false) by seed_cases.
    rewrite H2, app_nil_r.
    rewrite (filter_none (xsel d (d - 1))); [reflexivity|].
    intros x Hx. apply In_range2 in Hx. seed_cases. }
  assert (H2 : xsel d y (d - 1) = negb (y mod 2 =? 0)) by seed_cases.
  rewrite H2.
  rewrite (filter_ext_in (xsel d y) (fun x => (x + y) mod 2 =? 0)
             (range2 0 (d - 1))).
  2:{ intros x Hx. apply In_range2 in Hx. seed_cases. }
  replace (d - 1) with (0 + 2 * Z.of_nat half + 1) by (rewrite even_half; lia).
  rewrite length_app, parity_count_odd. cbn [Z.add].
  destruct (y mod 2 =? 0); cbn [negb length]; lia.
Qed.

Lemma xplaqs_count_even :
  Z.of_nat (length (snd (_get_plaquettes d))) = _num_xy d.
Proof.
  rewrite get_plaquettes_rows. cbn [snd].
  rewrite columns_split by lia. cbn [flat_map]. rewrite flat_map_app.
  cbn [flat_map]. rewrite app_nil_r, !length_app, !length_map.
  rewrite <- columns_split by lia.
  rewrite (x_row_count_even (-1)) by lia.
  rewrite (x_row_count_even (d - 1)) by lia.
  rewrite (flat_map_const_length _ (range2 0 (d - 1)) (S half)).
  2:{ intros y Hy. apply In_range2 in Hy. rewrite length_map.
      rewrite x_row_count_even by lia.
      destruct (Z.eqb_spec y (-1)); [lia|].
      destruct (Z.eqb_spec y (d - 1)); [lia | reflexivity]. }
  rewrite range2_length, num_xy_even.
  change (-1 =? -1) with true. cbv iota.
  destruct (Z.eqb_spec (d - 1) (-1)); [lia|].
  rewrite Z.eqb_refl. pose proof even_half. nia.
Qed.

(** At even distance there is one Z-plaquette more than Z-ancillas. *)
Lemma zplaqs_count_even :
  Z.of_nat (length (fst (_get_plaquettes d))) = _num_xy d + 1.
Proof.
  pose proof (plaquette_total d) as Ht.
  pose proof xplaqs_count_even as Hx.
  rewrite Hx in Ht. rewrite num_xy_even in *.
  pose proof even_half as Hh. nia.
Qed.

End EvenDistance.

Lemma combine_app_same {A B} (l1 l2 : list A) (m1 m2 : list B) :
  length l1 = length m1 ->
  combine (l1 ++ l2) (m1 ++ m2) = combine l1 m1 ++ combine l2 m2.
Proof.
  revert m1. induction l1 as [|a l1 IH]; intros [|b m1] H; cbn [length] in H;
    try discriminate; cbn [app combine]; [reflexivity|].
  f_equal. apply IH. lia.
Qed.

Section IndexOr.

Lemma io_bind {A B} (P : A -> Prop) (Q : B -> Prop) (m : result A)
    (k : A -> result B) :
  index_or P m -> (forall a, P a -> index_or Q (k a)) -> index_or Q (bind m k).
Proof. destruct m as [a|e]; cbn [index_or bind]; auto. Qed.

Lemma io_for_each {A S} (P : S -> Prop) (l : list A)
    (body : S -> A -> result S) s :
  P s -> (forall s a, P s -> index_or P (body s a)) ->
  index_or P (for_each l body s).
Proof.
  intros Hs Hbody. revert s Hs.
  induction l as [|a l IH]; intros s Hs; cbn [for_each]; [exact Hs|].
  eapply io_bind; [apply Hbody; exact Hs | exact IH].
Qed.

Lemma io_getitem {A} (l : list A) i : index_or (fun _ => True) (getitem l i).
Proof.
  unfold getitem. destruct (_ && _); [|reflexivity].
  destruct (nth_error _ _); [exact I | reflexivity].
Qed.

Lemma io_reg_getitem r i : index_or (fun _ => True) (reg_getitem r i).
Proof. unfold reg_getitem. destruct (_ && _); [exact I | reflexivity]. Qed.

Lemma io_never {A} (m : result A) :
  index_or (fun _ => False) m -> m = raise IndexError.
Proof. destruct m as [a|e]; cbn [index_or]; [tauto | now intros ->]. Qed.

End IndexOr.

Ltac io_read :=
  apply (io_bind (fun _ => True));
  [first [apply io_getitem | apply io_reg_getitem] | intros ? _].

Section EvenConstruction.

Variable d : Z.
Hypothesis Hd : 2 <= d.
Hypothesis Heven : Z.even d = true.

Lemma z_short_emit s log ins : z_short d s -> z_short d (SCC.emit log ins s).
Proof. destruct log; intros H; exact H. Qed.

(** The Z-plaquette without an ancilla, and one of its qubits. *)
Lemma unserved_plaquette :
  exists front last j c,
    fst (_get_plaquettes d) = front ++ [last]
    /\ Z.of_nat (length front) = _num_xy d
    /\ 0 <= j < 4 /\ getitem last j = ret (Some c).
Proof.
  pose proof (zplaqs_count_even d Hd Heven) as Hlen.
  destruct (exists_last (l := fst (_get_plaquettes d))) as (front & last & Hfl).
  { intros He. rewrite He in Hlen. cbn [length] in Hlen.
    assert (0 <= _num_xy d) by (rewrite (num_xy_even d Hd Heven); nia). lia. }
  assert (Hin : In last (fst (_get_plaquettes d)))
    by (rewrite Hfl; apply in_or_app; right; now left).
  destruct (plaquette_weight d last (or_introl Hin)) as (Hl4 & Hw).
  assert (Hne : exists c, In (Some c) last).
  { destruct (present last) as [|c l] eqn:Hp.
    - destruct Hw as [Hw | Hw]; discriminate Hw.
    - exists c. apply present_In. rewrite Hp. now left. }
  destruct Hne as (c & Hc).
  destruct (In_nth_error _ _ Hc) as (n & Hn).
  assert (Hn4 : (n < 4)%nat).
  { rewrite <- Hl4. apply nth_error_Some. rewrite Hn. discriminate. }
  exists front, last, (Z.of_nat n), c. split; [exact Hfl|].
  split.
  { rewrite Hfl, length_app in Hlen. cbn [length] in Hlen. lia. }
  split; [lia|].
  destruct (getitem_nonneg last (Z.of_nat n)) as (a & Ha & Hnth); [lia|].
  rewrite Nat2Z.id, Hn in Hnth. injection Hnth as <-. exact Ha.
Qed.

Lemma for_each_index_error {A} (P : SCC.t -> Prop) (l1 l2 : list A) (a : A)
    (body : SCC.t -> A -> result SCC.t) s :
  P s ->
  (forall s b, P s -> index_or P (body s b)) ->
  (forall s, P s -> index_or (fun _ => False) (body s a)) ->
  index_or (fun _ => False) (for_each (l1 ++ a :: l2) body s).
Proof.
  intros Hs Hkeep Hfail. revert s Hs.
  induction l1 as [|b l1 IH]; intros s Hs; cbn [app for_each].
  - specialize (Hfail s Hs).
    destruct (body s a) as [s1|e]; cbn [bind index_or] in *;
      [contradiction | exact Hfail].
  - specialize (Hkeep s b Hs).
    destruct (body s b) as [s1|e]; cbn [bind index_or] in *;
      [now apply IH | exact Hkeep].
Qed.

Lemma entangle_short log plaqs j mk s :
  (forall s c p, index_or (fun _ => True) (mk s c p)) ->
  z_short d s -> index_or (z_short d) (entangle log plaqs j mk s).
Proof.
  intros Hmk Hs. unfold entangle. apply io_for_each; [exact Hs|].
  intros s1 pp Hs1. apply (io_bind (fun _ => True)); [apply io_getitem|].
  intros [c|] _.
  - apply (io_bind (fun _ => True)); [apply Hmk|]. intros g _.
    now apply z_short_emit.
  - exact Hs1.
Qed.

Lemma gate_z_reads (s : SCC.t) (c p : Z) :
  index_or (fun _ => True)
    (cq <- reg_getitem (SCC.code_qubit s) c ;;
     aq <- reg_getitem (SCC.zplaq_qubit s) p ;;
     ret (GateCX cq aq)).
Proof. io_read. io_read. exact I. Qed.

Lemma gate_x_reads (s : SCC.t) (c p : Z) :
  index_or (fun _ => True)
    (aq <- reg_getitem (SCC.xplaq_qubit s) p ;;
     cq <- reg_getitem (SCC.code_qubit s) c ;;
     ret (GateCX aq cq)).
Proof. io_read. io_read. exact I. Qed.

(** The entangling loop of the Z-plaquettes stops, for the slot of the
    unserved plaquette, at the subscript of its ancilla. *)
Lemma entangle_z_index_error log s front last j c :
  z_short d s ->
  SCC.zplaqs s = front ++ [last] ->
  Z.of_nat (length front) = _num_xy d ->
  getitem last j = ret (Some c) ->
  index_or (fun _ => False)
    (entangle log (SCC.zplaqs s) j
       (fun self c p =>
          cq <- reg_getitem (SCC.code_qubit self) c ;;
          aq <- reg_getitem (SCC.zplaq_qubit self) p ;;
          ret (GateCX cq aq)) s).
Proof.
  intros Hs Hfl Hlen Hc. unfold entangle. rewrite Hfl.
  rewrite length_app. cbn [length].
  replace (Z.of_nat (length front + 1)) with (Z.of_nat (length front) + 1) by lia.
  unfold range. rewrite (range2_snoc 0) by lia.
  replace (Z.of_nat (length front) + 1 - 1) with (Z.of_nat (length front)) by lia.
  rewrite combine_app_same by (rewrite range2_length; lia).
  cbn [combine].
  apply (for_each_index_error (z_short d)); [exact Hs | |].
  - intros s1 pp Hs1. apply (io_bind (fun _ => True)); [apply io_getitem|].
    intros [c'|] _.
    + apply (io_bind (fun _ => True)); [apply gate_z_reads|]. intros g _.
      now apply z_short_emit.
    + exact Hs1.
  - intros s1 Hs1. cbn [fst snd]. rewrite Hc. cbn [bind ret].
    apply (io_bind (fun _ => False)); [|intros ? []].
    apply (io_bind (fun _ => True)); [apply io_reg_getitem|]. intros cq _.
    destruct Hs1 as ((_ & Hsize) & _). unfold reg_getitem. rewrite Hsize, Hlen.
    destruct (Z.ltb_spec (_num_xy d) 0).
    { assert (0 <= _num_xy d) by lia. lia. }
    destruct (Z.ltb_spec (_num_xy d) (_num_xy d)); [lia|].
    rewrite andb_false_r. reflexivity.
Qed.

(** No round can be emitted: the subscript of the missing Z-ancilla
    raises [IndexError]. *)
Lemma syndrome_measurement_index_error final barrier s :
  z_short d s -> syndrome_measurement final barrier s = raise IndexError.
Proof.
  intros Hs. apply io_never.
  destruct unserved_plaquette as (front & last & j & c & Hfl & Hlen & Hj & Hc).
  unfold syndrome_measurement. cbv zeta.
  set (start := SCC.set_bits _ _ s).
  assert (Hstart : z_short d start) by exact Hs.
  apply (io_bind (fun _ => False)); [|intros ? []].
  apply (for_each_index_error (z_short d) [] [Log1] Log0); [exact Hstart | |].
  - intros s0 log Hs0. io_read. io_read.
    emit_reads. rewrite h_all_populated by apply Hs0. cbn [bind ret].
    apply (io_bind (z_short d)).
    + apply io_for_each; [now repeat apply z_short_emit|].
      intros s1 j1 Hs1. apply (io_bind (z_short d)).
      * apply entangle_short; [apply gate_z_reads | exact Hs1].
      * intros s2 Hs2. apply entangle_short; [apply gate_x_reads | exact Hs2].
    + intros s1 Hs1.
      rewrite h_all_populated by apply Hs1. cbn [bind ret].
      apply (io_bind (z_short d)).
      * apply io_for_each; [now apply z_short_emit|].
        intros s2 j2 Hs2.
        repeat io_read.
        match goal with |- context [if ?b then _ else _] => destruct b end.
        -- repeat io_read. now repeat apply z_short_emit.
        -- now repeat apply z_short_emit.
      * intros s2 Hs2.
        destruct barrier; [now apply z_short_emit | exact Hs2].
  - intros s0 Hs0. io_read. io_read.
    emit_reads. rewrite h_all_populated by apply Hs0. cbn [bind ret].
    apply (io_bind (fun _ => False)); [|intros ? []].
    assert (Hj' : In j (range 4)) by (apply In_range2; lia).
    destruct (in_split _ _ Hj') as (l1 & l2 & ->).
    apply (for_each_index_error (z_short d)).
    + now repeat apply z_short_emit.
    + intros s1 j1 Hs1. apply (io_bind (z_short d)).
      * apply entangle_short; [apply gate_z_reads | exact Hs1].
      * intros s2 Hs2. apply entangle_short; [apply gate_x_reads | exact Hs2].
    + intros s1 Hs1. apply (io_bind (fun _ => False)); [|intros ? []].
      apply (entangle_z_index_error _ _ front last j c); try assumption.
      destruct Hs1 as ((Hz & _) & _). now rewrite Hz.
Qed.

Lemma preparation_z_short basis resets :
  exists s0, _preparation (attributes d basis resets) = ret s0 /\ z_short d s0.
Proof.
  destruct (preparation_succeeds d basis resets) as (s0 & Hs0 & _);
    [right; lia|].
  pose proof (preparation_emitting d basis resets) as He.
  rewrite Hs0 in He. cbn [post] in He.
  exists s0. split; [exact Hs0|].
  destruct He as (_ & E2 & _ & E4 & E5 & E6 & _).
  pose proof (num_xy_even d Hd Heven) as HN.
  repeat split.
  - now rewrite <- E2.
  - exact E5.
  - rewrite E4. nia.
  - rewrite E6, HN. nia.
Qed.

End EvenConstruction.

(** X5: at every even [d >= 2] no syndrome round can be emitted: there
    is one Z-plaquette more than Z-ancillas, so the constructor raises
    [IndexError] for every [T != 0]; with [T = 0] it returns an object on
    which every call of [syndrome_measurement] raises [IndexError]. *)
Theorem even_distance_cannot_measure (d T : Z) (basis : str) (resets : bool) :
  2 <= d -> Z.even d = true ->
  Z.of_nat (length (fst (_get_plaquettes d))) = _num_xy d + 1
  /\ (T <> 0 -> __init__ d T basis resets = raise IndexError)
  /\ (forall self final barrier,
        __init__ d 0 basis resets = ret self ->
        syndrome_measurement final barrier self = raise IndexError).
Proof.
  intros Hd Heven. split; [now apply zplaqs_count_even|].
  destruct (preparation_z_short d Hd Heven basis resets) as (s0 & Hs0 & Hz0).
  split.
  - intros HT. unfold __init__. cbv zeta. rewrite Hs0. cbn [bind ret].
    destruct (range (T - 1)) as [|a l]; cbn [for_each bind ret].
    + destruct (Z.eqb_spec T 0); [contradiction|]. cbn [negb].
      now rewrite (syndrome_measurement_index_error d Hd Heven).
    + now rewrite (syndrome_measurement_index_error d Hd Heven).
  - intros self final barrier Hinit.
    apply (syndrome_measurement_index_error d Hd Heven).
    unfold __init__ in Hinit. cbv zeta in Hinit.
    rewrite Hs0 in Hinit. cbn [bind ret] in Hinit.
    change (range (0 - 1)) with (@nil Z) in Hinit.
    cbn [for_each bind ret] in Hinit.
    change (negb (0 =? 0)) with false in Hinit. cbv iota in Hinit.
    apply ret_inj in Hinit. now subst.
Qed.

Lemma even_distance_cannot_measure_witness :
  2 <= 4 /\ Z.even 4 = true
  /\ __init__ 4 1 (lit "x") false = raise IndexError.
Proof.
  split; [lia|]. split; [reflexivity|].
  apply (even_distance_cannot_measure 4 1 (lit "x") false);
    [lia | reflexivity | discriminate].
Defined.

(** ** Further properties: shots that are too short *)

Lemma getitem_beyond {A} (l : list A) i :
  Z.of_nat (length l) <= i -> getitem l i = raise IndexError.
Proof.
  intros Hi. unfold getitem.
  destruct (Z.ltb_spec i 0); [lia|].
  destruct (Z.ltb_spec i (Z.of_nat (length l))); [lia|].
  now rewrite andb_false_r.
Qed.

Lemma for_each_raises {A S} (l : list A) (body : S -> A -> result S) a s :
  In a l -> (forall s, exists e, body s a = raise e) ->
  exists e, for_each l body s = raise e.
Proof.
  intros Hin Hfail. revert s. induction l as [|b l IH]; intros s; [destruct Hin|].
  cbn [for_each]. destruct Hin as [-> | Hin].
  - destruct (Hfail s) as (e & ->). now exists e.
  - destruct (body s b) as [s1|e]; cbn [bind]; [now apply IH | now exists e].
Qed.

(** X6: if the first field of the shot has fewer than [d^2] characters
    ([d >= 1]), [string2raw_logicals] raises, whatever the basis: the
    last qubit of the second support is not there. *)
Theorem short_readout_raises (self : SCC.t) (s f : str) (rest : list str) :
  1 <= SCC.d self -> split s = f :: rest ->
  Z.of_nat (length f) < SCC.d self ^ 2 ->
  exists e, string2raw_logicals self s = raise e.
Proof.
  intros Hd Hsplit Hshort. unfold string2raw_logicals.
  rewrite Hsplit, getitem_head. cbn [bind ret].
  assert (Hlast : getitem (rev f) (SCC.d self ^ 2 - 1) = raise IndexError).
  { apply getitem_beyond. rewrite length_rev. lia. }
  assert (Hloop : exists e,
    for_each (range (SCC.d self))
      (fun (Zs : Z * Z) j =>
         if str_eqb (SCC.basis self) (lit "z") then
           c0 <- getitem (rev f) j ;;
           v0 <- int_of_char c0 ;;
           let Z0 := (fst Zs + v0) mod 2 in
           c1 <- getitem (rev f) (SCC.d self ^ 2 - 1 - j) ;;
           v1 <- int_of_char c1 ;;
           ret (Z0, (snd Zs + v1) mod 2)
         else
           c0 <- getitem (rev f) (j * SCC.d self) ;;
           v0 <- int_of_char c0 ;;
           let Z0 := (fst Zs + v0) mod 2 in
           c1 <- getitem (rev f) ((j + 1) * SCC.d self - 1) ;;
           v1 <- int_of_char c1 ;;
           ret (Z0, (snd Zs + v1) mod 2)) (0, 0) = raise e).
  { cbv zeta. destruct (str_eqb (SCC.basis self) (lit "z")).
    - apply (for_each_raises _ _ 0); [apply In_range2; lia|].
      intros Zs. destruct (getitem (rev f) 0) as [c0|e]; cbn [bind];
        [|now exists e].
      destruct (int_of_char c0) as [v0|e]; cbn [bind]; [|now exists e].
      replace (SCC.d self ^ 2 - 1 - 0) with (SCC.d self ^ 2 - 1) by lia.
      rewrite Hlast. now exists IndexError.
    - apply (for_each_raises _ _ (SCC.d self - 1)); [apply In_range2; lia|].
      intros Zs.
      destruct (getitem (rev f) ((SCC.d self - 1) * SCC.d self)) as [c0|e];
        cbn [bind]; [|now exists e].
      destruct (int_of_char c0) as [v0|e]; cbn [bind]; [|now exists e].
      replace ((SCC.d self - 1 + 1) * SCC.d self - 1)
        with (SCC.d self ^ 2 - 1) by nia.
      rewrite Hlast. now exists IndexError. }
  cbv zeta in Hloop |- *. destruct Hloop as (e & ->). now exists e.
Qed.

Lemma short_readout_raises_witness :
  1 <= SCC.d self_r1
  /\ split (lit "00000000 0000 0000") = lit "00000000" :: map lit ["0000"; "0000"]%string
  /\ exists e, string2raw_logicals self_r1 (lit "00000000 0000 0000") = raise e.
Proof.
  assert (H1 : 1 <= SCC.d self_r1) by (cbn; lia).
  assert (H2 : split (lit "00000000 0000 0000")
               = lit "00000000" :: map lit ["0000"; "0000"]%string)
    by by_computation.
  split; [exact H1|]. split; [exact H2|].
  apply (short_readout_raises self_r1 _ _ _ H1 H2). cbn. lia.
Defined.

(** X7: a shot that holds the readout field alone cannot be decoded when
    the inspected basis has plaquettes: the syndrome list then ends with
    an empty field and [_string2changes] raises [IndexError] at its first
    bit.  This is the case of an object built with [T = 0]. *)
Theorem bare_readout_raises (self : SCC.t) (s f : str) :
  layout self -> inspected self <> [] ->
  split s = [f] -> bits (SCC.d self ^ 2) f ->
  _string2changes self s = raise IndexError.
Proof.
  intros Hlay Hne Hsplit Hf.
  destruct (final_syndrome_total (SCC.d self ^ 2) (rev f) (inspected self))
    as (fs & Hfs & Hbits).
  { now apply bits_rev. }
  { intros plaq q Hp Hq. eapply plaquette_range; [|exact Hq].
    now apply inspected_layout. }
  assert (Hsl : syndrome_list_of self s = ret [fs; []]).
  { unfold syndrome_list_of. rewrite Hsplit, getitem_head. cbn [bind ret].
    rewrite Hfs. cbn [bind ret].
    assert (E : split (fs ++ lit " " ++ []) = [fs; []]).
    { change (lit " " ++ []) with (space :: @nil ascii).
      rewrite split_word by (eapply bits_nospace; eauto). reflexivity. }
    destruct (str_eqb _ _); cbn [skipn stride2 join]; now rewrite E. }
  assert (Hw : 1 <= Z.of_nat (length fs)).
  { destruct Hbits as [-> _]. destruct (inspected self); [contradiction|].
    cbn [length]. lia. }
  assert (Hcell : forall i, i = -1 \/ i = - 0 - 1 ->
            cell [fs; []] i 0 = raise IndexError).
  { intros i [-> | ->]; reflexivity. }
  assert (Hchange : change_at self [fs; []] 0 0 = raise IndexError).
  { unfold change_at. destruct (SCC._resets self).
    - cbn [Z.eqb]. now rewrite Hcell by auto.
    - change (0 <=? 1) with true. cbv iota.
      destruct (negb (0 =? SCC.T self)); now rewrite Hcell by auto. }
  unfold _string2changes. rewrite Hsl. cbn [bind ret].
  rewrite getitem_head. cbn [bind ret length].
  unfold changes_loop. change (Z.of_nat 2) with 2.
  unfold range at 1. rewrite range2_cons by lia. cbn [for_each].
  unfold range. rewrite (range2_cons 0 (Z.of_nat (length fs))) by lia.
  cbn [for_each]. rewrite Hchange. reflexivity.
Qed.

Lemma bare_readout_raises_witness :
  layout (configured 3 0 (lit "z") true)
  /\ inspected (configured 3 0 (lit "z") true) <> []
  /\ _string2changes (configured 3 0 (lit "z") true) (lit "000000000")
     = raise IndexError.
Proof.
  assert (H1 : layout (configured 3 0 (lit "z") true)) by by_computation.
  assert (H2 : inspected (configured 3 0 (lit "z") true) <> [])
    by (vm_compute; discriminate).
  split; [exact H1|]. split; [exact H2|].
  apply (bare_readout_raises _ _ (lit "000000000") H1 H2);
    [by_computation | bits_concrete].
Defined.

(** ** Further properties: [_process_string] and [_separate_string] *)

Lemma split2_single s : nds s = true -> split2 s = [s].
Proof.
  induction s as [|c s IH]; [reflexivity|].
  destruct s as [|c' s']; [reflexivity|].
  intros H. change (nds (c :: c' :: s'))
    with (negb (Ascii.eqb c space && Ascii.eqb c' space) && nds (c' :: s')) in H.
  apply andb_true_iff in H. destruct H as [Hc Hs].
  change (split2 (c :: c' :: s'))
    with (if Ascii.eqb c space && Ascii.eqb c' space then [] :: split2 s'
          else match split2 (c' :: s') with
               | w :: ws => (c :: w) :: ws
               | [] => [[c]]
               end).
  apply negb_true_iff in Hc. rewrite Hc, (IH Hs). reflexivity.
Qed.

Lemma nds_word_sep r t :
  nospace r -> r <> [] -> nds (space :: t) = true ->
  nds (r ++ space :: t) = true.
Proof.
  intros Hr Hne Ht. induction Hr as [|c r Hc Hr IH]; [contradiction|].
  destruct r as [|c2 r].
  - cbn [app]. change (nds (c :: space :: t))
      with (negb (Ascii.eqb c space && Ascii.eqb space space) && nds (space :: t)).
    rewrite Ht. destruct (Ascii.eqb_spec c space); [contradiction | reflexivity].
  - change (nds ((c :: c2 :: r) ++ space :: t))
      with (negb (Ascii.eqb c space && Ascii.eqb c2 space)
            && nds ((c2 :: r) ++ space :: t)).
    rewrite IH by discriminate.
    destruct (Ascii.eqb_spec c space); [contradiction | reflexivity].
Qed.

Lemma nds_word r : nospace r -> nds r = true.
Proof.
  intros Hr. induction Hr as [|c r Hc Hr IH]; [reflexivity|].
  destruct r as [|c2 r]; [reflexivity|].
  change (nds (c :: c2 :: r))
    with (negb (Ascii.eqb c space && Ascii.eqb c2 space) && nds (c2 :: r)).
  rewrite IH. destruct (Ascii.eqb_spec c space); [contradiction | reflexivity].
Qed.

(** Words that are not empty, joined by single spaces. *)
Lemma nds_join rows :
  rows <> [] -> Forall (fun r => nospace r /\ r <> []) rows ->
  nds (join rows) = true
  /\ exists c t, join rows = c :: t /\ c <> space.
Proof.
  intros Hne Hall. induction Hall as [|r rows [Hr Hrne] Hall IH]; [contradiction|].
  assert (Hhead : exists c t, r = c :: t /\ c <> space).
  { destruct r as [|c t]; [contradiction|]. exists c, t. split; [reflexivity|].
    now inversion Hr. }
  destruct rows as [|r' rows].
  - cbn [join]. split; [now apply nds_word | exact Hhead].
  - destruct IH as (Hn & c' & t' & Hj & Hc'); [discriminate|].
    change (join (r :: r' :: rows)) with (r ++ space :: join (r' :: rows)).
    split.
    + apply nds_word_sep; try assumption. rewrite Hj.
      change (nds (space :: c' :: t'))
        with (negb (Ascii.eqb space space && Ascii.eqb c' space) && nds (c' :: t')).
      rewrite <- Hj, Hn.
      destruct (Ascii.eqb_spec c' space); [contradiction | reflexivity].
    + destruct Hhead as (c & t & -> & Hc). exists c, (t ++ space :: join (r' :: rows)).
      split; [reflexivity | exact Hc].
Qed.

Lemma digit_nospace v : digit v <> space.
Proof. unfold digit. destruct (v =? 0); discriminate. Qed.

(** The processed string of two bits and a record cuts at its double
    space only. *)
Lemma separate_processed v0 v1 record :
  nds record = true ->
  _separate_string ([digit v0; space; digit v1] ++ lit "  " ++ record)
  = [[[digit v0]; [digit v1]]; split record].
Proof.
  intros Hn. unfold _separate_string.
  assert (E : split2 ([digit v0; space; digit v1] ++ lit "  " ++ record)
              = [[digit v0; space; digit v1]; record]).
  { change ([digit v0; space; digit v1] ++ lit "  " ++ record)
      with (digit v0 :: space :: digit v1 :: space :: space :: record).
    pose proof (digit_nospace v0) as H0. pose proof (digit_nospace v1) as H1.
    cbn [split2].
    destruct (Ascii.eqb_spec (digit v0) space); [contradiction|].
    destruct (Ascii.eqb_spec (digit v1) space); [contradiction|].
    rewrite Ascii.eqb_refl. cbn [andb].
    rewrite (split2_single record Hn). reflexivity. }
  rewrite E. cbn [map]. f_equal.
  pose proof (digit_nospace v0) as H0. pose proof (digit_nospace v1) as H1.
  cbn [split].
  destruct (Ascii.eqb_spec (digit v0) space); [contradiction|].
  destruct (Ascii.eqb_spec (digit v1) space); [contradiction|].
  rewrite Ascii.eqb_refl. reflexivity.
Qed.

Lemma raw_logicals_value self s f rest :
  1 <= SCC.d self -> split s = f :: rest -> bits (SCC.d self ^ 2) f ->
  string2raw_logicals self s
  = ret [digit (fst (raw_values self f)); space; digit (snd (raw_values self f))].
Proof.
  intros Hd Hsplit Hf. apply bits_rev in Hf.
  unfold string2raw_logicals, raw_values.
  rewrite Hsplit, getitem_head. cbn [bind ret]. cbv zeta.
  destruct (str_eqb (SCC.basis self) (lit "z")).
  - rewrite (raw_loop _ _ (fun j => j) (fun j => SCC.d self ^ 2 - 1 - j) _ Hf).
    2:{ intros j Hj. apply In_range2 in Hj. nia. }
    cbn [bind ret fst snd].
    rewrite !str_of_bit_value by apply parity_on_bit. reflexivity.
  - rewrite (raw_loop _ _ (fun j => j * SCC.d self)
               (fun j => (j + 1) * SCC.d self - 1) _ Hf).
    2:{ intros j Hj. apply In_range2 in Hj. nia. }
    cbn [bind ret fst snd].
    rewrite !str_of_bit_value by apply parity_on_bit. reflexivity.
Qed.

(** The processed string of a well-formed shot and its separation. *)
Lemma processed_shot self s :
  1 <= SCC.d self -> layout self -> fits self -> 1 <= SCC.T self ->
  well_formed self s -> inspected self <> [] ->
  exists f rest sl,
    split s = f :: rest
    /\ syndrome_list_of self s = ret sl
    /\ Z.of_nat (length sl) = SCC.T self + 1
    /\ Forall (bits (Z.of_nat (length (inspected self)))) sl
    /\ (forall t j, 0 <= t <= SCC.T self ->
          0 <= j < Z.of_nat (length (inspected self)) ->
          change_at self sl t j = ret (change_val self sl t j))
    /\ let record := join (change_rows self sl (SCC.T self + 1)
                             (Z.of_nat (length (inspected self)))) in
       let v := raw_values self f in
       _string2changes self s = ret record
       /\ _process_string self s
          = ret ([digit (fst v); space; digit (snd v)] ++ lit "  " ++ record)
       /\ _separate_string
            ([digit (fst v); space; digit (snd v)] ++ lit "  " ++ record)
          = [[[digit (fst v)]; [digit (snd v)]];
             change_rows self sl (SCC.T self + 1)
               (Z.of_nat (length (inspected self)))].
Proof.
  intros Hd Hlay Hfit HT Hwf Hne.
  destruct (string2changes_rows self s Hlay Hfit HT Hwf)
    as (sl & Hsl & Hlen & Hall & Hrec & Hrounds & Hch).
  pose proof Hwf as (f & rest & Hsplit & Hf & _).
  exists f, rest, sl.
  split; [exact Hsplit|]. split; [exact Hsl|]. split; [exact Hlen|].
  split; [exact Hall|]. split; [exact Hch|]. cbv zeta.
  split; [exact Hrec|].
  assert (Hw : 1 <= Z.of_nat (length (inspected self))).
  { destruct (inspected self); [contradiction | cbn [length]; lia]. }
  destruct (change_rows_shape self sl (SCC.T self + 1)
              (Z.of_nat (length (inspected self)))) as [Hrl Hrb]; [lia | lia |].
  split.
  - unfold _process_string.
    rewrite (raw_logicals_value self s f rest Hd Hsplit Hf), Hrec.
    reflexivity.
  - rewrite separate_processed;
      [unfold rounds_of in Hrounds; now rewrite Hrounds|].
    apply nds_join.
    + intros He. rewrite He in Hrl. cbn [length] in Hrl. lia.
    + eapply Forall_impl; [|exact Hrb]. intros r Hr.
      split; [eapply bits_nospace; eauto|].
      destruct Hr as [Hl _]. intros ->. cbn [length] in Hl. lia.
Qed.

(** X8: on a well-formed shot of a basis with plaquettes,
    [_separate_string] undoes the formatting of [_process_string]: it
    yields two groups, the two raw logical bits and the rounds of the
    detection record, of which there are [T+1]. *)
Theorem separate_undoes_process (self : SCC.t) (s : str) :
  1 <= SCC.d self -> layout self -> fits self -> 1 <= SCC.T self ->
  well_formed self s -> inspected self <> [] ->
  exists processed logicals record,
    _process_string self s = ret processed
    /\ string2raw_logicals self s = ret logicals
    /\ _string2changes self s = ret record
    /\ processed = logicals ++ lit "  " ++ record
    /\ _separate_string processed = [split logicals; rounds_of record]
    /\ length (split logicals) = 2%nat
    /\ Z.of_nat (length (rounds_of record)) = SCC.T self + 1.
Proof.
  intros Hd Hlay Hfit HT Hwf Hne.
  destruct (processed_shot self s Hd Hlay Hfit HT Hwf Hne)
    as (f & rest & sl & Hsplit & Hsl & Hlen & Hall & Hch & Hrec & Hproc & Hsep).
  cbv zeta in Hrec, Hproc, Hsep.
  pose proof Hwf as (f' & rest' & Hsplit' & Hf & _).
  rewrite Hsplit in Hsplit'. injection Hsplit' as <- <-.
  eexists. eexists. eexists.
  split; [exact Hproc|].
  split; [exact (raw_logicals_value self s f rest Hd Hsplit Hf)|].
  split; [exact Hrec|]. split; [reflexivity|].
  assert (Hsp : forall a b, split [digit a; space; digit b] = [[digit a]; [digit b]]).
  { intros a b. pose proof (digit_nospace a). pose proof (digit_nospace b).
    cbn [split].
    destruct (Ascii.eqb_spec (digit a) space); [contradiction|].
    destruct (Ascii.eqb_spec (digit b) space); [contradiction|].
    now rewrite Ascii.eqb_refl. }
  rewrite Hsp. split; [|split; [reflexivity|]].
  - rewrite Hsep. f_equal. f_equal.
    destruct (string2changes_rows self s Hlay Hfit HT Hwf)
      as (sl' & Hsl' & _ & _ & _ & Hrounds & _).
    rewrite Hsl in Hsl'. apply ret_inj in Hsl'. subst sl'.
    now rewrite Hrounds.
  - destruct (string2changes_rows self s Hlay Hfit HT Hwf)
      as (sl' & Hsl' & _ & _ & _ & Hrounds & _).
    rewrite Hsl in Hsl'. apply ret_inj in Hsl'. subst sl'.
    rewrite Hrounds. apply change_rows_shape; lia.
Qed.

Lemma separate_undoes_process_witness :
  1 <= SCC.d self_r1 /\ layout self_r1 /\ fits self_r1 /\ 1 <= SCC.T self_r1
  /\ well_formed self_r1 shot_r1 /\ inspected self_r1 <> []
  /\ exists processed,
       _process_string self_r1 shot_r1 = ret processed
       /\ length (_separate_string processed) = 2%nat.
Proof.
  assert (H0 : 1 <= SCC.d self_r1) by (cbn; lia).
  assert (H1 : layout self_r1) by by_computation.
  assert (H2 : fits self_r1) by by_computation.
  assert (H3 : 1 <= SCC.T self_r1) by (cbn; lia).
  assert (H4 : well_formed self_r1 shot_r1)
    by shot_concrete "000000001"%string ["0000"; "0000"]%string.
  assert (H5 : inspected self_r1 <> []) by (vm_compute; discriminate).
  repeat (split; [assumption|]).
  destruct (separate_undoes_process self_r1 shot_r1 H0 H1 H2 H3 H4 H5)
    as (p & l & r & Hp & _ & _ & _ & Hsep & _).
  exists p. split; [exact Hp|]. now rewrite Hsep.
Defined.

(** ** Further properties: [string2nodes] *)

Lemma range2_shift lo hi :
  range2 (lo + 1) (hi + 1) = map (fun v => v + 1) (range2 lo hi).
Proof.
  unfold range2. rewrite map_map.
  replace (hi + 1 - (lo + 1)) with (hi - lo) by lia.
  apply map_ext. intros; lia.
Qed.

Lemma rev_map_range {A} (g : Z -> A) n :
  rev (map g (range (Z.of_nat n)))
  = map (fun e => g (Z.of_nat n - 1 - e)) (range (Z.of_nat n)).
Proof.
  revert g. induction n as [|n IH]; intros g; [reflexivity|].
  unfold range in *.
  transitivity (g (Z.of_nat n) :: rev (map g (range2 0 (Z.of_nat n)))).
  - rewrite (range2_snoc 0 (Z.of_nat (S n))) by lia.
    replace (Z.of_nat (S n) - 1) with (Z.of_nat n) by lia.
    now rewrite map_app, rev_app_distr.
  - rewrite IH.
    rewrite (range2_cons 0 (Z.of_nat (S n))) by lia. cbn [map].
    f_equal; [f_equal; lia|].
    replace (Z.of_nat (S n)) with (Z.of_nat n + 1) by lia.
    rewrite (range2_shift 0 (Z.of_nat n)), map_map.
    apply map_ext. intros e. f_equal. lia.
Qed.

Lemma combine_map_self {A B} (g : A -> B) (l : list A) :
  combine l (map g l) = map (fun a => (a, g a)) l.
Proof. induction l as [|a l IH]; cbn [map combine]; now rewrite ?IH. Qed.

Lemma enumerate_map_range {A} (g : Z -> A) w :
  0 <= w -> enumerate (map g (range w)) = map (fun e => (e, g e)) (range w).
Proof.
  intros Hw. unfold enumerate. rewrite length_map, range_length by lia.
  apply combine_map_self.
Qed.

(** A loop whose every step appends a list that depends on the element
    alone. *)
Lemma for_each_appending {A B} (l : list A)
    (body : list B -> A -> result (list B)) (F : A -> list B) nodes :
  (forall a nodes, In a l -> body nodes a = ret (nodes ++ F a)) ->
  for_each l body nodes = ret (nodes ++ flat_map F l).
Proof.
  revert nodes. induction l as [|a l IH]; intros nodes H; cbn [for_each flat_map].
  - now rewrite app_nil_r.
  - rewrite (H a nodes (or_introl eq_refl)). cbn [bind ret].
    rewrite IH by (intros b n Hb; apply H; now right).
    now rewrite <- app_assoc.
Qed.

Lemma getitem_map_nth {A B} (g : A -> B) (l : list A) (dflt : A) e :
  0 <= e < Z.of_nat (length l) ->
  getitem (map g l) e = ret (g (nth (Z.to_nat e) l dflt)).
Proof.
  intros He. destruct (getitem_nonneg (map g l) e) as (b & Hb & Hn).
  { rewrite length_map. lia. }
  rewrite Hb. f_equal. rewrite nth_error_map in Hn.
  destruct (nth_error l (Z.to_nat e)) as [a|] eqn:Ha; [|discriminate].
  cbn [option_map] in Hn. injection Hn as <-. f_equal.
  symmetry. now apply nth_error_nth.
Qed.

Lemma for_each_map {A B S} (h : A -> B) (l : list A)
    (body : S -> B -> result S) s :
  for_each (map h l) body s = for_each l (fun s a => body s (h a)) s.
Proof.
  revert s. induction l as [|a l IH]; intros s; cbn [map for_each]; [reflexivity|].
  destruct (body s (h a)); cbn [bind]; [apply IH | reflexivity].
Qed.

Lemma flag_is_one b : Ascii.eqb (flag b) "1" = b.
Proof. now destruct b. Qed.

(** The nodes of one round of the record. *)
Lemma round_nodes_of_row self sl t nodes :
  SCC.basis self = lit "x" \/ SCC.basis self = lit "z" ->
  let w := Z.of_nat (length (inspected self)) in
  round_nodes self t (map (fun j => flag (change_val self sl t j)) (range w)) nodes
  = ret (nodes
         ++ flat_map
              (fun e =>
                 if change_val self sl t (w - 1 - e)
                 then [Node t (present (nth (Z.to_nat e) (inspected self) []))
                         false e]
                 else [])
              (range w)).
Proof.
  intros Hb w. unfold round_nodes. subst w.
  rewrite rev_map_range, enumerate_map_range, for_each_map by lia.
  set (w := Z.of_nat (length (inspected self))).
  rewrite (for_each_ext_in _ _
    (fun nodes e =>
       ret (nodes ++ (if change_val self sl t (w - 1 - e)
                      then [Node t (present (nth (Z.to_nat e) (inspected self) []))
                              false e]
                      else [])))).
  - rewrite for_each_pure. f_equal.
    generalize (range w) as l. intros l. revert nodes.
    induction l as [|e l IH]; intros nodes; cbn [fold_left flat_map].
    + now rewrite app_nil_r.
    + rewrite IH. now rewrite <- app_assoc.
  - intros nds0 e He. apply In_range2 in He. cbv zeta. cbn [fst snd].
    rewrite flag_is_one.
    destruct (change_val self sl t (w - 1 - e)); [|now rewrite app_nil_r].
    assert (Hops : (if str_eqb (SCC.basis self) (lit "x")
                    then getitem (css_x_stabilizer_ops self) e
                    else getitem (css_z_stabilizer_ops self) e)
                   = ret (present (nth (Z.to_nat e) (inspected self) []))).
    { unfold css_x_stabilizer_ops, css_x_gauge_ops, css_z_stabilizer_ops,
        css_z_gauge_ops. subst w. unfold inspected in *.
      destruct Hb as [Hb | Hb]; rewrite Hb in *.
      - change (str_eqb (lit "x") (lit "x")) with true.
        change (str_eqb (lit "x") (lit "z")) with false in *. cbv iota in *.
        now apply getitem_map_nth.
      - change (str_eqb (lit "z") (lit "x")) with false.
        change (str_eqb (lit "z") (lit "z")) with true in *. cbv iota in *.
        now apply getitem_map_nth. }
    rewrite Hops. reflexivity.
Qed.

Lemma getitem_map_range {A} (g : Z -> A) h t :
  0 <= t < h -> getitem (map g (range h)) t = ret (g t).
Proof.
  intros Ht. destruct (getitem_nonneg (map g (range h)) t) as (a & Ha & Hn).
  { rewrite length_map, range_length; lia. }
  rewrite Ha. rewrite nth_error_map, (range_nth h t Ht) in Hn.
  cbn [option_map] in Hn. now injection Hn as <-.
Qed.

Lemma logicals_lookup self :
  logicals_stored self ->
  SCC.basis self = lit "x" \/ SCC.basis self = lit "z" ->
  _logicals self (SCC.basis self) = ret (basis_supports self).
Proof.
  intros [Hx Hz] [Hb | Hb]; unfold _logicals, basis_supports; rewrite Hb.
  - change (str_eqb (lit "x") (lit "x")) with true.
    change (str_eqb (lit "x") (lit "z")) with false. cbv iota. now rewrite Hx.
  - change (str_eqb (lit "z") (lit "x")) with false.
    change (str_eqb (lit "z") (lit "z")) with true. cbv iota. now rewrite Hz.
Qed.

Lemma basis_supports_pair self :
  exists a b, basis_supports self = [a; b]
              /\ support (basis_supports self) 0 = a
              /\ support (basis_supports self) 1 = b.
Proof.
  unfold basis_supports, logicals_z, logicals_x.
  destruct (str_eqb _ _); eexists; eexists; repeat split.
Qed.

Lemma boundary_nodes_of self f logical all_logicals :
  logicals_stored self ->
  SCC.basis self = lit "x" \/ SCC.basis self = lit "z" ->
  let v := raw_values self f in
  boundary_nodes self [[digit (fst v)]; [digit (snd v)]] logical all_logicals []
  = ret (boundary_of self f logical all_logicals).
Proof.
  intros Hst Hb v. unfold boundary_nodes, boundary_of. fold v.
  change (enumerate (rev [[digit (fst v)]; [digit (snd v)]]))
    with [(0, [digit (snd v)]); (1, [digit (fst v)])].
  cbn [for_each fst snd]. cbv zeta.
  rewrite (logicals_lookup self Hst Hb).
  destruct (basis_supports_pair self) as (a & b & Hab & Ha & Hb').
  rewrite Ha, Hb', Hab.
  change (getitem [a; b] (- 0 - 1)) with (ret (A := list Z) b).
  change (getitem [a; b] (- 1 - 1)) with (ret (A := list Z) a).
  destruct (all_logicals || negb (str_eqb [digit (snd v)] logical));
    destruct (all_logicals || negb (str_eqb [digit (fst v)] logical));
    reflexivity.
Qed.

(** [string2nodes] on a well-formed shot, in closed form. *)
Lemma string2nodes_on_well_formed (self : SCC.t) (s logical : str)
    (all_logicals : bool) :
  1 <= SCC.d self -> layout self -> logicals_stored self -> fits self ->
  1 <= SCC.T self -> well_formed self s -> inspected self <> [] ->
  SCC.basis self = lit "x" \/ SCC.basis self = lit "z" ->
  exists f rest sl,
    split s = f :: rest
    /\ syndrome_list_of self s = ret sl
    /\ string2nodes self s logical all_logicals
       = ret (boundary_of self f logical all_logicals ++ bulk_of self sl).
Proof.
  intros Hd Hlay Hst Hfit HT Hwf Hne Hb.
  destruct (processed_shot self s Hd Hlay Hfit HT Hwf Hne)
    as (f & rest & sl & Hsplit & Hsl & Hlen & Hall & Hch & Hrec & Hproc & Hsep).
  cbv zeta in Hrec, Hproc, Hsep.
  exists f, rest, sl. split; [exact Hsplit|]. split; [exact Hsl|].
  unfold string2nodes. rewrite Hproc. cbn [bind ret]. cbv zeta.
  rewrite Hsep, getitem_head. cbn [bind ret].
  rewrite (boundary_nodes_of self f logical all_logicals Hst Hb).
  cbn [bind ret]. unfold bulk_nodes. cbn [length].
  change (range2 1 (Z.of_nat 2)) with [1]. cbn [for_each].
  set (rows := change_rows self sl (SCC.T self + 1)
                 (Z.of_nat (length (inspected self)))).
  set (sep := [[[digit (fst (raw_values self f))];
                [digit (snd (raw_values self f))]]; rows]).
  assert (Hg : getitem (A := list str) sep 1 = ret rows) by reflexivity.
  rewrite Hg. cbn [bind ret].
  assert (Hrl : Z.of_nat (length rows) = SCC.T self + 1).
  { apply change_rows_shape; lia. }
  rewrite Hrl.
  rewrite (for_each_appending (range (SCC.T self + 1)) _
             (fun t =>
                flat_map
                  (fun e =>
                     if change_val self sl t
                          (Z.of_nat (length (inspected self)) - 1 - e)
                     then [Node t (present (nth (Z.to_nat e) (inspected self) []))
                             false e]
                     else [])
                  (range (Z.of_nat (length (inspected self)))))).
  - cbn [bind ret]. reflexivity.
  - intros t nodes Ht. apply In_range2 in Ht.
    unfold rows, change_rows.
    rewrite getitem_map_range by lia. cbn [bind ret].
    apply (round_nodes_of_row self sl t nodes Hb).
Qed.

(** X9: on a well-formed shot of a basis ["x"] or ["z"] with plaquettes,
    [string2nodes] returns the boundary nodes followed by the bulk nodes.
    Boundary node 0 carries the second support and is present iff
    [all_logicals] or the second raw bit differs from [logical]; boundary
    node 1 likewise for the first support and bit.  There is one bulk
    node for every round [t] and plaquette [e] whose change flag (the
    character at position [width-1-e] of round [t]) is set; it carries
    the present qubits of plaquette [e] of the inspected list. *)
Theorem nodes_of_well_formed_shot (self : SCC.t) (s logical : str)
    (all_logicals : bool) :
  1 <= SCC.d self -> layout self -> logicals_stored self -> fits self ->
  1 <= SCC.T self -> well_formed self s -> inspected self <> [] ->
  SCC.basis self = lit "x" \/ SCC.basis self = lit "z" ->
  exists f rest sl,
    split s = f :: rest
    /\ syndrome_list_of self s = ret sl
    /\ string2nodes self s logical all_logicals
       = ret (boundary_of self f logical all_logicals ++ bulk_of self sl).
Proof.
  intros Hd Hlay Hst Hfit HT Hwf Hne Hb.
  now apply string2nodes_on_well_formed.
Qed.

Lemma nodes_of_well_formed_shot_witness :
  1 <= SCC.d self_r1 /\ layout self_r1 /\ logicals_stored self_r1
  /\ fits self_r1 /\ 1 <= SCC.T self_r1 /\ well_formed self_r1 shot_r1
  /\ inspected self_r1 <> []
  /\ (SCC.basis self_r1 = lit "x" \/ SCC.basis self_r1 = lit "z")
  /\ string2nodes self_r1 shot_r1 (lit "0") false
     = ret [Node 0 [0; 1; 2] true 1; Node 1 [0; 3] false 0].
Proof.
  assert (H0 : 1 <= SCC.d self_r1) by (cbn; lia).
  assert (H1 : layout self_r1) by by_computation.
  assert (Hs : logicals_stored self_r1) by (split; by_computation).
  assert (H2 : fits self_r1) by by_computation.
  assert (H3 : 1 <= SCC.T self_r1) by (cbn; lia).
  assert (H4 : well_formed self_r1 shot_r1)
    by shot_concrete "000000001"%string ["0000"; "0000"]%string.
  assert (H5 : inspected self_r1 <> []) by (vm_compute; discriminate).
  assert (H6 : SCC.basis self_r1 = lit "x" \/ SCC.basis self_r1 = lit "z")
    by (right; reflexivity).
  repeat (split; [assumption|]).
  destruct (nodes_of_well_formed_shot self_r1 shot_r1 (lit "0") false
              H0 H1 Hs H2 H3 H4 H5 H6) as (f & rest & sl & Hf & Hsl & Hn).
  assert (Hf0 : split shot_r1 = [lit "000000001"; lit "0000"; lit "0000"])
    by by_computation.
  rewrite Hf0 in Hf. injection Hf as Hf Hrest. subst f rest.
  assert (Hs0 : syndrome_list_of self_r1 shot_r1 = ret [lit "0001"; lit "0000"])
    by by_computation.
  rewrite Hs0 in Hsl. apply ret_inj in Hsl. subst sl.
  rewrite Hn. by_computation.
Defined.

(** ** A preparation basis without logical supports *)

Lemma str_eqb_neq a b : a <> b -> str_eqb a b = false.
Proof. intros H. unfold str_eqb. destruct (list_eq_dec ascii_dec a b); congruence. Qed.

Lemma logicals_missing self :
  SCC.basis self <> lit "x" -> SCC.basis self <> lit "z" ->
  _logicals self (SCC.basis self) = raise KeyError.
Proof.
  intros Hx Hz. unfold _logicals.
  now rewrite (str_eqb_neq _ _ Hx), (str_eqb_neq _ _ Hz).
Qed.

(** X10: the constructor accepts every basis, but the dictionary
    [_logicals] has the keys ["x"] and ["z"] only.  For any other basis
    [string2nodes] raises [KeyError] on a well-formed shot as soon as a
    boundary node is due: when [all_logicals] is set or one of the two
    raw logical bits differs from [logical]. *)
Theorem unknown_basis_raises_key_error (self : SCC.t) (s f : str)
    (rest : list str) (logical : str) (all_logicals : bool) :
  1 <= SCC.d self -> layout self -> fits self -> 1 <= SCC.T self ->
  well_formed self s -> inspected self <> [] ->
  split s = f :: rest ->
  SCC.basis self <> lit "x" -> SCC.basis self <> lit "z" ->
  (let v := raw_values self f in
   all_logicals || negb (str_eqb [digit (snd v)] logical)
   || negb (str_eqb [digit (fst v)] logical) = true) ->
  string2nodes self s logical all_logicals = raise KeyError.
Proof.
  intros Hd Hlay Hfit HT Hwf Hne Hsplit Hx Hz Hdue.
  destruct (processed_shot self s Hd Hlay Hfit HT Hwf Hne)
    as (f' & rest' & sl & Hsplit' & _ & _ & _ & _ & _ & Hproc & Hsep).
  rewrite Hsplit in Hsplit'. injection Hsplit' as <- <-.
  cbv zeta in Hproc, Hsep, Hdue.
  unfold string2nodes. rewrite Hproc. cbn [bind ret]. cbv zeta.
  rewrite Hsep, getitem_head. cbn [bind ret].
  unfold boundary_nodes.
  set (v := raw_values self f) in *.
  change (enumerate (rev [[digit (fst v)]; [digit (snd v)]]))
    with [(0, [digit (snd v)]); (1, [digit (fst v)])].
  cbn [for_each fst snd]. cbv zeta.
  rewrite (logicals_missing self Hx Hz).
  destruct (all_logicals || negb (str_eqb [digit (snd v)] logical)) eqn:E0;
    [reflexivity|].
  cbn [orb] in Hdue. cbn [bind ret].
  destruct (all_logicals || negb (str_eqb [digit (fst v)] logical)) eqn:E1;
    [reflexivity|].
  apply orb_false_iff in E1 as [_ E1]. congruence.
Qed.

Lemma unknown_basis_raises_key_error_witness :
  1 <= SCC.d self_y1 /\ layout self_y1 /\ fits self_y1 /\ 1 <= SCC.T self_y1
  /\ well_formed self_y1 shot_r1 /\ inspected self_y1 <> []
  /\ SCC.basis self_y1 <> lit "x" /\ SCC.basis self_y1 <> lit "z"
  /\ string2nodes self_y1 shot_r1 (lit "0") false = raise KeyError.
Proof.
  assert (H0 : 1 <= SCC.d self_y1) by (cbn; lia).
  assert (H1 : layout self_y1) by by_computation.
  assert (H2 : fits self_y1) by by_computation.
  assert (H3 : 1 <= SCC.T self_y1) by (cbn; lia).
  assert (H4 : well_formed self_y1 shot_r1)
    by shot_concrete "000000001"%string ["0000"; "0000"]%string.
  assert (H5 : inspected self_y1 <> []) by (vm_compute; discriminate).
  assert (H6 : SCC.basis self_y1 <> lit "x") by (vm_compute; discriminate).
  assert (H7 : SCC.basis self_y1 <> lit "z") by (vm_compute; discriminate).
  repeat (split; [assumption|]).
  apply (unknown_basis_raises_key_error self_y1 shot_r1 (lit "000000001")
           [lit "0000"; lit "0000"] (lit "0") false H0 H1 H2 H3 H4 H5);
    [by_computation | exact H6 | exact H7 | by_computation].
Defined.

(** ** The constructor and the decoder together *)

(** A property of the object that neither appending a gate, nor counting
    a round, nor adding a classical register changes, holds of whatever
    the emission methods return. *)
Section Frame.

Variable P : SCC.t -> Prop.
Hypothesis P_emit : forall log ins s, P s -> P (SCC.emit log ins s).
Hypothesis P_set_T : forall v s, P s -> P (SCC.set_T v s).
Hypothesis P_set_bits : forall xb zb s, P s -> P (SCC.set_bits xb zb s).

Ltac frame_step :=
  lazymatch goal with
  | |- post _ (ret _) => apply post_ret
  | |- post _ (bind (getitem _ _) _) =>
      eapply post_bind; [apply post_any | intros ? _]
  | |- post _ (bind (reg_getitem _ _) _) =>
      eapply post_bind; [apply post_any | intros ? _]
  | |- post _ (bind (h_all _) _) =>
      eapply post_bind; [apply post_any | intros ? _]
  | |- post _ (for_each _ _ _) => apply post_for_each; [|intros ? ? ?]
  | |- post _ (bind (for_each _ _ _) _) => apply (post_bind P); [|intros ? ?]
  | |- post _ (bind (if ?b then _ else _) _) =>
      apply (post_bind P); [destruct b|intros ? ?]
  | |- post _ (if ?b then _ else _) => destruct b
  | |- post _ (match ?o with Some _ => _ | None => _ end) => destruct o
  | |- P (SCC.emit _ _ _) => apply P_emit
  | |- P (if ?b then _ else _) => destruct b
  | |- P _ => assumption
  end.

Lemma x_frame logs barrier self : P self -> post P (x logs barrier self).
Proof. intros H. unfold x. repeat frame_step. Qed.

Lemma z_frame logs barrier self : P self -> post P (z logs barrier self).
Proof. intros H. unfold z. repeat frame_step. Qed.

Lemma preparation_frame self : P self -> post P (_preparation self).
Proof.
  intros H. unfold _preparation. destruct (str_eqb _ _).
  - now apply x_frame.
  - apply (post_bind P); [repeat frame_step | intros s Hs; now apply z_frame].
Qed.

Lemma entangle_frame log plaqs j mk self :
  P self -> post P (entangle log plaqs j mk self).
Proof.
  intros H. unfold entangle. frame_step; [exact H|].
  frame_step. frame_step; [|frame_step; assumption].
  eapply post_bind; [apply post_any | intros ? _].
  repeat frame_step.
Qed.

Lemma syndrome_measurement_frame final barrier self :
  P self -> post P (syndrome_measurement final barrier self).
Proof.
  intros H. unfold syndrome_measurement. cbv zeta.
  apply (post_bind P).
  - frame_step; [now apply P_set_bits|].
    do 3 frame_step.
    apply (post_bind P).
    { frame_step; [repeat frame_step|].
      apply (post_bind P); [now apply entangle_frame | intros ? ?].
      now apply entangle_frame. }
    intros s1 Hs1. frame_step.
    apply (post_bind P).
    { frame_step; [repeat frame_step|]. repeat frame_step. }
    intros s2 Hs2. repeat frame_step.
  - intros s Hs. apply post_ret. now apply P_set_T.
Qed.

Lemma readout_frame self : P self -> post P (readout self).
Proof.
  intros H. unfold readout. frame_step; [exact H|].
  cbv zeta. repeat frame_step.
Qed.

Lemma init_frame d T basis resets :
  P (attributes d basis resets) -> post P (__init__ d T basis resets).
Proof.
  intros H. unfold __init__. cbv zeta.
  apply (post_bind P); [now apply preparation_frame | intros s0 Hs0].
  apply (post_bind P).
  { apply post_for_each; [exact Hs0|]. intros s _ Hs.
    now apply syndrome_measurement_frame. }
  intros s1 Hs1. destruct (negb _); [|now apply post_ret].
  apply (post_bind P); [now apply syndrome_measurement_frame | intros s2 Hs2].
  now apply readout_frame.
Qed.

End Frame.

(** The constructed object still carries the logical supports of its
    distance. *)
Lemma constructed_logicals d T basis resets self :
  __init__ d T basis resets = ret self -> logicals_stored self.
Proof.
  intros Hinit.
  pose (P := fun s : SCC.t =>
               SCC.d s = d /\ SCC._logicals_x s = logicals_x d
               /\ SCC._logicals_z s = logicals_z d).
  assert (Hpost : post P (__init__ d T basis resets)).
  { apply init_frame.
    - intros log ins s Hs. destruct log; exact Hs.
    - intros v s Hs. exact Hs.
    - intros xb zb s Hs. exact Hs.
    - repeat split. }
  rewrite Hinit in Hpost. destruct Hpost as (Hd & Hx & Hz).
  unfold logicals_stored. now rewrite Hd.
Qed.

(** X11: for odd [d >= 3], [T >= 1] and a basis ["x"] or ["z"] the
    constructor returns an object, and on that object [string2nodes]
    decodes every well-formed shot, for every [logical] and
    [all_logicals], without raising. *)
Theorem constructed_object_decodes (d T : Z) (basis : str) (resets : bool) :
  3 <= d -> Z.odd d = true -> 1 <= T ->
  basis = lit "x" \/ basis = lit "z" ->
  exists self,
    __init__ d T basis resets = ret self
    /\ SCC.d self = d /\ SCC.T self = T
    /\ forall s logical all_logicals,
         well_formed self s ->
         exists nodes, string2nodes self s logical all_logicals = ret nodes.
Proof.
  intros Hd Hodd HT Hb.
  assert (Hd1 : 1 <= d) by lia.
  destruct (construction_succeeds_odd d Hd Hodd T basis resets) as (self & Hinit).
  exists self. split; [exact Hinit|].
  destruct (constructed_object d T basis resets self HT Hinit)
    as (Hlay & Hds & HTs & Hbs & _).
  destruct (constructed_object_fits d T basis resets self Hd1 Hodd HT Hinit)
    as (_ & Hfit & _).
  pose proof (constructed_logicals d T basis resets self Hinit) as Hst.
  split; [exact Hds|]. split; [exact HTs|].
  intros s logical all_logicals Hwf.
  assert (Hne : inspected self <> []).
  { intros E. unfold fits in Hfit. rewrite E, Hds in Hfit. cbn [length] in Hfit.
    pose proof (num_xy_positive d Hd). lia. }
  destruct (string2nodes_on_well_formed self s logical all_logicals)
    as (f & rest & sl & _ & _ & Hn); try assumption; try lia.
  - now rewrite Hbs.
  - eexists. exact Hn.
Qed.

Lemma constructed_object_decodes_witness :
  exists self,
    __init__ 3 1 (lit "z") true = ret self
    /\ SCC.d self = 3 /\ SCC.T self = 1
    /\ forall s logical all_logicals,
         well_formed self s ->
         exists nodes, string2nodes self s logical all_logicals = ret nodes.
Proof.
  apply (constructed_object_decodes 3 1 (lit "z") true);
    [lia | reflexivity | lia | right; reflexivity].
Defined.

(** ** The shot without a flip *)

Lemma bit_at_zeros w i : zeros w -> bit_at w i = 0.
Proof.
  intros Hw. unfold bit_at. destruct (getitem w i) as [c|e] eqn:E; [|reflexivity].
  apply getitem_In in E. unfold zeros in Hw. rewrite Forall_forall in Hw.
  now rewrite (Hw c E).
Qed.

Lemma parity_on_zeros w sup : zeros w -> parity_on w sup = 0.
Proof.
  intros Hw. unfold parity_on.
  assert (H : fold_right Z.add 0 (map (bit_at w) sup) = 0).
  { induction sup as [|q sup IH]; [reflexivity|].
    cbn [map fold_right]. rewrite IH, bit_at_zeros by exact Hw. reflexivity. }
  now rewrite H.
Qed.

Lemma zeros_rev w : zeros w -> zeros (rev w).
Proof.
  unfold zeros. rewrite !Forall_forall. intros H c Hc. apply H. now apply in_rev.
Qed.

(** The syndrome list of a well-formed shot, written out: the parities
    of the inspected plaquettes in the final readout, last plaquette
    first, then the ancilla fields of the inspected type. *)
Lemma syndrome_list_explicit self s f rest :
  layout self -> fits self -> 1 <= SCC.T self -> well_formed self s ->
  split s = f :: rest ->
  syndrome_list_of self s
  = ret (rev (map (fun plaq => digit (parity_on (rev f) (present plaq)))
                  (inspected self))
         :: stride2 (skipn (if str_eqb (SCC.basis self) (lit "z")
                            then 2%nat else 1%nat) (f :: rest))).
Proof.
  intros Hlay Hfit HT (f' & rest' & Hsplit' & Hf & Hlen & Hrest) Hsplit.
  rewrite Hsplit in Hsplit'. injection Hsplit' as <- <-.
  unfold syndrome_list_of. rewrite Hsplit, getitem_head. cbn [bind ret].
  rewrite (final_syndrome_parities (SCC.d self ^ 2)).
  2:{ now apply bits_rev. }
  2:{ intros plaq q Hp Hq. eapply plaquette_range; [|exact Hq].
      now apply inspected_layout. }
  cbn [bind ret].
  set (fs := rev (map _ (inspected self))).
  set (k := if str_eqb (SCC.basis self) (lit "z") then 2%nat else 1%nat).
  assert (Hk : (k = 1 \/ k = 2)%nat) by (subst k; destruct (str_eqb _ _); auto).
  destruct (selected_fields f rest k (Z.to_nat (SCC.T self))
              (bits (_num_xy (SCC.d self)))) as [Hn Hall];
    [lia | exact Hrest | exact Hk |].
  assert (Hfs : nospace fs).
  { unfold nospace. apply Forall_forall. intros c Hc. subst fs.
    apply in_rev, in_map_iff in Hc. destruct Hc as (plaq & <- & _).
    apply digit_nospace. }
  assert (Hgoal : split (fs ++ lit " " ++ join (stride2 (skipn k (f :: rest))))
                  = fs :: stride2 (skipn k (f :: rest))).
  { change (lit " " ++ ?x) with (space :: x).
    rewrite split_word by exact Hfs.
    f_equal. apply split_join.
    - intros He. rewrite He in Hn. cbn [length] in Hn. lia.
    - eapply Forall_impl; [|exact Hall]. intros w. apply bits_nospace. }
  subst k. destruct (str_eqb (SCC.basis self) (lit "z")); now rewrite Hgoal.
Qed.

Lemma cell_zero (sl : list str) i j c :
  Forall zeros sl -> cell sl i j = ret c -> c = "0"%char.
Proof.
  intros Hall. unfold cell.
  destruct (getitem sl i) as [row|e] eqn:E; [|discriminate].
  cbn [bind]. intros Hc. apply getitem_In in E, Hc.
  rewrite Forall_forall in Hall. specialize (Hall row E).
  unfold zeros in Hall. rewrite Forall_forall in Hall. now apply Hall.
Qed.

Ltac read_cells Hall E :=
  repeat match type of E with
         | context [cell ?sl ?i ?j] =>
             let C := fresh "C" in
             destruct (cell sl i j) as [?c|?e] eqn:C;
             [apply (cell_zero _ _ _ _ Hall) in C; subst | discriminate E];
             cbn [bind ret for_each] in E
         end.

(** No change is recorded between zeros. *)
Lemma change_zero self sl t j : Forall zeros sl -> change_val self sl t j = false.
Proof.
  intros Hall. unfold change_val.
  destruct (change_at self sl t j) as [b|e] eqn:E; [|reflexivity].
  unfold change_at in E. change (range 3) with [0; 1; 2] in E.
  cbn [for_each bind] in E.
  destruct (SCC._resets self); [destruct (t =? 0)|];
    [| |destruct (t <=? 1); [destruct (negb _)|destruct (t =? SCC.T self)]];
    read_cells Hall E; now injection E as <-.
Qed.

Lemma flat_map_nil {A B} (f : A -> list B) l :
  (forall a, f a = []) -> flat_map f l = [].
Proof.
  intros H. induction l as [|a l IH]; [reflexivity|].
  cbn [flat_map]. now rewrite H, IH.
Qed.

(** X12: a well-formed shot whose fields are all zeros has the raw
    logical values ["0 0"] and, for [logical = "0"] without
    [all_logicals], no node at all: neither a boundary node nor a bulk
    node. *)
Theorem zero_shot_has_no_nodes (self : SCC.t) (s : str) :
  1 <= SCC.d self -> layout self -> logicals_stored self -> fits self ->
  1 <= SCC.T self -> well_formed self s -> inspected self <> [] ->
  SCC.basis self = lit "x" \/ SCC.basis self = lit "z" ->
  Forall zeros (split s) ->
  string2raw_logicals self s = ret (lit "0 0")
  /\ string2nodes self s (lit "0") false = ret [].
Proof.
  intros Hd Hlay Hst Hfit HT Hwf Hne Hb Hz.
  destruct (string2nodes_on_well_formed self s (lit "0") false
              Hd Hlay Hst Hfit HT Hwf Hne Hb) as (f & rest & sl & Hsplit & Hsl & Hn).
  pose proof Hwf as (f' & rest' & Hsplit' & Hf & _).
  rewrite Hsplit in Hsplit'. injection Hsplit' as <- <-.
  rewrite Hsplit in Hz.
  assert (Hfz : zeros (rev f)). { apply zeros_rev. now inversion Hz. }
  assert (Hv : raw_values self f = (0, 0)).
  { unfold raw_values. destruct (str_eqb _ _);
      now rewrite !parity_on_zeros by exact Hfz. }
  split.
  - rewrite (raw_logicals_value self s f rest Hd Hsplit Hf), Hv. reflexivity.
  - rewrite Hn. unfold boundary_of. rewrite Hv. cbn [fst snd].
    change (str_eqb [digit 0] (lit "0")) with true. cbn [negb orb app].
    assert (Hslz : Forall zeros sl).
    { rewrite (syndrome_list_explicit self s f rest Hlay Hfit HT Hwf Hsplit) in Hsl.
      apply ret_inj in Hsl. subst sl. constructor.
      - unfold zeros. apply Forall_forall. intros c Hc.
        apply in_rev, in_map_iff in Hc. destruct Hc as (plaq & <- & _).
        now rewrite parity_on_zeros by exact Hfz.
      - apply Forall_forall. intros w Hw. apply stride2_In in Hw.
        rewrite Forall_forall in Hz. apply Hz.
        destruct (str_eqb _ _); cbn [skipn] in Hw.
        + right. destruct rest; [contradiction | now right].
        + now right. }
    unfold bulk_of. cbv zeta. f_equal.
    apply flat_map_nil. intros t. apply flat_map_nil. intros e.
    now rewrite change_zero.
Qed.

Lemma zero_shot_has_no_nodes_witness :
  1 <= SCC.d self_r1 /\ layout self_r1 /\ logicals_stored self_r1
  /\ fits self_r1 /\ 1 <= SCC.T self_r1 /\ well_formed self_r1 shot_zero
  /\ inspected self_r1 <> []
  /\ (SCC.basis self_r1 = lit "x" \/ SCC.basis self_r1 = lit "z")
  /\ Forall zeros (split shot_zero)
  /\ string2raw_logicals self_r1 shot_zero = ret (lit "0 0")
  /\ string2nodes self_r1 shot_zero (lit "0") false = ret [].
Proof.
  assert (H0 : 1 <= SCC.d self_r1) by (cbn; lia).
  assert (H1 : layout self_r1) by by_computation.
  assert (Hs : logicals_stored self_r1) by (split; by_computation).
  assert (H2 : fits self_r1) by by_computation.
  assert (H3 : 1 <= SCC.T self_r1) by (cbn; lia).
  assert (H4 : well_formed self_r1 shot_zero)
    by shot_concrete "000000000"%string ["0000"; "0000"]%string.
  assert (H5 : inspected self_r1 <> []) by (vm_compute; discriminate).
  assert (H6 : SCC.basis self_r1 = lit "x" \/ SCC.basis self_r1 = lit "z")
    by (right; reflexivity).
  assert (H7 : Forall zeros (split shot_zero)).
  { assert (E : split shot_zero = [lit "000000000"; lit "0000"; lit "0000"])
      by by_computation.
    rewrite E. repeat constructor. }
  split; [exact H0|]. split; [exact H1|]. split; [exact Hs|].
  split; [exact H2|]. split; [exact H3|]. split; [exact H4|].
  split; [exact H5|]. split; [exact H6|]. split; [exact H7|].
  exact (zero_shot_has_no_nodes self_r1 shot_zero H0 H1 Hs H2 H3 H4 H5 H6 H7).
Defined.

(** ** The preparation and the stored logical supports *)

Lemma emit_nil log s : SCC.emit log [] s = s.
Proof.
  destruct s, log; unfold SCC.emit, SCC.set_circuits;
    cbn [SCC.d SCC.T SCC.basis SCC._resets SCC.zplaqs SCC.xplaqs
         SCC._logicals_x SCC._logicals_z SCC._num_xy SCC.code_qubit
         SCC.zplaq_qubit SCC.xplaq_qubit SCC.xplaq_bits SCC.zplaq_bits
         SCC.code_bit SCC.circuit0 SCC.circuit1];
    now rewrite app_nil_r.
Qed.

Lemma emit_emit log a b s :
  SCC.emit log b (SCC.emit log a s) = SCC.emit log (a ++ b) s.
Proof.
  destruct log; unfold SCC.emit, SCC.set_circuits;
    cbn [SCC.d SCC.T SCC.basis SCC._resets SCC.zplaqs SCC.xplaqs
         SCC._logicals_x SCC._logicals_z SCC._num_xy SCC.code_qubit
         SCC.zplaq_qubit SCC.xplaq_qubit SCC.xplaq_bits SCC.zplaq_bits
         SCC.code_bit SCC.circuit0 SCC.circuit1];
    now rewrite app_assoc.
Qed.

(** One gate per element of [l], on the code qubit that [idx] names. *)
Lemma gate_loop (gate : bitref -> instr) (idx : SCC.t -> Z -> Z) log l s :
  (forall acc j, idx (SCC.emit log acc s) j = idx s j) ->
  (forall j, In j l -> 0 <= idx s j < reg_size (SCC.code_qubit s)) ->
  for_each l
    (fun self j =>
       q <- reg_getitem (SCC.code_qubit self) (idx self j) ;;
       ret (SCC.emit log [gate q] self)) s
  = ret (SCC.emit log
           (map (fun j => gate (Bit (SCC.code_qubit s) (idx s j))) l) s).
Proof.
  intros Hidx Hin.
  assert (G : forall acc,
    for_each l
      (fun self j =>
         q <- reg_getitem (SCC.code_qubit self) (idx self j) ;;
         ret (SCC.emit log [gate q] self)) (SCC.emit log acc s)
    = ret (SCC.emit log
             (acc ++ map (fun j => gate (Bit (SCC.code_qubit s) (idx s j))) l)
             s)).
  { induction l as [|j l IH]; intros acc; cbn [for_each map].
    - now rewrite app_nil_r.
    - rewrite Hidx.
      replace (SCC.code_qubit (SCC.emit log acc s)) with (SCC.code_qubit s)
        by (destruct log; reflexivity).
      rewrite reg_getitem_inside by (apply Hin; now left).
      cbn [bind ret]. rewrite emit_emit, IH by (intros; apply Hin; now right).
      now rewrite <- app_assoc. }
  specialize (G []). now rewrite emit_nil in G.
Qed.

(** What [_preparation] appends, written out. *)
Lemma preparation_emits (self : SCC.t) :
  reg_size (SCC.code_qubit self) = SCC.d self ^ 2 ->
  logicals_stored self ->
  let cq := SCC.code_qubit self in
  let h := map GateH (reg_bits cq) in
  exists lx lz,
    css_x_logical self = ret lx
    /\ css_z_logical self = ret lz
    /\ _preparation self
       = if str_eqb (SCC.basis self) (lit "z")
         then ret (SCC.emit Log1 (map (fun q => GateX (Bit cq q)) lx) self)
         else if SCC.d self =? 0 then raise CircuitError
         else ret (SCC.emit Log1 (map (fun q => GateZ (Bit cq q)) lz)
                     (SCC.emit Log1 h (SCC.emit Log0 h self))).
Proof.
  intros Hreg [Hx Hz] cq h.
  exists (map (fun j => j * SCC.d self) (range (SCC.d self))),
         (map (fun j => j) (range (SCC.d self))).
  split; [|split].
  - unfold css_x_logical, _logicals.
    change (str_eqb (lit "x") (lit "x")) with true. cbn [bind ret].
    rewrite Hx. apply getitem_head.
  - unfold css_z_logical, _logicals.
    change (str_eqb (lit "z") (lit "x")) with false.
    change (str_eqb (lit "z") (lit "z")) with true. cbn [bind ret].
    rewrite Hz. apply getitem_head.
  - unfold _preparation. destruct (str_eqb (SCC.basis self) (lit "z")).
    + unfold x. cbn [for_each].
      rewrite (gate_loop GateX (fun s j => j * SCC.d s) Log1).
      * cbn [bind ret]. now rewrite map_map.
      * reflexivity.
      * intros j Hj. apply In_range2 in Hj. rewrite Hreg. nia.
    + cbn [for_each]. fold cq.
      destruct (Z.eqb_spec (SCC.d self) 0) as [Hd0 | Hd0].
      { rewrite h_all_empty by (unfold cq; rewrite Hreg, Hd0; reflexivity).
        reflexivity. }
      rewrite h_all_populated by (unfold cq; rewrite Hreg; nia).
      cbn [bind ret].
      change (SCC.code_qubit (SCC.emit Log0 (map GateH (reg_bits cq)) self))
        with cq.
      rewrite h_all_populated by (unfold cq; rewrite Hreg; nia).
      cbn [bind ret]. fold h. unfold z. cbn [for_each].
      set (s1 := SCC.emit Log1 h (SCC.emit Log0 h self)).
      rewrite (gate_loop GateZ (fun s j => j) Log1).
      * cbn [bind ret]. now rewrite map_map.
      * reflexivity.
      * intros j Hj. apply In_range2 in Hj.
        change (reg_size (SCC.code_qubit s1)) with (reg_size (SCC.code_qubit self)).
        change (SCC.d s1) with (SCC.d self) in Hj. rewrite Hreg. nia.
Qed.

(** X13: [_preparation] flips the stored logical.  For the basis ["z"]
    it appends to circuit ["1"] one X gate per qubit of [css_x_logical]
    and leaves circuit ["0"] alone; for any other basis it appends H on
    every code qubit to both circuits and then, to circuit ["1"], one Z
    gate per qubit of [css_z_logical], unless [d = 0]: then the code
    register is empty and the first H raises [CircuitError]. *)
Theorem preparation_flips_stored_logical (self : SCC.t) :
  reg_size (SCC.code_qubit self) = SCC.d self ^ 2 ->
  logicals_stored self ->
  let cq := SCC.code_qubit self in
  let h := map GateH (reg_bits cq) in
  exists lx lz,
    css_x_logical self = ret lx
    /\ css_z_logical self = ret lz
    /\ _preparation self
       = if str_eqb (SCC.basis self) (lit "z")
         then ret (SCC.emit Log1 (map (fun q => GateX (Bit cq q)) lx) self)
         else if SCC.d self =? 0 then raise CircuitError
         else ret (SCC.emit Log1 (map (fun q => GateZ (Bit cq q)) lz)
                     (SCC.emit Log1 h (SCC.emit Log0 h self))).
Proof.
  intros Hreg Hst. now apply preparation_emits.
Qed.

Lemma preparation_flips_stored_logical_witness :
  reg_size (SCC.code_qubit self_r1) = SCC.d self_r1 ^ 2
  /\ logicals_stored self_r1
  /\ exists lx lz,
       css_x_logical self_r1 = ret lx
       /\ css_z_logical self_r1 = ret lz
       /\ _preparation self_r1
          = ret (SCC.emit Log1
                   (map (fun q => GateX (Bit (SCC.code_qubit self_r1) q)) lx)
                   self_r1).
Proof.
  assert (H0 : reg_size (SCC.code_qubit self_r1) = SCC.d self_r1 ^ 2)
    by reflexivity.
  assert (H1 : logicals_stored self_r1) by (split; by_computation).
  split; [exact H0|]. split; [exact H1|].
  exact (preparation_flips_stored_logical self_r1 H0 H1).
Defined.

(** ** The two circuits *)

Lemma sim_bind {X Y} (R : X -> X -> Prop) (Q : Y -> Y -> Prop) m m' k k' :
  sim R m m' -> (forall x x', R x x' -> sim Q (k x) (k' x')) ->
  sim Q (bind m k) (bind m' k').
Proof.
  destruct m, m'; cbn [sim bind]; intros H Hk; try contradiction;
    [now apply Hk | exact H].
Qed.

Lemma sim_for_each {A X} (R : X -> X -> Prop) (l : list A) f f' s s' :
  R s s' -> (forall u u' a, R u u' -> sim R (f u a) (f' u' a)) ->
  sim R (for_each l f s) (for_each l f' s').
Proof.
  intros Hs Hf. revert s s' Hs.
  induction l as [|a l IH]; intros s s' Hs; cbn [for_each]; [exact Hs|].
  eapply sim_bind; [apply Hf; exact Hs | exact IH].
Qed.

Lemma set_circuits_eta s :
  SCC.set_circuits (SCC.circuit0 s) (SCC.circuit1 s) s = s.
Proof. now destruct s. Qed.

Lemma set_circuits_inj a x y x' y' :
  SCC.set_circuits x y a = SCC.set_circuits x' y' a -> x = x' /\ y = y'.
Proof. unfold SCC.set_circuits. intros H. injection H as -> ->. now split. Qed.

Ltac twin_open :=
  repeat match goal with
         | H : twin _ _ _ _ _ _ _ |- _ =>
             let g := fresh "g" in destruct H as (g & -> & ->)
         end;
  cbn [SCC.set_circuits SCC.emit SCC.d SCC.T SCC.basis SCC._resets SCC.zplaqs
       SCC.xplaqs SCC._logicals_x SCC._logicals_z SCC._num_xy SCC.code_qubit
       SCC.zplaq_qubit SCC.xplaq_qubit SCC.xplaq_bits SCC.zplaq_bits
       SCC.code_bit SCC.circuit0 SCC.circuit1].

Ltac twin_close :=
  lazymatch goal with
  | |- twin _ _ _ _ _ _ _ =>
      eexists;
      cbn [SCC.set_circuits SCC.emit SCC.d SCC.T SCC.basis SCC._resets SCC.zplaqs
           SCC.xplaqs SCC._logicals_x SCC._logicals_z SCC._num_xy SCC.code_qubit
           SCC.zplaq_qubit SCC.xplaq_qubit SCC.xplaq_bits SCC.zplaq_bits
           SCC.code_bit SCC.circuit0 SCC.circuit1];
      rewrite <- ?app_assoc; split; reflexivity
  end.

Ltac sim_step :=
  twin_open;
  lazymatch goal with
  | |- twin _ _ _ _ _ ?x _ =>
      lazymatch x with
      | context [if ?b then _ else _] => destruct b
      | _ => twin_close
      end
  | |- sim _ (ret _) (ret _) => cbn [sim ret]
  | |- sim _ (inl _) (inl _) => cbn [sim]
  | |- sim _ (if ?b then _ else _) (if ?b then _ else _) => destruct b
  | |- sim _ (match ?o with Some _ => _ | None => _ end)
             (match ?o with Some _ => _ | None => _ end) => destruct o
  | |- sim ?Q (bind (for_each _ _ _) _) (bind (for_each _ _ _) _) =>
      apply (sim_bind Q);
      [apply sim_for_each; [twin_close | intros ? ? ? ?] | intros ? ? ?]
  | |- sim _ (for_each _ _ _) (for_each _ _ _) =>
      apply sim_for_each; [twin_close | intros ? ? ? ?]
  | |- sim _ (bind (ret _) _) (bind (ret _) _) => cbn [bind ret]
  | |- sim _ (bind (bind ?m _) _) (bind (bind ?m _) _) =>
      destruct m; cbn [bind ret]; [|reflexivity]
  | |- sim _ (bind ?m _) (bind ?m _) =>
      destruct m; cbn [bind ret]; [|reflexivity]
  | |- context [if ?b then _ else _] => destruct b
  end.

Lemma entangle_sim a c0 c1 c0' c1' plaqs j
    (mk : SCC.t -> Z -> Z -> result instr) u u' :
  (forall x y x' y' c p,
     mk (SCC.set_circuits x y a) c p = mk (SCC.set_circuits x' y' a) c p) ->
  twin a c0 c1 c0' c1' u u' ->
  sim (twin a c0 c1 c0' c1')
      (entangle Log0 plaqs j mk u) (entangle Log1 plaqs j mk u').
Proof.
  intros Hmk Hu. unfold entangle.
  apply sim_for_each; [exact Hu|]. intros v v' pp Hv.
  destruct Hv as (g & -> & ->).
  destruct (getitem (snd pp) j) as [[c|]|e]; cbn [bind ret]; [| |reflexivity].
  - rewrite (Hmk (c0 ++ g) c1 c0' (c1' ++ g)).
    destruct (mk _ c (fst pp)); cbn [bind ret sim]; [|reflexivity].
    twin_close.
  - cbn [sim]. now exists g.
Qed.

(** A step that runs alike on either circuit, run on ["0"] and then on
    ["1"], appends the same gates to both. *)
Lemma both_circuits_grow (body : SCC.t -> logical -> result SCC.t) s :
  (forall a c0 c1 c0' c1' u u',
     twin a c0 c1 c0' c1' u u' ->
     sim (twin a c0 c1 c0' c1') (body u Log0) (body u' Log1)) ->
  post (fun t => exists g,
          t = SCC.set_circuits (SCC.circuit0 s ++ g) (SCC.circuit1 s ++ g) s)
       (for_each [Log0; Log1] body s).
Proof.
  intros Hsim. cbn [for_each].
  assert (Hs : s = SCC.set_circuits (SCC.circuit0 s ++ []) (SCC.circuit1 s) s).
  { rewrite app_nil_r. symmetry. apply set_circuits_eta. }
  pose proof (Hsim s (SCC.circuit0 s) (SCC.circuit1 s) [] [] s
                (SCC.set_circuits [] [] s)) as H1.
  destruct (body s Log0) as [s1|e] eqn:E1; cbn [bind post]; [|exact I].
  assert (Hs1 : exists g, s1 = SCC.set_circuits (SCC.circuit0 s ++ g)
                                 (SCC.circuit1 s) s).
  { destruct (body (SCC.set_circuits [] [] s) Log1) as [t'|e'];
      cbn [sim] in H1.
    - destruct H1 as (g & Hg & _); [|now exists g].
      exists []. split; [exact Hs | reflexivity].
    - exfalso. apply H1. exists []. split; [exact Hs | reflexivity]. }
  destruct Hs1 as (g & Hs1).
  pose proof (Hsim s (SCC.circuit0 s) (SCC.circuit1 s)
                (SCC.circuit0 s ++ g) (SCC.circuit1 s) s s1) as H2.
  rewrite E1 in H2.
  destruct (body s1 Log1) as [s2|e] eqn:E2; cbn [bind ret post sim] in *.
  - destruct H2 as (g' & Hg' & Hs2).
    { exists []. split; [exact Hs|]. rewrite app_nil_r. exact Hs1. }
    rewrite Hs1 in Hg'. apply set_circuits_inj in Hg' as [Hg' _].
    apply app_inv_head in Hg'. subst g'. now exists g.
  - exact I.
Qed.

Lemma grown_refl s : grown s s.
Proof. exists []. now rewrite !app_nil_r. Qed.

Lemma grown_trans a b c : grown a b -> grown b c -> grown a c.
Proof.
  intros (g & H0 & H1) (g' & G0 & G1). exists (g ++ g').
  now rewrite G0, G1, H0, H1, <- !app_assoc.
Qed.

Lemma syndrome_measurement_grows final barrier s :
  post (grown s) (syndrome_measurement final barrier s).
Proof.
  unfold syndrome_measurement. cbv zeta.
  set (s0 := SCC.set_bits _ _ s).
  eapply post_bind.
  - apply both_circuits_grow.
    intros a c0 c1 c0' c1' u u' Hu.
    do 3 sim_step.
    apply (sim_bind (twin a c0 c1 c0' c1')).
    { apply sim_for_each; [twin_close|]. intros v v' j Hv.
      apply (sim_bind (twin a c0 c1 c0' c1')).
      - twin_open. apply entangle_sim; [reflexivity | twin_close].
      - intros w w' Hw. twin_open. apply entangle_sim; [reflexivity | twin_close]. }
    intros v v' Hv. sim_step.
    apply (sim_bind (twin a c0 c1 c0' c1')).
    { twin_open. apply sim_for_each; [twin_close|]. intros w w' j Hw.
      repeat sim_step. }
    intros w w' Hw. repeat sim_step.
  - intros t (g & ->). apply post_ret. exists g. split; reflexivity.
Qed.

Lemma readout_grows s : post (grown s) (readout s).
Proof.
  unfold readout.
  eapply post_weaken; [apply both_circuits_grow|].
  - intros a c0 c1 c0' c1' u u' Hu. cbv zeta. repeat sim_step.
  - intros t (g & ->). exists g. split; reflexivity.
Qed.

Lemma rounds_grow (l : list Z) s :
  post (grown s)
       (for_each l (fun self _ => syndrome_measurement false false self) s).
Proof.
  revert s. induction l as [|a l IH]; intros s; cbn [for_each].
  - apply post_ret, grown_refl.
  - eapply post_bind; [apply syndrome_measurement_grows|].
    intros s1 H1. cbv beta. eapply post_weaken; [apply IH|].
    intros t Ht. eapply grown_trans; eauto.
Qed.

(** X14: the two circuits of a constructed object differ by the logical
    flip of the preparation only.  With [h] the layer of H gates on all
    code qubits (absent for the basis ["z"]) and [flip] the X gates on
    the qubits [j*d] (basis ["z"]) or the Z gates on the qubits [j]
    (any other basis), [j < d], there is one gate sequence [rounds] such
    that circuit ["0"] is [h ++ rounds] and circuit ["1"] is
    [h ++ flip ++ rounds]. *)
Theorem circuits_differ_by_flip (d T : Z) (basis : str) (resets : bool)
    (self : SCC.t) :
  __init__ d T basis resets = ret self ->
  let cq := Register (d ^ 2) (lit "code_qubit") in
  let h := if str_eqb basis (lit "z") then [] else map GateH (reg_bits cq) in
  let flip := if str_eqb basis (lit "z")
              then map (fun j => GateX (Bit cq (j * d))) (range d)
              else map (fun j => GateZ (Bit cq j)) (range d) in
  exists rounds,
    get_circuit_list self = [h ++ rounds; h ++ flip ++ rounds].
Proof.
  intros Hinit cq h flip.
  set (a := attributes d basis resets).
  assert (Hprep : exists p, _preparation a = ret p
                            /\ SCC.circuit0 p = h /\ SCC.circuit1 p = h ++ flip).
  { destruct (preparation_emits a) as (lx & lz & Hx & Hz & Hp).
    - reflexivity.
    - split; reflexivity.
    - cbv zeta in Hp.
      unfold css_x_logical, css_z_logical, _logicals in Hx, Hz.
      change (str_eqb (lit "x") (lit "x")) with true in Hx.
      change (str_eqb (lit "z") (lit "x")) with false in Hz.
      change (str_eqb (lit "z") (lit "z")) with true in Hz.
      cbn [bind ret] in Hx, Hz.
      change (SCC._logicals_x a) with (logicals_x d) in Hx.
      change (SCC._logicals_z a) with (logicals_z d) in Hz.
      unfold logicals_x in Hx. unfold logicals_z in Hz.
      rewrite getitem_head in Hx, Hz.
      apply ret_inj in Hx, Hz. subst lx lz.
      change (SCC.basis a) with basis in Hp. change (SCC.d a) with d in Hp.
      subst h flip.
      destruct (str_eqb basis (lit "z")).
      + eexists. split; [exact Hp|].
        cbn [SCC.emit SCC.set_circuits SCC.circuit0 SCC.circuit1 a attributes
             SCC.code_qubit app].
        rewrite !map_map. split; reflexivity.
      + destruct (d =? 0).
        * exfalso. unfold __init__ in Hinit. cbv zeta in Hinit.
          fold a in Hinit. rewrite Hp in Hinit. discriminate.
        * eexists. split; [exact Hp|].
          cbn [SCC.emit SCC.set_circuits SCC.circuit0 SCC.circuit1 a attributes
               SCC.code_qubit app].
          rewrite !map_map. split; reflexivity. }
  destruct Hprep as (p & Hp & Hp0 & Hp1).
  assert (Hpost : post (grown p) (__init__ d T basis resets)).
  { unfold __init__. cbv zeta. fold a. rewrite Hp. cbn [bind ret].
    eapply post_bind; [apply rounds_grow|]. intros s1 H1. cbv beta.
    destruct (negb _); [|now apply post_ret].
    eapply post_bind; [apply syndrome_measurement_grows|]. intros s2 H2.
    cbv beta. eapply post_weaken; [apply readout_grows|].
    intros t Ht. eapply grown_trans; [exact H1|].
    eapply grown_trans; eauto. }
  rewrite Hinit in Hpost. destruct Hpost as (g & H0 & H1).
  exists g. unfold get_circuit_list.
  now rewrite H0, H1, Hp0, Hp1, <- app_assoc.
Qed.

Lemma circuits_differ_by_flip_witness :
  exists self,
    __init__ 3 2 (lit "z") true = ret self
    /\ exists rounds,
         get_circuit_list self
         = [rounds;
            map (fun j => GateX (Bit (Register 9 (lit "code_qubit")) (j * 3)))
                (range 3) ++ rounds].
Proof.
  destruct (construction_succeeds_odd 3 ltac:(lia) eq_refl 2 (lit "z") true)
    as (self & Hinit).
  exists self. split; [exact Hinit|].
  exact (circuits_differ_by_flip 3 2 (lit "z") true self Hinit).
Defined.

(** ** Circuits without resets *)

Lemma quiet_emit log ins s : no_reset ins -> quiet s -> quiet (SCC.emit log ins s).
Proof.
  intros Hi (Hr & H0 & H1). unfold quiet, no_reset in *.
  destruct log; cbn [SCC.emit SCC.set_circuits SCC._resets SCC.circuit0
                     SCC.circuit1];
    repeat split; try assumption; apply Forall_app; now split.
Qed.

Lemma no_reset_map {A} (f : A -> instr) l :
  (forall a, is_reset (f a) = false) -> no_reset (map f l).
Proof.
  intros H. unfold no_reset. apply Forall_forall. intros i Hi.
  apply in_map_iff in Hi. destruct Hi as (a & <- & _). apply H.
Qed.

Lemma resets_emit log ins s : SCC._resets (SCC.emit log ins s) = SCC._resets s.
Proof. now destruct log. Qed.

Ltac no_reset_solve :=
  lazymatch goal with
  | |- no_reset (map _ _) => apply no_reset_map; intros; reflexivity
  | |- no_reset _ => unfold no_reset; repeat constructor
  end.

Ltac quiet_step :=
  lazymatch goal with
  | |- post _ (ret _) => apply post_ret
  | |- post _ (bind (getitem _ _) _) =>
      eapply post_bind; [apply post_any | intros ? _]
  | |- post _ (bind (reg_getitem _ _) _) =>
      eapply post_bind; [apply post_any | intros ? _]
  | |- post _ (bind (h_all _) _) =>
      eapply post_bind; [apply h_all_gates | intros ? ->]
  | |- post _ (bind (bind (h_all ?r) _) _) =>
      let Hh := fresh in
      pose proof (h_all_gates r) as Hh;
      destruct (h_all r); cbn [bind ret]; [cbn [post] in Hh; subst | exact I]
  | |- post _ (bind (if ?b then _ else _) _) => destruct b
  | |- post _ (bind (ret _) _) => cbn [bind ret]
  | |- post _ (inl _) => apply post_ret
  | |- post _ (for_each _ _ _) => apply post_for_each; [|intros ? ? ?]
  | |- post _ (bind (for_each _ _ _) _) =>
      apply (post_bind quiet); [|intros ? ?]
  | |- post _ (match ?o with Some _ => _ | None => _ end) => destruct o
  | |- quiet (SCC.emit _ _ _) => apply quiet_emit; [no_reset_solve|]
  | |- quiet (if ?b then _ else _) => destruct b
  | |- quiet _ => assumption
  end.

Lemma x_quiet logs barrier self : quiet self -> post quiet (x logs barrier self).
Proof. intros H. unfold x. repeat quiet_step. Qed.

Lemma z_quiet logs barrier self : quiet self -> post quiet (z logs barrier self).
Proof. intros H. unfold z. repeat quiet_step. Qed.

Lemma preparation_quiet self : quiet self -> post quiet (_preparation self).
Proof.
  intros H. unfold _preparation. destruct (str_eqb _ _).
  - now apply x_quiet.
  - cbv zeta. apply (post_bind quiet).
    + quiet_step; [exact H|]. repeat quiet_step.
    + intros s Hs. now apply z_quiet.
Qed.

Lemma entangle_quiet log plaqs j mk self :
  (forall s c p, post (fun g => is_reset g = false) (mk s c p)) ->
  quiet self -> post quiet (entangle log plaqs j mk self).
Proof.
  intros Hmk H. unfold entangle. quiet_step; [exact H|].
  quiet_step. quiet_step; [|quiet_step; assumption].
  eapply post_bind; [apply Hmk|]. intros g Hg. cbv beta.
  apply post_ret. apply quiet_emit; [|assumption].
  unfold no_reset. now repeat constructor.
Qed.

Lemma syndrome_measurement_quiet final barrier self :
  quiet self -> post quiet (syndrome_measurement final barrier self).
Proof.
  intros H. unfold syndrome_measurement. cbv zeta.
  apply (post_bind quiet).
  - quiet_step; [exact H|].
    do 3 quiet_step.
    apply (post_bind quiet).
    { quiet_step; [repeat quiet_step|].
      apply (post_bind quiet); [|intros ? ?]; apply entangle_quiet;
        try assumption; intros; repeat quiet_step; reflexivity. }
    intros s1 Hs1. quiet_step.
    apply (post_bind quiet).
    { quiet_step; [repeat quiet_step|].
      do 6 quiet_step.
      rewrite !resets_emit.
      match goal with
      | Hq : quiet ?s |- context [SCC._resets ?s] => rewrite (proj1 Hq)
      end.
      cbn [andb].
      repeat quiet_step. }
    intros s2 Hs2. repeat quiet_step.
  - intros s Hs. apply post_ret. exact Hs.
Qed.

Lemma readout_quiet self : quiet self -> post quiet (readout self).
Proof.
  intros H. unfold readout. quiet_step; [exact H|].
  cbv zeta. repeat quiet_step.
Qed.

(** X15: a circuit built with [resets=False] contains no reset
    instruction, whatever the distance, the number of rounds and the
    basis. *)
Theorem no_reset_unless_asked (d T : Z) (basis : str) (self : SCC.t) :
  __init__ d T basis false = ret self ->
  Forall no_reset (get_circuit_list self).
Proof.
  intros Hinit.
  assert (Hpost : post quiet (__init__ d T basis false)).
  { unfold __init__. cbv zeta.
    apply (post_bind quiet).
    { apply preparation_quiet. repeat split; constructor. }
    intros s0 Hs0. apply (post_bind quiet).
    { apply post_for_each; [exact Hs0|]. intros s _ Hs.
      now apply syndrome_measurement_quiet. }
    intros s1 Hs1. destruct (negb _); [|now apply post_ret].
    apply (post_bind quiet); [now apply syndrome_measurement_quiet|].
    intros s2 Hs2. now apply readout_quiet. }
  rewrite Hinit in Hpost. destruct Hpost as (_ & H0 & H1).
  unfold get_circuit_list. now repeat constructor.
Qed.

Lemma no_reset_unless_asked_witness :
  exists self,
    __init__ 3 2 (lit "z") false = ret self
    /\ Forall no_reset (get_circuit_list self).
Proof.
  destruct (construction_succeeds_odd 3 ltac:(lia) eq_refl 2 (lit "z") false)
    as (self & Hinit).
  exists self. split; [exact Hinit|].
  exact (no_reset_unless_asked 3 2 (lit "z") self Hinit).
Defined.

(** ** Counting the measurements *)

Lemma measures_app a b : measures (a ++ b) = measures a + measures b.
Proof. unfold measures. rewrite filter_app, length_app. lia. Qed.

Lemma measures_map_none {A} (f : A -> instr) l :
  (forall a, is_measure (f a) = false) -> measures (map f l) = 0.
Proof.
  intros H. unfold measures. induction l as [|a l IH]; [reflexivity|].
  cbn [map filter]. now rewrite H.
Qed.

Lemma measures_map_all {A} (f : A -> instr) l :
  (forall a, is_measure (f a) = true) ->
  measures (map f l) = Z.of_nat (length l).
Proof.
  intros H. unfold measures. induction l as [|a l IH]; [reflexivity|].
  cbn [map filter]. rewrite H. cbn [length]. lia.
Qed.

Lemma adds_refl s : adds 0 0 s s.
Proof. unfold adds. repeat split; lia. Qed.

Lemma adds_fields k0 k1 s t :
  adds k0 k1 s t ->
  SCC._num_xy t = SCC._num_xy s /\ SCC._resets t = SCC._resets s
  /\ SCC.code_qubit t = SCC.code_qubit s /\ SCC.code_bit t = SCC.code_bit s
  /\ SCC.xplaq_bits t = SCC.xplaq_bits s /\ SCC.zplaq_bits t = SCC.zplaq_bits s
  /\ SCC.T t = SCC.T s.
Proof.
  intros (He & _). unfold erase in He.
  repeat split;
    [apply (f_equal SCC._num_xy) in He | apply (f_equal SCC._resets) in He
    | apply (f_equal SCC.code_qubit) in He | apply (f_equal SCC.code_bit) in He
    | apply (f_equal SCC.xplaq_bits) in He | apply (f_equal SCC.zplaq_bits) in He
    | apply (f_equal SCC.T) in He]; exact He.
Qed.

Lemma adds_from k0 k1 k0' k1' K0 K1 u e (m : result SCC.t) :
  adds k0 k1 u e -> post (adds k0' k1' e) m ->
  K0 = k0 + k0' -> K1 = k1 + k1' -> post (adds K0 K1 u) m.
Proof.
  intros (He & H0 & H1) Hm -> ->. eapply post_weaken; [exact Hm|].
  intros t (Ht & G0 & G1). unfold adds. repeat split; [congruence|lia|lia].
Qed.

Lemma adds_step k0 k1 k0' k1' K0 K1 (m : result SCC.t)
    (k : SCC.t -> result SCC.t) s :
  post (adds k0 k1 s) m ->
  (forall t, adds k0 k1 s t -> post (adds k0' k1' t) (k t)) ->
  K0 = k0 + k0' -> K1 = k1 + k1' -> post (adds K0 K1 s) (bind m k).
Proof.
  intros Hm Hk E0 E1. destruct m as [t|e]; cbn [post bind] in *; [|exact I].
  eapply adds_from; [exact Hm | apply Hk; exact Hm | exact E0 | exact E1].
Qed.

Lemma adds_for_each {A} k0 k1 K0 K1 (l : list A) body s :
  (forall s a, post (adds k0 k1 s) (body s a)) ->
  K0 = k0 * Z.of_nat (length l) -> K1 = k1 * Z.of_nat (length l) ->
  post (adds K0 K1 s) (for_each l body s).
Proof.
  intros Hb. revert K0 K1 s.
  induction l as [|a l IH]; intros K0 K1 s -> ->; cbn [for_each length].
  - apply post_ret. rewrite !Z.mul_0_r. apply adds_refl.
  - eapply adds_step; [apply Hb | intros t _; apply (IH _ _ t); reflexivity
                      | lia | lia].
Qed.

(** Appending gates to one circuit. *)
Lemma adds_emit0 ins s : adds (measures ins) 0 s (SCC.emit Log0 ins s).
Proof.
  unfold adds. split; [reflexivity|].
  cbn [SCC.emit SCC.set_circuits SCC.circuit0 SCC.circuit1].
  rewrite measures_app. split; lia.
Qed.

Lemma adds_emit1 ins s : adds 0 (measures ins) s (SCC.emit Log1 ins s).
Proof.
  unfold adds. split; [reflexivity|].
  cbn [SCC.emit SCC.set_circuits SCC.circuit0 SCC.circuit1].
  rewrite measures_app. split; lia.
Qed.

Lemma adds_emit (log : logical) ins s :
  adds (on0 log (measures ins)) (on1 log (measures ins))
       s (SCC.emit log ins s).
Proof. destruct log; [apply adds_emit0 | apply adds_emit1]. Qed.

Lemma adds_trans k0 k1 k0' k1' K0 K1 a b c :
  adds k0 k1 a b -> adds k0' k1' b c ->
  K0 = k0 + k0' -> K1 = k1 + k1' -> adds K0 K1 a c.
Proof.
  intros (He & H0 & H1) (Ge & G0 & G1) -> ->.
  unfold adds. repeat split; [congruence|lia|lia].
Qed.

Lemma adds_silent log ins s :
  measures ins = 0 -> adds 0 0 s (SCC.emit log ins s).
Proof.
  intros H. pose proof (adds_emit log ins s) as Ha. rewrite H in Ha.
  now destruct log.
Qed.

Lemma measures_gate_h l : measures (map GateH l) = 0.
Proof. now apply measures_map_none. Qed.

Lemma entangle_adds log plaqs j mk self :
  (forall s c p, post (fun g => is_measure g = false) (mk s c p)) ->
  post (adds 0 0 self) (entangle log plaqs j mk self).
Proof.
  intros Hmk. unfold entangle.
  apply (adds_for_each 0 0); [|lia|lia]. intros s pp.
  eapply post_bind; [apply post_any|]. intros c _. destruct c as [c|].
  - eapply post_bind; [apply Hmk|]. intros g Hg. cbv beta.
    apply post_ret. apply adds_silent. unfold measures. cbn [filter].
    now rewrite Hg.
  - apply post_ret, adds_refl.
Qed.

(** One pass of [syndrome_measurement] measures every ancilla once, on
    the circuit it writes to. *)
Lemma syndrome_measurement_adds final barrier s :
  0 <= SCC._num_xy s ->
  post (fun t => SCC._num_xy t = SCC._num_xy s
                 /\ SCC.code_qubit t = SCC.code_qubit s
                 /\ SCC.code_bit t = SCC.code_bit s
                 /\ measures (SCC.circuit0 t)
                    = measures (SCC.circuit0 s) + 2 * SCC._num_xy s
                 /\ measures (SCC.circuit1 t)
                    = measures (SCC.circuit1 s) + 2 * SCC._num_xy s)
       (syndrome_measurement final barrier s).
Proof.
  intros HN. unfold syndrome_measurement. cbv zeta.
  set (s0 := SCC.set_bits _ _ s).
  set (N := SCC._num_xy s) in *.
  match goal with
  | |- context [for_each [Log0; Log1] ?b _] => set (body := b)
  end.
  assert (Hpass : forall log u,
            SCC._num_xy u = N ->
            post (adds (on0 log (2 * N)) (on1 log (2 * N)) u)
                 (body u log)).
  { intros log u Hu. subst body. cbv beta.
    do 2 (eapply post_bind; [apply post_any | intros ? _]).
    eapply post_bind; [apply h_all_gates | intros ? ->]. cbv beta.
    set (e2 := SCC.emit log _ (SCC.emit log _ u)).
    assert (He2 : adds 0 0 u e2).
    { subst e2. rewrite emit_emit. apply adds_silent.
      now rewrite measures_app, measures_gate_h. }
    apply (adds_step 0 0 (on0 log (2 * N)) (on1 log (2 * N)));
      [| |lia|lia].
    - apply (adds_from 0 0 0 0 0 0 u e2 _ He2); [|lia|lia].
      apply (adds_for_each 0 0); [|lia|lia]. intros v j.
      apply (adds_step 0 0 0 0); [| |lia|lia].
      + apply entangle_adds. intros w c p.
        do 2 (eapply post_bind; [apply post_any | intros ? _]).
        now apply post_ret.
      + intros t _. apply entangle_adds. intros w c p.
        do 2 (eapply post_bind; [apply post_any | intros ? _]).
        now apply post_ret.
    - intros t Ht.
      destruct (adds_fields _ _ _ _ Ht) as (HtN & _).
      eapply post_bind; [apply h_all_gates | intros ? ->]. cbv beta.
      set (e3 := SCC.emit log _ t).
      assert (He3 : adds 0 0 t e3).
      { subst e3. apply adds_silent, measures_gate_h. }
      apply (adds_step (on0 log (2 * N)) (on1 log (2 * N)) 0 0);
        [| |lia|lia].
      + apply (adds_from 0 0 (on0 log (2 * N))
                 (on1 log (2 * N)) _ _ t e3 _ He3); [|lia|lia].
        replace (SCC._num_xy e3) with N
          by (subst e3; destruct log; cbn [SCC.emit SCC.set_circuits SCC._num_xy];
              congruence).
        apply (adds_for_each (on0 log 2) (on1 log 2));
          [|rewrite range_length by exact HN; destruct log; cbn [on0 on1]; lia
           |rewrite range_length by exact HN; destruct log; cbn [on0 on1]; lia].
        intros v j.
        do 3 (eapply post_bind; [apply post_any | intros ? _]). cbv zeta.
        do 3 (eapply post_bind; [apply post_any | intros ? _]).
        match goal with
        | |- post _ (if ?b then _ else _) => destruct b
        end.
        * do 2 (eapply post_bind; [apply post_any | intros ? _]).
          apply post_ret. rewrite !emit_emit. exact (adds_emit log _ _).
        * apply post_ret. rewrite !emit_emit. exact (adds_emit log _ _).
      + intros w _. apply post_ret. destruct barrier.
        * apply adds_silent. reflexivity.
        * apply adds_refl. }
  cbn [for_each].
  pose proof (Hpass Log0 s0 eq_refl) as H0.
  destruct (body s0 Log0) as [s1|e]; cbn [bind post] in *; [|exact I].
  destruct (adds_fields _ _ _ _ H0) as (HN1 & _ & Hq1 & Hb1 & _).
  pose proof (Hpass Log1 s1 HN1) as H1.
  destruct (body s1 Log1) as [s2|e]; cbn [bind ret post] in *; [|exact I].
  destruct (adds_fields _ _ _ _ H1) as (HN2 & _ & Hq2 & Hb2 & _).
  destruct H0 as (_ & A0 & A1). destruct H1 as (_ & B0 & B1).
  cbn [SCC.set_T SCC._num_xy SCC.code_qubit SCC.code_bit SCC.circuit0
       SCC.circuit1].
  cbn [on0 on1] in A0, A1, B0, B1.
  change (SCC.circuit0 s0) with (SCC.circuit0 s) in A0.
  change (SCC.circuit1 s0) with (SCC.circuit1 s) in A1.
  change (SCC._num_xy s0) with N in HN1.
  change (SCC.code_qubit s0) with (SCC.code_qubit s) in Hq1.
  change (SCC.code_bit s0) with (SCC.code_bit s) in Hb1.
  split; [congruence|]. split; [congruence|]. split; [congruence|].
  split; lia.
Qed.

Lemma syndrome_measurement_counted N D n final barrier s :
  0 <= N -> counted N D n s ->
  post (counted N D (n + 2 * N)) (syndrome_measurement final barrier s).
Proof.
  intros HN (H1 & H2 & H3 & H4 & H5).
  eapply post_weaken; [apply syndrome_measurement_adds; lia|].
  intros t (G1 & G2 & G3 & G4 & G5). unfold counted.
  rewrite G1, G2, G3, G4, G5. repeat split; try assumption; lia.
Qed.

Lemma rounds_counted N D n (l : list Z) s :
  0 <= N -> counted N D n s ->
  post (counted N D (n + 2 * N * Z.of_nat (length l)))
       (for_each l (fun self _ => syndrome_measurement false false self) s).
Proof.
  intros HN. revert n s. induction l as [|a l IH]; intros n s Hs;
    cbn [for_each length].
  - apply post_ret. now replace (n + 2 * N * Z.of_nat 0) with n by lia.
  - eapply post_bind; [apply (syndrome_measurement_counted N D n); assumption|].
    intros s1 Hs1. cbv beta. eapply post_weaken; [apply IH; exact Hs1|].
    intros t Ht.
    now replace (n + 2 * N * Z.of_nat (S (length l)))
      with (n + 2 * N + 2 * N * Z.of_nat (length l)) by lia.
Qed.

Lemma reg_bits_length r : 0 <= reg_size r -> Z.of_nat (length (reg_bits r)) = reg_size r.
Proof. intros H. unfold reg_bits. rewrite length_map. now apply range_length. Qed.

(** [readout] measures every code qubit once in either circuit. *)
Lemma readout_counted N D n s :
  0 <= D -> counted N D n s -> post (counted N D (n + D)) (readout s).
Proof.
  intros HD (H1 & H2 & H3 & H4 & H5). unfold readout. cbn [for_each].
  cbv zeta.
  assert (Hm : forall q b : register,
            reg_size q = D -> reg_size b = D ->
            measures (map (fun qb => Measure (fst qb) (snd qb))
                          (combine (reg_bits q) (reg_bits b))) = D).
  { intros q b Hq Hb. rewrite measures_map_all by reflexivity.
    rewrite length_combine.
    pose proof (reg_bits_length q) as Lq. pose proof (reg_bits_length b) as Lb.
    lia. }
  unfold counted.
  pose proof (h_all_gates (SCC.code_qubit s)) as Hh.
  destruct (str_eqb (SCC.basis s) (lit "x")) eqn:E;
    [destruct (h_all (SCC.code_qubit s)) as [h|e] eqn:Eh;
       cbn [bind ret post] in Hh |- *; [subst h | exact I] |];
    cbn [bind ret post SCC.emit SCC.set_circuits SCC._num_xy SCC.code_qubit
         SCC.code_bit SCC.circuit0 SCC.circuit1 SCC.basis];
    rewrite ?E, ?Eh;
    cbn [bind ret post SCC.emit SCC.set_circuits SCC._num_xy SCC.code_qubit
         SCC.code_bit SCC.circuit0 SCC.circuit1 SCC.basis];
    rewrite ?measures_app, ?measures_gate_h, (Hm _ _ H2 H3);
    change (measures [AddRegister (SCC.code_bit s)]) with 0;
    repeat split; try assumption; lia.
Qed.

Lemma num_xy_nonneg d : 0 <= _num_xy d.
Proof.
  unfold _num_xy. assert (H : 0 <= d ^ 2) by nia.
  destruct (Z.eq_dec (d ^ 2) 0) as [E | E].
  - rewrite E. reflexivity.
  - apply Z.quot_pos; lia.
Qed.

Lemma concat_length_bits n (l : list str) :
  Forall (bits n) l ->
  Z.of_nat (length (concat l)) = n * Z.of_nat (length l).
Proof.
  induction 1 as [|w l [Hw _] _ IH]; cbn [concat length]; [lia|].
  rewrite length_app. lia.
Qed.

(** X16: each circuit of an object constructed for [T >= 1] rounds
    measures [d^2 + 2 T num_xy] bits: every code qubit once, and every
    ancilla of either type once per round.  This is the number of bits
    in the fields of a well-formed shot of that object. *)
Theorem measurements_per_circuit (d T : Z) (basis : str) (resets : bool)
    (self : SCC.t) :
  1 <= T -> __init__ d T basis resets = ret self ->
  Forall (fun c => measures c = d ^ 2 + 2 * T * _num_xy d)
         (get_circuit_list self)
  /\ forall s, well_formed self s ->
       Z.of_nat (length (concat (split s))) = d ^ 2 + 2 * T * _num_xy d.
Proof.
  intros HT Hinit. split.
  2:{ destruct (constructed_object d T basis resets self HT Hinit)
        as (_ & Hd & HTs & _).
      intros s (f & rest & -> & [Hf _] & Hlen & Hrest).
      cbn [concat]. rewrite length_app, Nat2Z.inj_add, Hf.
      rewrite (concat_length_bits _ _ Hrest), Hlen, Hd, HTs. ring. }
  pose proof (num_xy_nonneg d) as HN.
  assert (HD : 0 <= d ^ 2) by nia.
  set (a := attributes d basis resets).
  assert (Hpost : post (counted (_num_xy d) (d ^ 2)
                          (d ^ 2 + 2 * T * _num_xy d))
                       (__init__ d T basis resets)).
  { unfold __init__. cbv zeta. fold a.
    destruct (preparation_emits a) as (lx & lz & _ & _ & Hp);
      [reflexivity | split; reflexivity |].
    cbv zeta in Hp.
    apply (post_bind (counted (_num_xy d) (d ^ 2) 0)).
    { rewrite Hp.
      destruct (str_eqb (SCC.basis a) (lit "z"));
        [|destruct (SCC.d a =? 0); [exact I|]];
        apply post_ret; unfold counted;
        cbn [SCC.emit SCC.set_circuits SCC._num_xy SCC.code_qubit SCC.code_bit
             SCC.circuit0 SCC.circuit1 a attributes reg_size app];
        rewrite ?measures_app, ?measures_gate_h,
          ?(measures_map_none (fun q => GateX _)),
          ?(measures_map_none (fun q => GateZ _)) by reflexivity;
        repeat split; reflexivity. }
    intros p0 Hp0. cbv beta.
    eapply post_bind; [apply (rounds_counted _ _ 0 _ p0 HN Hp0)|].
    intros s1 Hs1. cbv beta.
    destruct (Z.eqb_spec T 0); [lia|]. cbn [negb].
    eapply post_bind;
      [apply (syndrome_measurement_counted _ _ _ true false s1 HN Hs1)|].
    intros s2 Hs2. cbv beta.
    eapply post_weaken; [apply (readout_counted _ _ _ s2 HD Hs2)|].
    intros t Ht. rewrite range_length in Ht by lia.
    replace (d ^ 2 + 2 * T * _num_xy d)
      with (0 + 2 * _num_xy d * (T - 1) + 2 * _num_xy d + d ^ 2) by ring.
    exact Ht. }
  rewrite Hinit in Hpost. destruct Hpost as (_ & _ & _ & H0 & H1).
  unfold get_circuit_list. now repeat constructor.
Qed.

Lemma measurements_per_circuit_witness :
  exists self,
    __init__ 3 2 (lit "z") true = ret self
    /\ Forall (fun c => measures c = 25) (get_circuit_list self)
    /\ forall s, well_formed self s ->
         Z.of_nat (length (concat (split s))) = 25.
Proof.
  destruct (construction_succeeds_odd 3 ltac:(lia) eq_refl 2 (lit "z") true)
    as (self & Hinit).
  exists self. split; [exact Hinit|].
  exact (measurements_per_circuit 3 2 (lit "z") true self ltac:(lia) Hinit).
Defined.

(** ** Overlap of the two plaquette types *)

Lemma present_four (a b c e : option Z) :
  present [a; b; c; e] = cell_of a ++ cell_of b ++ cell_of c ++ cell_of e.
Proof. unfold present. cbn [flat_map]. now rewrite app_nil_r. Qed.

(** The index [x + d*y] names one cell of the lattice. *)
Lemma index_eqb d X Y X' Y' :
  0 <= X < d -> 0 <= X' < d ->
  (X + d * Y =? X' + d * Y') = (X =? X') && (Y =? Y').
Proof.
  intros HX HX'. apply eq_iff_eq_true.
  rewrite andb_true_iff, !Z.eqb_eq. split; [|intros [-> ->]; reflexivity].
  intros H. assert (HY : Y = Y') by nia. subst Y'. split; lia.
Qed.

Lemma index_unique d X Y X' Y' :
  0 <= X < d -> 0 <= X' < d -> X + d * Y = X' + d * Y' -> X = X' /\ Y = Y'.
Proof.
  intros HX HX' H. apply Z.eqb_eq in H. rewrite index_eqb in H by assumption.
  apply andb_true_iff in H. now rewrite !Z.eqb_eq in H.
Qed.

Lemma corner_covers d x' y' dx' dy' X Y :
  in_range X d = true -> in_range Y d = true ->
  existsb (Z.eqb (X + d * Y)) (cell_of (corner d x' y' dx' dy'))
  = (X =? x' + dx') && (Y =? y' + dy').
Proof.
  unfold in_range. intros HX HY. unfold corner, in_range.
  reflect_hyps.
  destruct ((0 <=? x' + dx') && (x' + dx' <? d)
            && ((0 <=? y' + dy') && (y' + dy' <? d))) eqn:E;
    cbn [cell_of existsb].
  - rewrite !andb_true_iff, !Z.leb_le, !Z.ltb_lt in E.
    rewrite orb_false_r. apply index_eqb; lia.
  - symmetry. apply not_true_iff_false. intros Hcov.
    apply andb_true_iff in Hcov. destruct Hcov as [HcX HcY].
    apply Z.eqb_eq in HcX, HcY. subst X Y.
    assert (E' : (0 <=? x' + dx') && (x' + dx' <? d)
                 && ((0 <=? y' + dy') && (y' + dy' <? d)) = true).
    { rewrite !andb_true_iff, !Z.leb_le, !Z.ltb_lt. lia. }
    congruence.
Qed.

(** A cell of the lattice lies in a block iff its column and its row do. *)
Lemma block_covers d x' y' X Y :
  in_range X d = true -> in_range Y d = true ->
  existsb (Z.eqb (X + d * Y)) (present (block d x' y'))
  = ((X =? x' + 0) || (X =? x' + 1)) && ((Y =? y' + 0) || (Y =? y' + 1)).
Proof.
  intros HX HY. rewrite block_corners, present_four, !existsb_app.
  rewrite !(corner_covers d x' y' _ _ X Y HX HY).
  destruct (X =? x' + 0), (X =? x' + 1), (Y =? y' + 0), (Y =? y' + 1);
    reflexivity.
Qed.

(** The share of one corner of a block in another block. *)
Lemma corner_shared d x y dx dy x' y' :
  length (filter (fun q => existsb (Z.eqb q) (present (block d x' y')))
                 (cell_of (corner d x y dx dy)))
  = cnt ((in_range (x + dx) d
          && ((x + dx =? x' + 0) || (x + dx =? x' + 1)))
         && (in_range (y + dy) d
             && ((y + dy =? y' + 0) || (y + dy =? y' + 1)))).
Proof.
  unfold corner.
  destruct (in_range (x + dx) d) eqn:HX; cbn [andb cell_of filter length cnt];
    [|reflexivity].
  destruct (in_range (y + dy) d) eqn:HY; cbn [andb cell_of filter length cnt].
  - rewrite (block_covers d x' y' _ _ HX HY).
    now destruct (_ && _).
  - now rewrite andb_false_r.
Qed.

Lemma shared_count d x y x' y' :
  let A dx := in_range (x + dx) d
              && ((x + dx =? x' + 0) || (x + dx =? x' + 1)) in
  let B dy := in_range (y + dy) d
              && ((y + dy =? y' + 0) || (y + dy =? y' + 1)) in
  length (shared (present (zstore d y x)) (present (xstore d y' x')))
  = (cnt (A 0%Z && B 0%Z) + cnt (A 0%Z && B 1%Z)
     + cnt (A 1%Z && B 0%Z) + cnt (A 1%Z && B 1%Z))%nat.
Proof.
  intros A B. unfold shared.
  assert (Hx : xstore d y' x' = block d x' y') by reflexivity.
  assert (Hz : zstore d y x
               = [corner d x y 0 0; corner d x y 0 1;
                  corner d x y 1 0; corner d x y 1 1]) by reflexivity.
  rewrite Hx, Hz, present_four, !filter_app, !length_app.
  rewrite !corner_shared. subst A B. cbv beta. lia.
Qed.

Ltac reflect_all :=
  repeat match goal with
    | H : _ /\ _ |- _ => destruct H
    | H : (_ && _) = true |- _ => apply andb_true_iff in H
    | H : (_ || _) = true |- _ => apply orb_true_iff in H
    | H : (_ && _) = false |- _ => apply andb_false_iff in H
    | H : (_ || _) = false |- _ => apply orb_false_iff in H
    | H : negb _ = true |- _ => apply negb_true_iff in H
    | H : (_ <=? _) = true |- _ => apply Z.leb_le in H
    | H : (_ <=? _) = false |- _ => apply Z.leb_gt in H
    | H : (_ <? _) = true |- _ => apply Z.ltb_lt in H
    | H : (_ <? _) = false |- _ => apply Z.ltb_ge in H
    | H : (_ =? _) = true |- _ => apply Z.eqb_eq in H
    | H : (_ =? _) = false |- _ => apply Z.eqb_neq in H
    end.

(** A Z-seed and an X-seed never share exactly one or exactly four
    cells of the lattice. *)
Lemma seeds_overlap d x y x' y' :
  zsel d y x = true -> xsel d y' x' = true ->
  let n := length (shared (present (zstore d y x)) (present (xstore d y' x'))) in
  n = 0%nat \/ n = 2%nat.
Proof.
  intros Hz Hx n. subst n. rewrite shared_count. cbv zeta.
  unfold zsel, xsel, seeds, bulk, ztab, xtab in Hz, Hx.
  destruct (in_range (x + 0) d
            && ((x + 0 =? x' + 0) || (x + 0 =? x' + 1))) eqn:A0,
           (in_range (x + 1) d
            && ((x + 1 =? x' + 0) || (x + 1 =? x' + 1))) eqn:A1,
           (in_range (y + 0) d
            && ((y + 0 =? y' + 0) || (y + 0 =? y' + 1))) eqn:B0,
           (in_range (y + 1) d
            && ((y + 1 =? y' + 0) || (y + 1 =? y' + 1))) eqn:B1;
    cbn [andb cnt Nat.add];
    try (left; reflexivity); try (right; reflexivity);
    exfalso; unfold in_range in *; reflect_all;
    Z.to_euclidean_division_equations; lia.
Qed.

(** X17: a Z-plaquette and an X-plaquette of the same lattice share no
    qubit or exactly two qubits, for every distance: the two stabilizer
    types overlap evenly. *)
Theorem plaquette_types_overlap_evenly (d : Z) (zplaq xplaq : plaquette) :
  In zplaq (fst (_get_plaquettes d)) -> In xplaq (snd (_get_plaquettes d)) ->
  length (shared (present zplaq) (present xplaq)) = 0%nat
  \/ length (shared (present zplaq) (present xplaq)) = 2%nat.
Proof.
  intros Hz Hx. rewrite get_plaquettes_rows in Hz, Hx. cbn [fst snd] in Hz, Hx.
  apply in_flat_map in Hz. destruct Hz as (y & _ & Hz).
  apply in_map_iff in Hz. destruct Hz as (x & <- & Hzs).
  apply filter_In in Hzs. destruct Hzs as [_ Hzs].
  apply in_flat_map in Hx. destruct Hx as (y' & _ & Hx).
  apply in_map_iff in Hx. destruct Hx as (x' & <- & Hxs).
  apply filter_In in Hxs. destruct Hxs as [_ Hxs].
  exact (seeds_overlap d x y x' y' Hzs Hxs).
Qed.

Lemma plaquette_types_overlap_evenly_witness :
  In [Some 1; Some 4; Some 2; Some 5] (fst (_get_plaquettes 3))
  /\ In [Some 0; Some 1; Some 3; Some 4] (snd (_get_plaquettes 3))
  /\ length (shared (present [Some 1; Some 4; Some 2; Some 5])
                    (present [Some 0; Some 1; Some 3; Some 4])) = 2%nat.
Proof.
  assert (Hz : In [Some 1; Some 4; Some 2; Some 5] (fst (_get_plaquettes 3))).
  { vm_compute. tauto. }
  assert (Hx : In [Some 0; Some 1; Some 3; Some 4] (snd (_get_plaquettes 3))).
  { vm_compute. tauto. }
  split; [exact Hz|]. split; [exact Hx|].
  destruct (plaquette_types_overlap_evenly 3 _ _ Hz Hx) as [H | H];
    [discriminate H | exact H].
Defined.

(** ** The logical supports and the plaquettes *)

(** Membership in a line of [d] qubits, through the cells it names. *)
Lemma line_covers d (g : Z -> Z) (P : Z -> Z -> bool) X Y :
  (P X Y = true <-> exists j, 0 <= j < d /\ g j = X + d * Y) ->
  existsb (Z.eqb (X + d * Y)) (map g (range d)) = P X Y.
Proof.
  intros HP. apply eq_iff_eq_true. rewrite HP, existsb_exists. split.
  - intros (q & Hq & He). apply in_map_iff in Hq. destruct Hq as (j & <- & Hj).
    apply In_range2 in Hj. apply Z.eqb_eq in He. exists j. split; [lia | congruence].
  - intros (j & Hj & He). exists (g j). split.
    + apply in_map_iff. exists j. split; [reflexivity | apply In_range2; lia].
    + apply Z.eqb_eq. congruence.
Qed.

Lemma x_support_covers d side X Y :
  (side < 2)%nat -> in_range X d = true -> in_range Y d = true ->
  existsb (Z.eqb (X + d * Y)) (support (logicals_x d) side)
  = on_x_support d side X Y.
Proof.
  unfold in_range. intros Hs HX HY. reflect_hyps.
  destruct side as [|[|side]]; [| |lia]; cbn [support logicals_x nth];
    match goal with
    | |- _ = on_x_support ?d ?s _ _ => apply (line_covers d _ (on_x_support d s))
    end;
    cbn [on_x_support]; rewrite Z.eqb_eq; split.
  - intros ->. exists Y. split; [lia | cbv beta; ring].
  - intros (j & Hj & He). cbv beta in He.
    apply (index_unique d X Y 0 j); lia.
  - intros ->. exists Y. split; [lia | cbv beta; ring].
  - intros (j & Hj & He). cbv beta in He.
    apply (index_unique d X Y (d - 1) j); lia.
Qed.

Lemma z_support_covers d side X Y :
  (side < 2)%nat -> in_range X d = true -> in_range Y d = true ->
  existsb (Z.eqb (X + d * Y)) (support (logicals_z d) side)
  = on_z_support d side X Y.
Proof.
  unfold in_range. intros Hs HX HY. reflect_hyps.
  destruct side as [|[|side]]; [| |lia]; cbn [support logicals_z nth];
    match goal with
    | |- _ = on_z_support ?d ?s _ _ => apply (line_covers d _ (on_z_support d s))
    end;
    cbn [on_z_support]; rewrite Z.eqb_eq; split.
  - intros ->. exists X. split; [lia | cbv beta; ring].
  - intros (j & Hj & He). cbv beta in He.
    apply (index_unique d X Y j 0); lia.
  - intros ->. exists (d - 1 - X). split; [lia | cbv beta; ring].
  - intros (j & Hj & He). cbv beta in He.
    apply (index_unique d X Y (d - 1 - j) (d - 1)); [lia | lia |].
    rewrite <- He. ring.
Qed.

(** The share of one corner of a block in a line. *)
Lemma corner_on_line d (L : list Z) (P : Z -> Z -> bool) x y dx dy :
  (forall X Y, in_range X d = true -> in_range Y d = true ->
     existsb (Z.eqb (X + d * Y)) L = P X Y) ->
  length (filter (fun q => existsb (Z.eqb q) L) (cell_of (corner d x y dx dy)))
  = cnt (in_range (x + dx) d && in_range (y + dy) d && P (x + dx) (y + dy)).
Proof.
  intros HP. unfold corner.
  destruct (in_range (x + dx) d) eqn:HX, (in_range (y + dy) d) eqn:HY;
    cbn [andb cell_of filter length cnt]; try reflexivity.
  rewrite (HP _ _ HX HY). now destruct (P _ _).
Qed.

Lemma block_on_line d (L : list Z) (P : Z -> Z -> bool) x y :
  (forall X Y, in_range X d = true -> in_range Y d = true ->
     existsb (Z.eqb (X + d * Y)) L = P X Y) ->
  let c dx dy :=
    cnt (in_range (x + dx) d && in_range (y + dy) d && P (x + dx) (y + dy)) in
  length (shared (present [corner d x y 0 0; corner d x y 0 1;
                           corner d x y 1 0; corner d x y 1 1]) L)
  = (c 0%Z 0%Z + c 0%Z 1%Z + c 1%Z 0%Z + c 1%Z 1%Z)%nat.
Proof.
  intros HP c. unfold shared.
  rewrite present_four, !filter_app, !length_app.
  rewrite !(corner_on_line d L P x y _ _ HP). subst c. cbv beta. lia.
Qed.

Lemma shared_permuted (a b c e : option Z) L :
  length (shared (present [a; c; b; e]) L)
  = length (shared (present [a; b; c; e]) L).
Proof.
  unfold shared. rewrite !present_four, !filter_app, !length_app. lia.
Qed.

Section OddLattice.

Variable d : Z.
Hypothesis Hd : 1 <= d.
Hypothesis Hodd : Z.odd d = true.

Lemma odd_distance : d mod 2 = 1.
Proof. rewrite Zmod_odd, Hodd. reflexivity. Qed.

Lemma z_seed_on_column x y side :
  (side < 2)%nat -> zsel d y x = true ->
  evenly (present (zstore d y x)) (support (logicals_x d) side).
Proof.
  intros Hs Hz. pose proof odd_distance as Hm.
  unfold evenly.
  assert (E : zstore d y x
              = [corner d x y 0 0; corner d x y 0 1;
                 corner d x y 1 0; corner d x y 1 1]) by reflexivity.
  rewrite E, (block_on_line d _ (on_x_support d side) x y)
    by (intros; now apply x_support_covers).
  cbv zeta beta.
  unfold zsel, seeds, bulk, ztab, xtab in Hz.
  destruct side as [|[|side]]; [| |lia]; cbn [on_x_support];
    destruct (in_range (x + 0) d) eqn:X0, (in_range (x + 1) d) eqn:X1,
             (in_range (y + 0) d) eqn:Y0, (in_range (y + 1) d) eqn:Y1;
    match goal with
    | |- context [?u + 0 =? ?c] =>
        destruct (u + 0 =? c) eqn:C0, (u + 1 =? c) eqn:C1
    end;
    cbn [andb cnt Nat.add];
    try (left; reflexivity); try (right; reflexivity);
    exfalso; unfold in_range in *; reflect_all;
    Z.to_euclidean_division_equations; lia.
Qed.

Lemma x_seed_on_row x y side :
  (side < 2)%nat -> xsel d y x = true ->
  evenly (present (xstore d y x)) (support (logicals_z d) side).
Proof.
  intros Hs Hx. pose proof odd_distance as Hm.
  unfold evenly.
  assert (E : length (shared (present (xstore d y x))
                             (support (logicals_z d) side))
              = length (shared (present [corner d x y 0 0; corner d x y 0 1;
                                         corner d x y 1 0; corner d x y 1 1])
                               (support (logicals_z d) side))).
  { change (xstore d y x)
      with [corner d x y 0 0; corner d x y 1 0;
            corner d x y 0 1; corner d x y 1 1].
    apply shared_permuted. }
  rewrite E, (block_on_line d _ (on_z_support d side) x y)
    by (intros; now apply z_support_covers).
  cbv zeta beta.
  unfold xsel, seeds, bulk, ztab, xtab in Hx.
  destruct side as [|[|side]]; [| |lia]; cbn [on_z_support];
    destruct (in_range (x + 0) d) eqn:X0, (in_range (x + 1) d) eqn:X1,
             (in_range (y + 0) d) eqn:Y0, (in_range (y + 1) d) eqn:Y1;
    match goal with
    | |- context [?u + 0 =? ?c] =>
        destruct (u + 0 =? c) eqn:C0, (u + 1 =? c) eqn:C1
    end;
    cbn [andb cnt Nat.add];
    try (left; reflexivity); try (right; reflexivity);
    exfalso; unfold in_range in *; reflect_all;
    Z.to_euclidean_division_equations; lia.
Qed.

End OddLattice.

(** X18: at odd distance either X-logical support (the left and the
    right column, where [x] puts its gates) shares no qubit or exactly
    two with every Z-plaquette, and either Z-logical support (the top
    and the bottom row) shares no qubit or exactly two with every
    X-plaquette. *)
Theorem logicals_overlap_stabilizers_evenly (d : Z) :
  1 <= d -> Z.odd d = true ->
  (forall zplaq side,
     In zplaq (fst (_get_plaquettes d)) -> (side < 2)%nat ->
     evenly (present zplaq) (support (logicals_x d) side))
  /\ (forall xplaq side,
        In xplaq (snd (_get_plaquettes d)) -> (side < 2)%nat ->
        evenly (present xplaq) (support (logicals_z d) side)).
Proof.
  intros Hd Hodd. rewrite get_plaquettes_rows. cbn [fst snd]. split.
  - intros zplaq side Hz Hs.
    apply in_flat_map in Hz. destruct Hz as (y & _ & Hz).
    apply in_map_iff in Hz. destruct Hz as (x & <- & Hzs).
    apply filter_In in Hzs. destruct Hzs as [_ Hzs].
    now apply z_seed_on_column.
  - intros xplaq side Hx Hs.
    apply in_flat_map in Hx. destruct Hx as (y & _ & Hx).
    apply in_map_iff in Hx. destruct Hx as (x & <- & Hxs).
    apply filter_In in Hxs. destruct Hxs as [_ Hxs].
    now apply x_seed_on_row.
Qed.

Lemma logicals_overlap_stabilizers_evenly_witness :
  evenly (present [None; None; Some 0; Some 3]) (support (logicals_x 3) 0)
  /\ evenly (present [Some 0; Some 1; Some 3; Some 4]) (support (logicals_z 3) 0).
Proof.
  destruct (logicals_overlap_stabilizers_evenly 3 ltac:(lia) eq_refl)
    as [Hz Hx].
  split.
  - apply Hz; [vm_compute; tauto | lia].
  - apply Hx; [vm_compute; tauto | lia].
Defined.

Lemma count_one (q : Z -> bool) d j0 :
  0 <= j0 < d -> (forall j, 0 <= j < d -> q j = (j =? j0)) ->
  length (filter q (range d)) = 1%nat.
Proof.
  intros Hj Hq. unfold range.
  rewrite (range2_app 0 j0 d), (range2_cons j0 d) by lia.
  rewrite filter_app. cbn [filter].
  rewrite (Hq j0), Z.eqb_refl by lia.
  rewrite (filter_none q (range2 0 j0)), (filter_none q (range2 (j0 + 1) d)).
  - reflexivity.
  - intros j Hin. apply In_range2 in Hin. rewrite Hq by lia. apply Z.eqb_neq. lia.
  - intros j Hin. apply In_range2 in Hin. rewrite Hq by lia. apply Z.eqb_neq. lia.
Qed.

Lemma filter_map_length {A B} (p : B -> bool) (f : A -> B) l :
  length (filter p (map f l)) = length (filter (fun a => p (f a)) l).
Proof.
  induction l as [|a l IH]; [reflexivity|]. cbn [map filter].
  destruct (p (f a)); cbn [length]; now rewrite IH.
Qed.

(** X19: for every [d >= 1] each X-logical support (left or right
    column) shares exactly one qubit with each Z-logical support (top
    or bottom row): the corner of the lattice where they cross. *)
Theorem logical_supports_cross_once (d : Z) (i j : nat) :
  1 <= d -> (i < 2)%nat -> (j < 2)%nat ->
  length (shared (support (logicals_x d) i) (support (logicals_z d) j)) = 1%nat.
Proof.
  intros Hd Hi Hj. unfold shared.
  assert (Hcol : exists c, 0 <= c < d
                           /\ support (logicals_x d) i
                              = map (fun k => c + d * k) (range d)).
  { destruct i as [|[|i]]; [| |lia]; cbn [support logicals_x nth].
    - exists 0. split; [lia|]. apply map_ext. intros; ring.
    - exists (d - 1). split; [lia|]. apply map_ext. intros; ring. }
  destruct Hcol as (c & Hc & ->).
  rewrite filter_map_length.
  apply (count_one _ d (match j with O => 0 | _ => d - 1 end)).
  { destruct j as [|[|j]]; lia. }
  intros k Hk.
  rewrite (z_support_covers d j c k Hj).
  - destruct j as [|[|j]]; reflexivity.
  - unfold in_range. apply andb_true_iff. rewrite Z.leb_le, Z.ltb_lt. lia.
  - unfold in_range. apply andb_true_iff. rewrite Z.leb_le, Z.ltb_lt. lia.
Qed.

Lemma logical_supports_cross_once_witness :
  length (shared (support (logicals_x 3) 0) (support (logicals_z 3) 1)) = 1%nat.
Proof.
  apply (logical_supports_cross_once 3 0 1); lia.
Defined.

(** ** The entangling schedule *)

Lemma NoDup_append {A} (l l' : list A) :
  NoDup l -> NoDup l' -> (forall a, In a l -> ~ In a l') -> NoDup (l ++ l').
Proof.
  intros Hl Hl' Hd. induction Hl as [|a l Ha Hl IH]; [exact Hl'|].
  cbn [app]. constructor.
  - rewrite in_app_iff. intros [H | H]; [contradiction|].
    apply (Hd a); [now left | exact H].
  - apply IH. intros b Hb. apply Hd. now right.
Qed.

Lemma NoDup_cells {A} (f : A -> option Z) (l : list A) :
  NoDup l ->
  (forall a b q, In a l -> In b l -> f a = Some q -> f b = Some q -> a = b) ->
  NoDup (flat_map (fun a => cell_of (f a)) l).
Proof.
  intros Hl Hinj. induction Hl as [|a l Ha Hl IH]; [constructor|].
  cbn [flat_map]. destruct (f a) as [q|] eqn:E; cbn [cell_of app].
  - constructor.
    + intros Hin. apply in_flat_map in Hin. destruct Hin as (b & Hb & Hq).
      destruct (f b) as [q'|] eqn:E'; cbn [cell_of In] in Hq; [|contradiction].
      destruct Hq as [-> | []].
      assert (a = b) by (apply (Hinj a b q); auto using in_eq, in_cons).
      subst b. contradiction.
    + apply IH. intros b c q' Hb Hc. apply Hinj; now right.
  - apply IH. intros b c q' Hb Hc. apply Hinj; now right.
Qed.

Lemma pairs_NoDup (p : Z -> Z -> bool) xr yr :
  NoDup xr -> NoDup yr ->
  NoDup (flat_map (fun y => map (fun x => (x, y)) (filter (p y) xr)) yr).
Proof.
  intros Hx Hy. induction Hy as [|y yr Hin Hy IH]; cbn [flat_map]; [constructor|].
  apply NoDup_append; [|exact IH|].
  - apply Injective_map_NoDup; [|now apply NoDup_filter].
    intros a b H. now injection H.
  - intros c Hc Hc'. apply in_map_iff in Hc. destruct Hc as (x & <- & _).
    apply in_flat_map in Hc'. destruct Hc' as (y' & Hy' & Hc').
    apply in_map_iff in Hc'. destruct Hc' as (x' & H & _).
    injection H as _ ->. contradiction.
Qed.

Lemma rows_as_pairs {B} (st : Z -> Z -> B) (p : Z -> Z -> bool) xr yr :
  flat_map (fun y => map (st y) (filter (p y) xr)) yr
  = map (fun c => st (snd c) (fst c))
      (flat_map (fun y => map (fun x => (x, y)) (filter (p y) xr)) yr).
Proof.
  induction yr as [|y yr IH]; cbn [flat_map map]; [reflexivity|].
  now rewrite map_app, map_map, IH.
Qed.

Lemma pairs_selected (p : Z -> Z -> bool) xr yr c :
  In c (flat_map (fun y => map (fun x => (x, y)) (filter (p y) xr)) yr) ->
  p (snd c) (fst c) = true.
Proof.
  intros H. apply in_flat_map in H. destruct H as (y & _ & H).
  apply in_map_iff in H. destruct H as (x & <- & H).
  apply filter_In in H. cbn [fst snd]. tauto.
Qed.

Lemma touched_map {A} (f : A -> plaquette) j l :
  touched j (map f l) = flat_map (fun a => cell_of (slot (f a) j)) l.
Proof.
  unfold touched. induction l as [|a l IH]; cbn [map flat_map]; [reflexivity|].
  now rewrite IH.
Qed.

Lemma corner_cell d x y dx dy q :
  corner d x y dx dy = Some q ->
  0 <= x + dx < d /\ 0 <= y + dy < d /\ q = x + dx + d * (y + dy).
Proof.
  unfold corner, in_range.
  destruct (_ && _) eqn:E; [|discriminate]. intros [= <-].
  rewrite !andb_true_iff, !Z.leb_le, !Z.ltb_lt in E. lia.
Qed.

Lemma zslot d x y j q :
  slot (zstore d y x) j = Some q ->
  corner d x y (fst (zoff j)) (snd (zoff j)) = Some q.
Proof.
  destruct j as [|[|[|[|j]]]]; cbn [zoff fst snd]; try (intros H; exact H).
  unfold zstore, slot. cbn [nth]. destruct j; discriminate.
Qed.

Lemma xslot d x y j q :
  slot (xstore d y x) j = Some q ->
  corner d x y (fst (xoff j)) (snd (xoff j)) = Some q.
Proof.
  destruct j as [|[|[|[|j]]]]; cbn [xoff fst snd]; try (intros H; exact H).
  unfold xstore, slot. cbn [nth]. destruct j; discriminate.
Qed.

Lemma off_sum j : fst (zoff j) + snd (zoff j) = fst (xoff j) + snd (xoff j).
Proof. destruct j as [|[|[|j]]]; reflexivity. Qed.

(** Two corners with the same index are the same cell. *)
Lemma same_cell d x y dx dy x' y' dx' dy' q :
  corner d x y dx dy = Some q -> corner d x' y' dx' dy' = Some q ->
  x + dx = x' + dx' /\ y + dy = y' + dy'.
Proof.
  intros H H'. apply corner_cell in H, H'.
  destruct H as (HX & HY & ->). destruct H' as (HX' & HY' & He).
  apply (index_unique d); assumption.
Qed.

(** X20: in each of the four entangling steps of a syndrome round every
    code qubit is touched at most once: the slots [j] of all plaquettes,
    Z- and X-type together, name pairwise distinct qubits.  This is what
    the two slot orders of [_get_plaquettes] are for. *)
Theorem entangling_steps_do_not_collide (d : Z) (j : nat) :
  NoDup (touched j (fst (_get_plaquettes d) ++ snd (_get_plaquettes d))).
Proof.
  rewrite get_plaquettes_rows. cbn [fst snd].
  rewrite (rows_as_pairs (zstore d)), (rows_as_pairs (xstore d)).
  set (zs := flat_map (fun y => map (fun x => (x, y))
                                    (filter (zsel d y) (range2 (-1) d)))
                      (range2 (-1) d)).
  set (xs := flat_map (fun y => map (fun x => (x, y))
                                    (filter (xsel d y) (range2 (-1) d)))
                      (range2 (-1) d)).
  assert (Hzs : forall c, In c zs -> (fst c + snd c) mod 2 <> 0).
  { intros c Hc. apply (pairs_selected (zsel d)) in Hc.
    unfold zsel in Hc. apply andb_true_iff in Hc. destruct Hc as [_ Hc].
    apply negb_true_iff, Z.eqb_neq in Hc. exact Hc. }
  assert (Hxs : forall c, In c xs -> (fst c + snd c) mod 2 = 0).
  { intros c Hc. apply (pairs_selected (xsel d)) in Hc.
    unfold xsel in Hc. apply andb_true_iff in Hc. destruct Hc as [_ Hc].
    now apply Z.eqb_eq in Hc. }
  unfold touched. rewrite flat_map_app. fold (touched j (map (fun c => zstore d (snd c) (fst c)) zs)).
  fold (touched j (map (fun c => xstore d (snd c) (fst c)) xs)).
  rewrite !touched_map.
  apply NoDup_append.
  - apply NoDup_cells; [apply pairs_NoDup; apply range2_NoDup|].
    intros [x y] [x' y'] q _ _ H H'. cbn [fst snd] in H, H'.
    apply zslot in H, H'.
    destruct (same_cell _ _ _ _ _ _ _ _ _ _ H H'). f_equal; lia.
  - apply NoDup_cells; [apply pairs_NoDup; apply range2_NoDup|].
    intros [x y] [x' y'] q _ _ H H'. cbn [fst snd] in H, H'.
    apply xslot in H, H'.
    destruct (same_cell _ _ _ _ _ _ _ _ _ _ H H'). f_equal; lia.
  - intros q Hz Hx.
    apply in_flat_map in Hz. destruct Hz as ([x y] & Hc & Hz).
    apply in_flat_map in Hx. destruct Hx as ([x' y'] & Hc' & Hx).
    cbn [fst snd] in Hz, Hx.
    destruct (slot (zstore d y x) j) as [q1|] eqn:E; cbn [cell_of In] in Hz;
      [|contradiction].
    destruct (slot (xstore d y' x') j) as [q2|] eqn:E'; cbn [cell_of In] in Hx;
      [|contradiction].
    destruct Hz as [-> | []]. destruct Hx as [-> | []].
    apply zslot in E. apply xslot in E'.
    destruct (same_cell _ _ _ _ _ _ _ _ _ _ E E') as [H1 H2].
    pose proof (off_sum j) as Hs.
    apply Hzs in Hc. apply Hxs in Hc'. cbn [fst snd] in Hc, Hc'.
    replace (x + y) with (x' + y') in Hc by lia. contradiction.
Qed.
